(** * Options pricing and Greeks engine: a model of the C++ sources

    The C++ [double] is IEEE 754 binary64; it is modelled by Rocq's primitive
    [float], whose [+ - * /], [sqrt], [abs] and comparisons are the IEEE
    operations (round to nearest even), NaN and signed zeros included.  The C
    library's [exp], [log] and [pow], and the random engine of [<random>], are
    not part of the repository: they are parameters of the model
    ([Libm], [Rng]).  Wall-clock timings ([elapsed_ms]) and the textual method
    labels of the result structures are left out. *)

From Stdlib Require Import ZArith Lia List Bool Floats Uint63.
From Stdlib Require Reals Lra.
From stdpp Require Import base list.

Set Warnings "-inexact-float".
Local Open Scope float_scope.

(** ** Conversions and the few [<algorithm>] helpers the sources use *)

(** [int] to [double] (exact for 32-bit values). *)
Definition of_int (z : Z) : float :=
  if (z <? 0)%Z then - of_uint63 (Uint63.of_Z (- z)) else of_uint63 (Uint63.of_Z z).

(** [size_t] to [double]. *)
Definition of_size (n : nat) : float := of_uint63 (Uint63.of_Z (Z.of_nat n)).

(** [static_cast<int>] of a [size_t]: the low 32 bits, read as signed. *)
Definition int_of_size (n : nat) : Z :=
  let w := (Z.of_nat n mod 2 ^ 32)%Z in
  if (w <? 2 ^ 31)%Z then w else (w - 2 ^ 32)%Z.

(** [std::max(a, b)] is [(a < b) ? b : a]. *)
Definition std_max (a b : float) : float := if a <? b then b else a.

(** [std::clamp(v, lo, hi)] is [(v < lo) ? lo : (hi < v) ? hi : v]. *)
Definition clamp (v lo hi : float) : float :=
  if v <? lo then lo else if hi <? v then hi else v.

(** [std::accumulate(first, last, 0.0)]: a left fold of [+]. *)
Definition accumulate (v : list float) (init : float) : float :=
  fold_left PrimFloat.add v init.

(** [for (i = 0; i < n; ++i) out[i] = f(i);] on a vector [out]. *)
Definition fill {A} (out : list A) (f : nat -> A) (n : nat) : list A :=
  fold_left (fun o i => <[i := f i]> o) (seq 0 n) out.

(** [M_PI] of [<cmath>]. *)
Definition M_PI : float := 3.14159265358979323846.

(** ** pricing/types.h *)

Inductive OptionType := CALL | PUT.
Inductive ExerciseStyle := EUROPEAN | AMERICAN.

Module OptionParams.
Record t := mk {
  S : float;      (* spot price *)
  K : float;      (* strike price *)
  T : float;      (* time to expiry, years *)
  r : float;      (* risk-free rate *)
  sigma : float;  (* volatility *)
  q : float;      (* continuous dividend yield *)
  type : OptionType;
  style : ExerciseStyle
}.
End OptionParams.

Module PricingResult.
Record t := mk {
  price : float;
  std_error : float;  (* 0 for the analytic and lattice methods *)
  paths : Z           (* 0 when not simulation based *)
}.
End PricingResult.

Module VolSurfacePoint.
Record t := mk {
  strike : float;
  expiry : float;
  implied_vol : float;
  market_price : float;
  model_price : float;
  error : float
}.
(** What [std::vector::resize] value-initialises a slot to. *)
Definition zero : t := mk 0 0 0 0 0 0.
End VolSurfacePoint.

Module CalibrationResult.
Record t := mk {
  surface : list VolSurfacePoint.t;
  total_rmse : float;
  max_error : float;
  iterations : Z
}.
End CalibrationResult.

Module Greeks.
Record t := mk {
  delta : float;  (* dV/dS *)
  gamma : float;  (* d2V/dS2 *)
  theta : float;  (* dV/dT, per day *)
  vega : float;   (* dV/dsigma, per 1% vol move *)
  rho : float;    (* dV/dr, per 1% rate move *)
  vanna : float;  (* d2V/(dS dsigma) *)
  volga : float;  (* d2V/dsigma2 *)
  charm : float;  (* d2V/(dS dT) *)
  speed : float   (* d3V/dS3 *)
}.
End Greeks.

Definition intrinsic_value (S K : float) (type : OptionType) : float :=
  match type with
  | CALL => std_max (S - K) 0.0
  | PUT => std_max (K - S) 0.0
  end.

(** ** How a call ends

    The specification names four failures.  A call of one of the functions
    modelled here either returns a value or raises one of them. *)

Inductive failure :=
  | InvalidParameter
  | NumericalInstability
  | NonConvergence
  | UnstableDiscretization.

Inductive outcome (A : Type) : Type :=
  | Returned (a : A)
  | Raised (f : failure).
Arguments Returned {A} a.
Arguments Raised {A} f.

(** A call can also end outside the specification: by an exception of the C++
    library that the function lets through, or by undefined behaviour. *)
Inductive cxx_exception := length_error.  (* std::length_error *)

Inductive ending (A : Type) : Type :=
  | Finished (o : outcome A)
  | Thrown (e : cxx_exception)
  | Undefined.
Arguments Finished {A} o.
Arguments Thrown {A} e.
Arguments Undefined {A}.

(** ** The C library, as a parameter *)

Record Libm := {
  exp : float -> float;
  log : float -> float;
  pow : float -> float -> float
}.

(** ** utils/normal_dist.h *)

Section NormalDist.
Context (M : Libm).

(** Abramowitz and Stegun approximation of the standard normal CDF. *)
Definition norm_cdf (x : float) : float :=
  if 8.0 <? x then 1.0
  else if x <? -8.0 then 0.0
  else
    let a1 := 0.254829592 in
    let a2 := -0.284496736 in
    let a3 := 1.421413741 in
    let a4 := -1.453152027 in
    let a5 := 1.061405429 in
    let p := 0.3275911 in
    let sign := if 0.0 <=? x then 1.0 else -1.0 in
    let x := abs x / PrimFloat.sqrt 2.0 in
    let t := 1.0 / (1.0 + p * x) in
    let y := 1.0 - (((((a5 * t + a4) * t) + a3) * t + a2) * t + a1) * t * exp M (- x * x) in
    0.5 * (1.0 + sign * y).

Definition norm_pdf (x : float) : float :=
  let inv_sqrt_2pi := 0.3989422804014327 in
  inv_sqrt_2pi * exp M (-0.5 * x * x).

(** Inverse normal CDF, a rational approximation in three ranges. *)
Definition norm_inv (u : float) : float :=
  if u <=? 0.0 then -8.0
  else if 1.0 <=? u then 8.0
  else
    let a0 := -3.969683028665376e+01 in let a1 := 2.209460984245205e+02 in
    let a2 := -2.759285104469687e+02 in let a3 := 1.383577518672690e+02 in
    let a4 := -3.066479806614716e+01 in let a5 := 2.506628277459239e+00 in
    let b0 := -5.447609879822406e+01 in let b1 := 1.615858368580409e+02 in
    let b2 := -1.556989798598866e+02 in let b3 := 6.680131188771972e+01 in
    let b4 := -1.328068155288572e+01 in
    let c0 := -7.784894002430293e-03 in let c1 := -3.223964580411365e-01 in
    let c2 := -2.400758277161838e+00 in let c3 := -2.549732539343734e+00 in
    let c4 := 4.374664141464968e+00 in let c5 := 2.938163982698783e+00 in
    let d0 := 7.784695709041462e-03 in let d1 := 3.224671290700398e-01 in
    let d2 := 2.445134137142996e+00 in let d3 := 3.754408661907416e+00 in
    if u <? 0.02425 then
      let q := PrimFloat.sqrt (-2.0 * log M u) in
      (((((c0 * q + c1) * q + c2) * q + c3) * q + c4) * q + c5) / ((((d0 * q + d1) * q + d2) * q + d3) * q + 1)
    else if u <=? 0.97575 then
      let q := u - 0.5 in
      let r := q * q in
      (((((a0 * r + a1) * r + a2) * r + a3) * r + a4) * r + a5) * q / (((((b0 * r + b1) * r + b2) * r + b3) * r + b4) * r + 1)
    else
      let q := PrimFloat.sqrt (-2.0 * log M (1.0 - u)) in
      - (((((c0 * q + c1) * q + c2) * q + c3) * q + c4) * q + c5) / ((((d0 * q + d1) * q + d2) * q + d3) * q + 1).

End NormalDist.

(** ** pricing/black_scholes.h *)

Module BlackScholes.
Section BlackScholes.
Context (M : Libm).
Import OptionParams.

Definition calc_d1 (p : OptionParams.t) : float :=
  (log M (S p / K p) + (r p - q p + 0.5 * sigma p * sigma p) * T p) /
  (sigma p * PrimFloat.sqrt (T p)).

(** The function has no [throw] and no early exit: every call runs the
    closed form through and returns a result. *)
Definition price (p : OptionParams.t) : PricingResult.t :=
  let d1 := calc_d1 p in
  let d2 := d1 - sigma p * PrimFloat.sqrt (T p) in
  let df := exp M (- r p * T p) in
  let fwd_factor := exp M (- q p * T p) in
  let price :=
    match type p with
    | CALL => S p * fwd_factor * norm_cdf M d1 - K p * df * norm_cdf M d2
    | PUT => K p * df * norm_cdf M (- d2) - S p * fwd_factor * norm_cdf M (- d1)
    end in
  PricingResult.mk price 0.0 0.

(** A call of [BlackScholes::price]: the body above is straight-line code
    with no [throw] (neither [calc_d1], [norm_cdf] nor the C library raises),
    so the call returns what [price] computes. *)
Definition price_outcome (p : OptionParams.t) : outcome PricingResult.t :=
  Returned (price p).

Definition vega (p : OptionParams.t) : float :=
  let d1 := calc_d1 p in
  let fwd := exp M (- q p * T p) in
  S p * fwd * norm_pdf M d1 * PrimFloat.sqrt (T p) / 100.0.

(** The other closed-form Greeks. *)

Definition delta (p : OptionParams.t) : float :=
  let d1 := calc_d1 p in
  let fwd := exp M (- q p * T p) in
  match type p with
  | CALL => fwd * norm_cdf M d1
  | PUT => fwd * (norm_cdf M d1 - 1.0)
  end.

Definition gamma (p : OptionParams.t) : float :=
  let d1 := calc_d1 p in
  let fwd := exp M (- q p * T p) in
  fwd * norm_pdf M d1 / (S p * sigma p * PrimFloat.sqrt (T p)).

Definition theta (p : OptionParams.t) : float :=
  let d1 := calc_d1 p in
  let d2 := d1 - sigma p * PrimFloat.sqrt (T p) in
  let fwd := exp M (- q p * T p) in
  let df := exp M (- r p * T p) in
  let term1 := - (S p * fwd * norm_pdf M d1 * sigma p) / (2.0 * PrimFloat.sqrt (T p)) in
  match type p with
  | CALL =>
      (term1 + q p * S p * fwd * norm_cdf M d1 - r p * K p * df * norm_cdf M d2) / 365.0
  | PUT =>
      (term1 - q p * S p * fwd * norm_cdf M (- d1) + r p * K p * df * norm_cdf M (- d2)) / 365.0
  end.

Definition rho (p : OptionParams.t) : float :=
  let d2 := calc_d1 p - sigma p * PrimFloat.sqrt (T p) in
  let df := exp M (- r p * T p) in
  match type p with
  | CALL => K p * T p * df * norm_cdf M d2 / 100.0
  | PUT => - K p * T p * df * norm_cdf M (- d2) / 100.0
  end.

Definition vanna (p : OptionParams.t) : float :=
  let d1 := calc_d1 p in
  let d2 := d1 - sigma p * PrimFloat.sqrt (T p) in
  let fwd := exp M (- q p * T p) in
  - fwd * norm_pdf M d1 * d2 / sigma p.

Definition volga (p : OptionParams.t) : float :=
  let d1 := calc_d1 p in
  let d2 := d1 - sigma p * PrimFloat.sqrt (T p) in
  let fwd := exp M (- q p * T p) in
  S p * fwd * norm_pdf M d1 * PrimFloat.sqrt (T p) * d1 * d2 / sigma p.

(** [charm] and [speed] are left at [0.0]: the closed forms stop at volga. *)
Definition all_greeks (p : OptionParams.t) : Greeks.t :=
  Greeks.mk (delta p) (gamma p) (theta p) (vega p) (rho p) (vanna p) (volga p) 0.0 0.0.

End BlackScholes.
End BlackScholes.

(** ** calibration/implied_vol.h *)

Module ImpliedVolSolver.

(** How the Newton-Raphson loop is left, with the iterate it held. *)
Inductive newton_exit :=
  | Converged (sigma : float)        (* [return sigma] inside the loop *)
  | VegaTooSmall (sigma : float)     (* [break] *)
  | BudgetExhausted (sigma : float). (* [i == max_iter] *)

(** Whether the loop returned from inside ([false]: control reaches the
    bisection fallback). *)
Definition returned (e : newton_exit) : bool :=
  match e with
  | Converged _ => true
  | VegaTooSmall _ | BudgetExhausted _ => false
  end.

Section Solver.
Context (M : Libm).
Context (market_price S K T r q : float) (type : OptionType) (tol : float).

Definition model_price_at (sigma : float) : float :=
  PricingResult.price
    (BlackScholes.price M (OptionParams.mk S K T r sigma q type EUROPEAN)).

Definition vega_at (sigma : float) : float :=
  BlackScholes.vega M (OptionParams.mk S K T r sigma q type EUROPEAN) * 100.0.

(** The body of [for (int i = 0; i < max_iter; ++i)], [budget] iterations
    left.  The second component counts the loop bodies entered. *)
Fixpoint newton (budget : nat) (sigma : float) : newton_exit * nat :=
  match budget with
  | O => (BudgetExhausted sigma, O)
  | Datatypes.S budget' =>
      let model_price := model_price_at sigma in
      let vega := vega_at sigma in
      let diff := model_price - market_price in
      if abs diff <? tol then (Converged sigma, 1%nat)
      else if abs vega <? 1e-12 then (VegaTooSmall sigma, 1%nat)
      else
        let step := diff / vega in
        let sigma := sigma - step in
        let sigma := clamp sigma 0.001 10.0 in
        let '(e, n) := newton budget' sigma in (e, Datatypes.S n)
  end.

(** The body of [for (int i = 0; i < 200; ++i)] of [bisection_solve] on the
    bracket [lo, hi]; the second component counts the loop bodies entered. *)
Fixpoint bisect (budget : nat) (lo hi : float) : float * nat :=
  match budget with
  | O => ((lo + hi) / 2.0, O)
  | Datatypes.S budget' =>
      let mid := (lo + hi) / 2.0 in
      let model_price := model_price_at mid in
      if abs (model_price - market_price) <? tol then (mid, 1%nat)
      else
        let '(x, n) :=
          if market_price <? model_price then bisect budget' lo mid
          else bisect budget' mid hi in
        (x, Datatypes.S n)
  end.

Definition bisection_trace : float * nat := bisect 200 0.001 5.0.

Definition bisection_solve : float := fst bisection_trace.

Definition initial_guess : float :=
  let sigma := PrimFloat.sqrt (2.0 * M_PI / T) * market_price / S in
  clamp sigma 0.01 5.0.

(** [solve], with the numbers of Newton and of bisection iterations run. *)
Definition solve_trace (max_iter : Z) : float * (nat * nat) :=
  let '(e, n) := newton (Z.to_nat max_iter) initial_guess in
  match e with
  | Converged sigma => (sigma, (n, O))
  | VegaTooSmall _ | BudgetExhausted _ =>
      (bisection_solve, (n, snd bisection_trace))
  end.

Definition solve (max_iter : Z) : float := fst (solve_trace max_iter).

End Solver.
End ImpliedVolSolver.

(** ** calibration/vol_surface.h *)

Module MarketQuote.
Record t := mk {
  strike : float;
  expiry : float;
  market_price : float;
  type : OptionType
}.
End MarketQuote.

Module VolSurface.
Section VolSurface.
Context (M : Libm).
Context (spot rate div_yield : float).

(** The body of the parallel loop for one quote ([solve] with its default
    [tol = 1e-8] and [max_iter = 100]). *)
Definition calibrate_quote (q : MarketQuote.t) : VolSurfacePoint.t :=
  let iv := ImpliedVolSolver.solve M (MarketQuote.market_price q) spot
              (MarketQuote.strike q) (MarketQuote.expiry q) rate div_yield
              (MarketQuote.type q) 1e-8 100 in
  let p := OptionParams.mk spot (MarketQuote.strike q) (MarketQuote.expiry q)
             rate iv div_yield (MarketQuote.type q) EUROPEAN in
  let model_price := PricingResult.price (BlackScholes.price M p) in
  let error := abs (model_price - MarketQuote.market_price q) in
  VolSurfacePoint.mk (MarketQuote.strike q) (MarketQuote.expiry q) iv
    (MarketQuote.market_price q) model_price error.

(** One iteration [i] of the loop: [result.surface[i] = {...}]. *)
Definition calibrate_slot (quotes : list MarketQuote.t)
    (surface : list VolSurfacePoint.t) (i : nat) : list VolSurfacePoint.t :=
  match quotes !! i with
  | Some q => <[i := calibrate_quote q]> surface
  | None => surface
  end.

(** The serial reduction after the loop. *)
Definition aggregate (surface : list VolSurfacePoint.t) : float * float :=
  fold_left
    (fun '(sse, max_error) pt =>
       (sse + VolSurfacePoint.error pt * VolSurfacePoint.error pt,
        std_max max_error (VolSurfacePoint.error pt)))
    surface (0.0, 0.0).

(** [calibrate] with the loop's iterations run in the order [schedule]
    (OpenMP's dynamic schedule fixes none). *)
Definition calibrate_in (schedule : list nat) (quotes : list MarketQuote.t)
    : CalibrationResult.t :=
  let surface := replicate (length quotes) VolSurfacePoint.zero in
  let surface := fold_left (calibrate_slot quotes) schedule surface in
  let '(sse, max_error) := aggregate surface in
  CalibrationResult.mk surface
    (PrimFloat.sqrt (sse / of_size (length surface)))
    max_error
    (int_of_size (length quotes)).

Definition calibrate (quotes : list MarketQuote.t) : CalibrationResult.t :=
  calibrate_in (seq 0 (length quotes)) quotes.

(** The body of the inner loop of [generate_market_quotes]: the quote for
    expiry [T] and strike [K], priced off a skewed and smiling volatility
    floored at 5%. *)
Definition synthetic_quote (base_vol skew smile : float) (T K : float) : MarketQuote.t :=
  let m := log M (K / spot) in
  let term_adj := PrimFloat.sqrt (0.5 / T) in
  let vol := base_vol + skew * m * term_adj + smile * m * m in
  let vol := std_max vol 0.05 in
  let type := if spot <=? K then CALL else PUT in
  let p := OptionParams.mk spot K T rate vol 0.0 type EUROPEAN in
  let price := PricingResult.price (BlackScholes.price M p) in
  MarketQuote.mk K T price type.

(** [generate_market_quotes]: for each expiry, for each strike, one
    [push_back]. *)
Definition generate_market_quotes (strikes expiries : list float)
    (base_vol skew smile : float) : list MarketQuote.t :=
  fold_left
    (fun quotes T =>
       fold_left (fun quotes K => quotes ++ [synthetic_quote base_vol skew smile T K])
                 strikes quotes)
    expiries [].

End VolSurface.
End VolSurface.

(** ** utils/random_gen.h *)

(** [std::mt19937_64] together with the distribution object drawing from it:
    a generator state, how a seed builds it, and one draw of each
    distribution (the draw returns the advanced state). *)
Record Rng := {
  gen : Type;
  seeded : Z -> gen;
  normal : gen -> float * gen;    (* normal_distribution<double>(0, 1) *)
  uniform : gen -> float * gen    (* uniform_real_distribution<double>(0, 1) *)
}.

Module RandomGenerator.
Section RandomGenerator.
Context (M : Libm) (R : Rng).

Definition generate_normals (n : nat) (seed : Z) : list float :=
  fst (fold_left
         (fun '(samples, g) i =>
            let '(z, g) := normal R g in (<[i := z]> samples, g))
         (seq 0 n) (replicate n 0.0, seeded R seed)).

(** The loop [for (i = 0; i < half; ++i)] of [generate_antithetic]. *)
Definition antithetic_pairs (half : nat) (samples : list float) (g : gen R)
    : list float * gen R :=
  fold_left
    (fun '(samples, g) i =>
       let '(z, g) := normal R g in
       (<[(2 * i + 1)%nat := - z]> (<[(2 * i)%nat := z]> samples), g))
    (seq 0 half) (samples, g).

Definition generate_antithetic (n : nat) (seed : Z) : list float :=
  let half := (n / 2)%nat in
  let '(samples, g) := antithetic_pairs half (replicate n 0.0) (seeded R seed) in
  if negb (n mod 2 =? 0)%nat
  then <[(n - 1)%nat := fst (normal R g)]> samples
  else samples.

Definition generate_stratified (n : nat) (seed : Z) : list float :=
  fst (fold_left
         (fun '(samples, g) i =>
            let '(x, g) := uniform R g in
            let u := (of_int (Z.of_nat i) + x) / of_int (Z.of_nat n) in
            (<[i := norm_inv M u]> samples, g))
         (seq 0 n) (replicate n 0.0, seeded R seed)).

(** The loop of [van_der_corput], [while (n > 0) { ... }], on [int]s.  The
    source puts no bound on it; it ends when [base >= 2], and [None] is a
    loop that would still be running when the fuel is used up. *)
Fixpoint van_der_corput_loop (fuel : nat) (n base : Z) (result f : float) : option float :=
  if (0 <? n)%Z then
    match fuel with
    | O => None
    | Datatypes.S fuel' =>
        van_der_corput_loop fuel' (Z.quot n base) base
          (result + f * of_int (Z.rem n base)) (f / of_int base)
    end
  else Some result.

(** [van_der_corput(n, base)], with one more iteration allowed than [n] has
    binary digits. *)
Definition van_der_corput (n base : Z) : option float :=
  van_der_corput_loop (Datatypes.S (Z.to_nat (Z.log2 n))) n base 0.0 (1.0 / of_int base).

Definition generate_quasi_random (n : nat) : option (list float) :=
  fold_left
    (fun acc i =>
       samples ← acc;
       u ← van_der_corput (Z.of_nat i + 1) 2;
       Some (<[i := norm_inv M u]> samples))
    (seq 0 n) (Some (replicate n 0.0)).

End RandomGenerator.
End RandomGenerator.

(** ** monte_carlo/mc_engine.h *)

Inductive VarianceReduction := NONE | ANTITHETIC | STRATIFIED | CONTROL_VARIATE.

Module MonteCarloEngine.
Section MonteCarloEngine.
Context (M : Libm) (R : Rng).
Import OptionParams.

(** The draws [z] that [price] simulates from. *)
Definition draws (vr : VarianceReduction) (num_paths : nat) (seed : Z) : list float :=
  match vr with
  | ANTITHETIC => RandomGenerator.generate_antithetic R num_paths seed
  | STRATIFIED => RandomGenerator.generate_stratified M R num_paths seed
  | _ => RandomGenerator.generate_normals R num_paths seed
  end.

Definition terminal (p : OptionParams.t) (z : float) : float :=
  let dt := T p in
  let drift := (r p - q p - 0.5 * sigma p * sigma p) * dt in
  let vol_sqrt_dt := sigma p * PrimFloat.sqrt dt in
  S p * exp M (drift + vol_sqrt_dt * z).

(** [payoffs[i] = intrinsic_value(ST, K, type)] for every path [i]. *)
Definition simulate (p : OptionParams.t) (z : list float) (num_paths : nat) : list float :=
  fill (replicate num_paths 0.0)
       (fun i => intrinsic_value (terminal p (nth i z 0.0)) (K p) (type p))
       num_paths.

(** [for (double a : v) var += (a - mean) * (a - mean);] from [var = 0]. *)
Definition sum_sq_dev (v : list float) (mean : float) : float :=
  fold_left (fun var a => var + (a - mean) * (a - mean)) v 0.0.

(** The estimate and its standard error before the final [std::max]:
    the plain branch. *)
Definition plain_estimate (df : float) (payoffs : list float) (num_paths : nat)
    : float * float :=
  let n := of_int (Z.of_nat num_paths) in
  let sum := accumulate payoffs 0.0 in
  let mean := sum / n in
  let price_est := df * mean in
  let var := sum_sq_dev payoffs mean in
  let var := var / of_int (Z.of_nat num_paths - 1) in
  let std_err := df * PrimFloat.sqrt (var / n) in
  (price_est, std_err).

(** The covariance loop of the control variate branch: [(cov, var_control)]. *)
Definition cov_var (terminals payoffs : list float) (mean_terminal mean_payoff : float)
    (num_paths : nat) : float * float :=
  fold_left
    (fun '(cov, var_control) i =>
       let dc := nth i terminals 0.0 - mean_terminal in
       let dp := nth i payoffs 0.0 - mean_payoff in
       (cov + dc * dp, var_control + dc * dc))
    (seq 0 num_paths) (0.0, 0.0).

Definition control_variate_beta (terminals payoffs : list float) (num_paths : nat) : float :=
  let n := of_int (Z.of_nat num_paths) in
  let mean_terminal := accumulate terminals 0.0 / n in
  let mean_payoff := accumulate payoffs 0.0 / n in
  let '(cov, var_control) := cov_var terminals payoffs mean_terminal mean_payoff num_paths in
  if 0.0 <? var_control then cov / var_control else 0.0.

(** [adjusted[i] = payoffs[i] - beta * (terminals[i] - fwd)]. *)
Definition adjusted_payoffs (p : OptionParams.t) (z payoffs : list float)
    (num_paths : nat) : list float :=
  let fwd := S p * exp M ((r p - q p) * T p) in
  let terminals := fill (replicate num_paths 0.0) (fun i => terminal p (nth i z 0.0)) num_paths in
  let beta := control_variate_beta terminals payoffs num_paths in
  fill (replicate num_paths 0.0)
       (fun i => nth i payoffs 0.0 - beta * (nth i terminals 0.0 - fwd))
       num_paths.

(** The control variate branch. *)
Definition control_variate_estimate (df : float) (adjusted : list float) (num_paths : nat)
    : float * float :=
  let n := of_int (Z.of_nat num_paths) in
  let sum := accumulate adjusted 0.0 in
  let price_est := df * sum / n in
  let adj_mean := sum / n in
  let var := sum_sq_dev adjusted adj_mean in
  let var := var / of_int (Z.of_nat num_paths - 1) in
  let std_err := df * PrimFloat.sqrt (var / n) in
  (price_est, std_err).

(** [price_est] and [std_err] as the function holds them just before its
    [return]. *)
Definition estimate (p : OptionParams.t) (num_paths : nat) (vr : VarianceReduction)
    (seed : Z) : float * float :=
  let df := exp M (- r p * T p) in
  let z := draws vr num_paths seed in
  let payoffs := simulate p z num_paths in
  match vr with
  | CONTROL_VARIATE =>
      control_variate_estimate df (adjusted_payoffs p z payoffs num_paths) num_paths
  | _ => plain_estimate df payoffs num_paths
  end.

Definition price (p : OptionParams.t) (num_paths : nat) (vr : VarianceReduction)
    (seed : Z) : PricingResult.t :=
  let '(price_est, std_err) := estimate p num_paths vr seed in
  PricingResult.mk (std_max price_est 0.0) std_err (Z.of_nat num_paths).

(** One path of [price_multistep]: [num_steps] draws from the thread's
    stream, each multiplying [S] by [exp(drift + vol_sqrt_dt * z)]. *)
Definition walk (drift vol_sqrt_dt : float) (num_steps : nat) (S0 : float) (g : gen R)
    : float * gen R :=
  fold_left
    (fun '(S, g) _ => let '(z, g) := normal R g in (S * exp M (drift + vol_sqrt_dt * z), g))
    (seq 0 num_steps) (S0, g).

(** The paths one thread simulates, in order, from its own stream. *)
Definition thread_payoffs (p : OptionParams.t) (drift vol_sqrt_dt : float)
    (num_steps : nat) (count : nat) (g : gen R) : list float :=
  fst (fold_left
         (fun '(out, g) _ =>
            let '(ST, g) := walk drift vol_sqrt_dt num_steps (S p) g in
            (out ++ [intrinsic_value ST (K p) (type p)], g))
         (seq 0 count) ([], g)).

(** [unsigned thread_seed = seed + omp_get_thread_num() * 1000]. *)
Definition thread_seed (seed : Z) (tid : nat) : Z :=
  ((seed + Z.of_nat tid * 1000) mod 2 ^ 32)%Z.

(** [price_multistep].  The static schedule hands thread [t] the [t]-th
    contiguous block of paths; [blocks] lists the block sizes, one per
    thread (they add up to [num_paths]). *)
Definition price_multistep (p : OptionParams.t) (blocks : list nat) (num_steps : nat)
    (seed : Z) : PricingResult.t :=
  let num_paths := fold_right Nat.add O blocks in
  let dt := T p / of_int (Z.of_nat num_steps) in
  let drift := (r p - q p - 0.5 * sigma p * sigma p) * dt in
  let vol_sqrt_dt := sigma p * PrimFloat.sqrt dt in
  let df := exp M (- r p * T p) in
  let payoffs :=
    concat (imap (fun tid count =>
                    thread_payoffs p drift vol_sqrt_dt num_steps count
                      (seeded R (thread_seed seed tid)))
                 blocks) in
  let n := of_int (Z.of_nat num_paths) in
  let sum := accumulate payoffs 0.0 in
  let mean := sum / n in
  let price_est := df * mean in
  let var := sum_sq_dev payoffs mean in
  let var := var / of_int (Z.of_nat num_paths - 1) in
  let std_err := df * PrimFloat.sqrt (var / n) in
  PricingResult.mk (std_max price_est 0.0) std_err (Z.of_nat num_paths).

End MonteCarloEngine.
End MonteCarloEngine.

(** ** pricing/binomial_tree.h *)

Module BinomialTree.
Section BinomialTree.
Context (M : Libm).
Import OptionParams.

(** The risk-neutral probability the function computes for [steps] steps. *)
Definition prob (p : OptionParams.t) (steps : nat) : float :=
  let dt := T p / of_int (Z.of_nat steps) in
  let u := exp M (sigma p * PrimFloat.sqrt dt) in
  let d := 1.0 / u in
  (exp M ((r p - q p) * dt) - d) / (u - d).

(** One sweep of the backward induction at level [step]:
    [for (i = 0; i <= step; ++i) prices[i] = ...], in place. *)
Definition sweep (p : OptionParams.t) (u d df prob : float) (prices : list float)
    (step : nat) : list float :=
  fold_left
    (fun prices i =>
       let continuation :=
         df * (prob * nth i prices 0.0 + (1.0 - prob) * nth (i + 1) prices 0.0) in
       match style p with
       | AMERICAN =>
           let spot := S p * pow M u (of_int (Z.of_nat step - Z.of_nat i))
                           * pow M d (of_int (Z.of_nat i)) in
           let exercise := intrinsic_value spot (K p) (type p) in
           <[i := std_max continuation exercise]> prices
       | EUROPEAN => <[i := continuation]> prices
       end)
    (seq 0 (step + 1)) prices.

(** [price] for a step count [steps >= 0].  There is no check of [prob]
    and no [throw]: the value computed for [prob] is used as it is. *)
Definition price (p : OptionParams.t) (steps : nat) : PricingResult.t :=
  let dt := T p / of_int (Z.of_nat steps) in
  let u := exp M (sigma p * PrimFloat.sqrt dt) in
  let d := 1.0 / u in
  let df := exp M (- r p * dt) in
  let prob := (exp M ((r p - q p) * dt) - d) / (u - d) in
  let prices :=
    fill (replicate (steps + 1) 0.0)
         (fun i =>
            let spot := S p * pow M u (of_int (Z.of_nat steps - Z.of_nat i))
                            * pow M d (of_int (Z.of_nat i)) in
            intrinsic_value spot (K p) (type p))
         (steps + 1) in
  let prices := fold_left (sweep p u d df prob) (rev (seq 0 steps)) prices in
  PricingResult.mk (nth 0 prices 0.0) 0.0 0.

(** A call of [BinomialTree::price] with an [int steps] (32 bits).
    - [steps <= -2]: [steps + 1] is negative and becomes a [size_t] above
      [max_size()], so the constructor of [prices] throws [std::length_error];
    - [steps = -1]: [prices] is empty, both loops are skipped and
      [prices[0]] reads past the end of the vector;
    - [steps = INT_MAX]: [steps + 1] overflows;
    - otherwise no statement of the body raises, the loops are bounded by
      [steps], and the call returns what [price] computes (the allocation of
      [prices] is taken to succeed). *)
Definition price_outcome (p : OptionParams.t) (steps : Z) : ending PricingResult.t :=
  if (steps <? -1)%Z then Thrown length_error
  else if (steps =? -1)%Z then Undefined
  else if (2 ^ 31 - 1 <=? steps)%Z then Undefined
  else Finished (Returned (price p (Z.to_nat steps))).

End BinomialTree.
End BinomialTree.

(** The backward induction of the binomial model as a recursion on the nodes
    of the lattice: the value of node [i] at level [step], [depth] levels
    above the terminal one.  The probability is the one the formula gives,
    whether or not it lies in (0, 1). *)
Module Lattice.
Section Lattice.
Context (M : Libm) (p : OptionParams.t) (steps : nat).
Import OptionParams.

Definition dt : float := T p / of_int (Z.of_nat steps).
Definition u : float := exp M (sigma p * PrimFloat.sqrt dt).
Definition d : float := 1.0 / u.
Definition df : float := exp M (- r p * dt).
Definition prob : float := (exp M ((r p - q p) * dt) - d) / (u - d).

(** The payoff of exercising at node [i] of level [step]. *)
Definition exercise (step i : nat) : float :=
  intrinsic_value
    (S p * pow M u (of_int (Z.of_nat step - Z.of_nat i)) * pow M d (of_int (Z.of_nat i)))
    (K p) (type p).

(** One node from its two successors. *)
Definition node (step i : nat) (up down : float) : float :=
  let continuation := df * (prob * up + (1.0 - prob) * down) in
  match style p with
  | AMERICAN => std_max continuation (exercise step i)
  | EUROPEAN => continuation
  end.

Fixpoint value (depth step i : nat) : float :=
  match depth with
  | O => exercise step i
  | Datatypes.S depth' =>
      node step i (value depth' (Datatypes.S step) i)
                  (value depth' (Datatypes.S step) (Datatypes.S i))
  end.

Definition root : float := value steps 0 0.

End Lattice.
End Lattice.

(** ** greeks/finite_difference.h *)

Module FiniteDifferenceGreeks.
Section FiniteDifferenceGreeks.
Context (M : Libm).
Import OptionParams.

(** [std::function<double(const OptionParams&)>], taken to be a function of
    its argument only. *)
Definition Pricer := OptionParams.t -> float.

(** [std::function<void(OptionParams&, double)>]: what it leaves in the
    structure it is handed. *)
Definition Perturb := OptionParams.t -> float -> OptionParams.t.

(** The lambdas [pp.S += h], [pp.T += h], [pp.sigma += h] and [pp.r += h]. *)
Definition bump_S : Perturb :=
  fun pp h => OptionParams.mk (S pp + h) (K pp) (T pp) (r pp) (sigma pp) (q pp) (type pp) (style pp).
Definition bump_T : Perturb :=
  fun pp h => OptionParams.mk (S pp) (K pp) (T pp + h) (r pp) (sigma pp) (q pp) (type pp) (style pp).
Definition bump_sigma : Perturb :=
  fun pp h => OptionParams.mk (S pp) (K pp) (T pp) (r pp) (sigma pp + h) (q pp) (type pp) (style pp).
Definition bump_r : Perturb :=
  fun pp h => OptionParams.mk (S pp) (K pp) (T pp) (r pp + h) (sigma pp) (q pp) (type pp) (style pp).

Definition central_diff (p : OptionParams.t) (pricer : Pricer) (perturb : Perturb)
    (h : float) : float :=
  let up := perturb p h in
  let down := perturb p (- h) in
  (pricer up - pricer down) / (2.0 * h).

Definition second_diff (p : OptionParams.t) (pricer : Pricer) (perturb : Perturb)
    (h : float) : float :=
  let up := perturb p h in
  let down := perturb p (- h) in
  let base := pricer p in
  (pricer up - 2.0 * base + pricer down) / (h * h).

Definition third_diff (p : OptionParams.t) (pricer : Pricer) (perturb : Perturb)
    (h : float) : float :=
  let p1 := perturb p h in
  let p2 := perturb p (2.0 * h) in
  let m1 := perturb p (- h) in
  let m2 := perturb p (-2.0 * h) in
  (pricer p2 - 2.0 * pricer p1 + 2.0 * pricer m1 - pricer m2) / (2.0 * h * h * h).

Definition cross_diff (p : OptionParams.t) (pricer : Pricer) (perturb1 perturb2 : Perturb)
    (h1 h2 : float) : float :=
  let pp := perturb2 (perturb1 p h1) h2 in
  let pm := perturb2 (perturb1 p h1) (- h2) in
  let mp := perturb2 (perturb1 p (- h1)) h2 in
  let mm := perturb2 (perturb1 p (- h1)) (- h2) in
  (pricer pp - pricer pm - pricer mp + pricer mm) / (4.0 * h1 * h2).

(** [compute]; a null [pricer] stands for the analytic price. *)
Definition compute (p : OptionParams.t) (pricer : option Pricer) : Greeks.t :=
  let pricer :=
    match pricer with
    | Some f => f
    | None => fun params => PricingResult.price (BlackScholes.price M params)
    end in
  let dS := S p * 0.01 in
  let dT := 1.0 / 365.0 in
  let dSig := 0.01 in
  let dR := 0.01 in
  Greeks.mk
    (central_diff p pricer bump_S dS)
    (second_diff p pricer bump_S dS)
    (- central_diff p pricer bump_T dT)
    (central_diff p pricer bump_sigma dSig / 100.0)
    (central_diff p pricer bump_r dR / 100.0)
    (cross_diff p pricer bump_S bump_sigma dS dSig)
    (second_diff p pricer bump_sigma dSig)
    (cross_diff p pricer bump_S bump_T dS dT)
    (third_diff p pricer bump_S dS).

End FiniteDifferenceGreeks.
End FiniteDifferenceGreeks.

(** ** Reference instances of the parameters

    They are used only to run the model on concrete inputs.  [ref_exp] and
    [ref_log] reduce the argument and sum a truncated series; on the inputs
    of the examples below they agree with the C library to the last digit or
    the one before it, far inside every margin those examples rely on. *)

Module Ref.

(** The integer a float holds (its magnitude rounded down, signed). *)
Definition trunc (x : float) : Z :=
  match Prim2SF x with
  | S754_finite s m e =>
      let v := (if 0 <=? e then Z.pos m * 2 ^ e else Z.pos m / 2 ^ (- e))%Z in
      if s then (- v)%Z else v
  | _ => 0%Z
  end.

Definition horner (cs : list float) (x : float) : float :=
  fold_right (fun c acc => c + x * acc) 0 cs.

Definition exp_coeffs : list float :=
  [1; 1; 0.5; 1 / 6; 1 / 24; 1 / 120; 1 / 720; 1 / 5040; 1 / 40320; 1 / 362880;
   1 / 3628800; 1 / 39916800; 1 / 479001600; 1 / 6227020800; 1 / 87178291200].

(** [x = k ln 2 + r] with [|r| <= ln 2 / 2], then [2^k * (1 + r + r^2/2 + ...)]. *)
Definition ref_exp (x : float) : float :=
  if is_nan x then nan
  else if 709.782712893384 <? x then infinity
  else if x <? -745.14 then 0
  else
    let magic := 6755399441055744 in
    let kf := (x * 1.4426950408889634 + magic) - magic in
    let r := (x - kf * 0x1.62e42fee00000p-1) - kf * 0x1.a39ef35793c76p-33 in
    Z.ldexp (horner exp_coeffs r) (trunc kf).

Definition log_coeffs : list float :=
  [2; 2 / 3; 2 / 5; 2 / 7; 2 / 9; 2 / 11; 2 / 13; 2 / 15; 2 / 17; 2 / 19;
   2 / 21; 2 / 23; 2 / 25].

(** [x = m 2^e] with [m] near 1, then [ln m = 2 atanh ((m - 1) / (m + 1))]. *)
Definition ref_log (x : float) : float :=
  if is_nan x then nan
  else if x <? 0 then nan
  else if x =? 0 then neg_infinity
  else if is_infinity x then x
  else
    let '(m, e) := Z.frexp x in
    let '(m, e) := if m <? 0.7071067811865476 then (m * 2, (e - 1)%Z) else (m, e) in
    let s := (m - 1) / (m + 1) in
    of_int e * 0x1.62e42fee00000p-1
    + (s * horner log_coeffs (s * s) + of_int e * 0x1.a39ef35793c76p-33).

Definition ref_pow (x y : float) : float :=
  if y =? 0 then 1
  else if x =? 1 then 1
  else if 0 <? x then ref_exp (y * ref_log x)
  else if x =? 0 then (if 0 <? y then 0 else infinity)
  else nan.

Definition libm : Libm := {| exp := ref_exp; log := ref_log; pow := ref_pow |}.

(** A scripted generator: every stream replays the list [zs], whatever the
    seed, and yields [0] once the list is used up. *)
Definition scripted (zs : list float) : Rng :=
  {| gen := list float;
     seeded := fun _ => zs;
     normal := fun g => (hd 0.0 g, tl g);
     uniform := fun g => (hd 0.0 g, tl g) |}.

End Ref.

(** * Facts about binary64 arithmetic

    The kernel specifies the primitive operations through [Prim2SF] and the
    functions of [SpecFloat]: an operation rounds the exact result of its
    operands.  This part derives from that specification what the proofs
    below need: NaN is absorbing, the comparisons are those of an integer
    valuation, an addition lands between any two representable bounds of its
    exact result, and halving a normal number is exact. *)

Module Binary64.

(** ** NaN propagates *)

Section NaN.
Local Open Scope float_scope.

Lemma add_nan_l (x : float) : nan + x = nan.
Proof. apply Prim2SF_inj. rewrite FloatAxioms.add_spec. reflexivity. Qed.
Lemma add_nan_r (x : float) : x + nan = nan.
Proof. apply Prim2SF_inj. rewrite FloatAxioms.add_spec. change (Prim2SF nan) with S754_nan. now destruct (Prim2SF x). Qed.
Lemma sub_nan_l (x : float) : nan - x = nan.
Proof. apply Prim2SF_inj. rewrite FloatAxioms.sub_spec. reflexivity. Qed.
Lemma sub_nan_r (x : float) : x - nan = nan.
Proof. apply Prim2SF_inj. rewrite FloatAxioms.sub_spec. change (Prim2SF nan) with S754_nan. now destruct (Prim2SF x). Qed.
Lemma mul_nan_l (x : float) : nan * x = nan.
Proof. apply Prim2SF_inj. rewrite FloatAxioms.mul_spec. reflexivity. Qed.
Lemma mul_nan_r (x : float) : x * nan = nan.
Proof. apply Prim2SF_inj. rewrite FloatAxioms.mul_spec. change (Prim2SF nan) with S754_nan. now destruct (Prim2SF x). Qed.
Lemma div_nan_l (x : float) : nan / x = nan.
Proof. apply Prim2SF_inj. rewrite FloatAxioms.div_spec. reflexivity. Qed.
Lemma div_nan_r (x : float) : x / nan = nan.
Proof. apply Prim2SF_inj. rewrite FloatAxioms.div_spec. change (Prim2SF nan) with S754_nan. now destruct (Prim2SF x). Qed.
Lemma ltb_nan_l (x : float) : (nan <? x) = false.
Proof. rewrite FloatAxioms.ltb_spec. reflexivity. Qed.
Lemma ltb_nan_r (x : float) : (x <? nan) = false.
Proof. rewrite FloatAxioms.ltb_spec. change (Prim2SF nan) with S754_nan. now destruct (Prim2SF x). Qed.

Lemma opp_nan : - nan = nan.
Proof. reflexivity. Qed.
Lemma abs_nan : abs nan = nan.
Proof. reflexivity. Qed.

End NaN.

(** ** The order of floats, through an integer valuation *)

Section Valuation.
Local Open Scope Z_scope.

(** Scaled integer value of a binary64 datum: its value times 2^1074. *)
Definition ival (x : spec_float) : Z :=
  match x with
  | S754_zero _ => 0
  | S754_nan => 0
  | S754_infinity s => cond_Zopp s (2 ^ 2100)
  | S754_finite s m e => cond_Zopp s (Z.pos m * 2 ^ (e + 1074))
  end.

Lemma digits2_bounds (m : positive) :
  2 ^ (Z.pos (digits2_pos m) - 1) <= Z.pos m < 2 ^ Z.pos (digits2_pos m).
Proof.
  induction m as [m IH | m IH | ]; cbn [digits2_pos].
  - rewrite Pos2Z.inj_succ.
    replace (Z.succ (Z.pos (digits2_pos m)) - 1) with (Z.succ (Z.pos (digits2_pos m) - 1)) by lia.
    rewrite !Z.pow_succ_r by lia. lia.
  - rewrite Pos2Z.inj_succ.
    replace (Z.succ (Z.pos (digits2_pos m)) - 1) with (Z.succ (Z.pos (digits2_pos m) - 1)) by lia.
    rewrite !Z.pow_succ_r by lia. lia.
  - cbn. lia.
Qed.

Lemma digits2_unique (m : positive) (d : Z) :
  2 ^ (d - 1) <= Z.pos m < 2 ^ d -> Z.pos (digits2_pos m) = d.
Proof.
  intros [Hlo Hhi]. pose proof (digits2_bounds m) as [Hlo' Hhi'].
  assert (0 < d) as Hd.
  { destruct (Z_lt_le_dec 0 d) as [ | Hd ]; [ assumption | exfalso ].
    destruct (Z.eq_dec d 0) as [-> | Hne ]; [ cbn in Hhi; lia | ].
    rewrite (Z.pow_neg_r 2 d) in Hhi by lia. lia. }
  destruct (Z.lt_trichotomy (Z.pos (digits2_pos m)) d) as [Hlt | [ ? | Hgt]]; [ | done | ].
  - assert (2 ^ Z.pos (digits2_pos m) <= 2 ^ (d - 1)) by (apply Z.pow_le_mono_r; lia). lia.
  - assert (2 ^ d <= 2 ^ (Z.pos (digits2_pos m) - 1)) by (apply Z.pow_le_mono_r; lia). lia.
Qed.

Lemma fexp_eq (e : Z) : fexp prec emax e = Z.max (e - 53) (-1074).
Proof. reflexivity. Qed.

(** What validity says of a finite datum. *)
Lemma valid_finite (s : bool) (m : positive) (e : Z) :
  valid_binary (S754_finite s m e) = true ->
  -1074 <= e <= 971 /\ Z.pos m < 2 ^ 53 /\ (-1074 < e -> 2 ^ 52 <= Z.pos m).
Proof.
  unfold SpecFloat.valid_binary, bounded, canonical_mantissa.
  rewrite andb_true_iff, Z.eqb_eq, Z.leb_le, fexp_eq.
  change (emax - prec) with 971.
  intros [Hc He]. pose proof (digits2_bounds m) as [Hlo Hhi].
  assert (Z.pos (digits2_pos m) <= 53 /\ (-1074 < e -> Z.pos (digits2_pos m) = 53)) as [Hd Hn] by lia.
  repeat split; try lia.
  - assert (2 ^ Z.pos (digits2_pos m) <= 2 ^ 53) by (apply Z.pow_le_mono_r; lia). lia.
  - intros Hne. rewrite (Hn Hne) in Hlo. exact Hlo.
Qed.

Lemma pow2_pos (k : Z) : 0 <= k -> 0 < 2 ^ k.
Proof. intros. apply Z.pow_pos_nonneg; lia. Qed.

Lemma scaled_lt (m1 m2 A B : Z) :
  0 < A -> 0 < B -> m1 < 2 ^ 53 -> 2 ^ 52 <= m2 -> m1 * A < m2 * (B * 2 * A).
Proof.
  intros HA HB H1 H2.
  apply Z.lt_le_trans with (2 ^ 53 * A); [ apply Z.mul_lt_mono_pos_r; lia | ].
  replace (m2 * (B * 2 * A)) with ((m2 * 2 * B) * A) by ring.
  apply Z.mul_le_mono_nonneg_r; [ lia | ].
  change (2 ^ 53) with (2 ^ 52 * 2 * 1).
  apply Z.mul_le_mono_nonneg; lia.
Qed.

(** On valid finite data the exponent-then-mantissa order is the order of values. *)
Lemma finite_order (m1 m2 : positive) (e1 e2 : Z) :
  valid_binary (S754_finite false m1 e1) = true ->
  valid_binary (S754_finite false m2 e2) = true ->
  match e1 ?= e2 with
  | Lt => Lt
  | Gt => Gt
  | Eq => Pos.compare_cont Eq m1 m2
  end = (Z.pos m1 * 2 ^ (e1 + 1074) ?= Z.pos m2 * 2 ^ (e2 + 1074)).
Proof.
  intros [He1 [Hm1 Hn1]]%valid_finite [He2 [Hm2 Hn2]]%valid_finite.
  change (Pos.compare_cont Eq m1 m2) with (Z.pos m1 ?= Z.pos m2).
  symmetry. destruct (Z.compare_spec e1 e2) as [-> | Hlt | Hgt].
  - pose proof (pow2_pos (e2 + 1074) ltac:(lia)).
    destruct (Z.compare_spec (Z.pos m1) (Z.pos m2)) as [ Heq | ? | ? ].
    + rewrite Heq. apply Z.compare_refl.
    + apply Z.compare_lt_iff. nia.
    + apply Z.compare_gt_iff. nia.
  - apply Z.compare_lt_iff.
    replace (e2 + 1074) with ((e2 - e1 - 1) + 1 + (e1 + 1074)) by lia.
    rewrite (Z.pow_add_r 2 (e2 - e1 - 1 + 1)), (Z.pow_add_r 2 (e2 - e1 - 1) 1) by lia.
    change (2 ^ 1) with 2.
    specialize (Hn2 ltac:(lia)).
    apply (scaled_lt (Z.pos m1) (Z.pos m2)); try lia; apply pow2_pos; lia.
  - apply Z.compare_gt_iff.
    replace (e1 + 1074) with ((e1 - e2 - 1) + 1 + (e2 + 1074)) by lia.
    rewrite (Z.pow_add_r 2 (e1 - e2 - 1 + 1)), (Z.pow_add_r 2 (e1 - e2 - 1) 1) by lia.
    change (2 ^ 1) with 2.
    specialize (Hn1 ltac:(lia)).
    apply (scaled_lt (Z.pos m2) (Z.pos m1)); try lia; apply pow2_pos; lia.
Qed.

Lemma ival_finite_bounds (s : bool) (m : positive) (e : Z) :
  valid_binary (S754_finite s m e) = true ->
  0 < Z.pos m * 2 ^ (e + 1074) < 2 ^ 2100.
Proof.
  intros [He [Hm Hn]]%valid_finite. pose proof (pow2_pos (e + 1074) ltac:(lia)).
  split; [ nia | ].
  assert (2 ^ (e + 1074) <= 2 ^ 2045) by (apply Z.pow_le_mono_r; lia).
  change (2 ^ 2100) with (2 ^ 53 * 2 ^ 2047).
  assert (2 ^ 2045 < 2 ^ 2047) by (apply Z.pow_lt_mono_r; lia).
  pose proof (pow2_pos 2045 ltac:(lia)). nia.
Qed.

(** [SFcompare] on valid data that are not NaN compares the scaled values. *)
Lemma SFcompare_ival (x y : spec_float) :
  valid_binary x = true -> valid_binary y = true ->
  x <> S754_nan -> y <> S754_nan ->
  SFcompare x y = Some (ival x ?= ival y).
Proof.
  intros Hx Hy Nx Ny.
  destruct x as [sx | sx | | sx mx ex], y as [sy | sy | | sy my ey]; try done.
  all: try (pose proof (ival_finite_bounds _ _ _ Hx)).
  all: try (pose proof (ival_finite_bounds _ _ _ Hy)).
  all: try (destruct sx); try (destruct sy); cbn [SFcompare ival cond_Zopp].
  all: try (f_equal; symmetry;
            first [ apply Z.compare_eq_iff; reflexivity
                  | apply Z.compare_lt_iff; lia
                  | apply Z.compare_gt_iff; lia ]).
  - rewrite Z.compare_opp, <- (finite_order my mx ey ex) by assumption.
    rewrite (Z.compare_antisym ex ey), (Pos.compare_cont_antisym mx my Eq).
    now destruct (ex ?= ey).
  - now rewrite finite_order.
Qed.

End Valuation.

(** ** Rounding to nearest stays between representable bounds *)

Section Rounding.
Local Open Scope Z_scope.

(** *** Right shifts with round and sticky bits *)

(** After [k] shifts of [N]: the quotient is kept, and a set round or sticky
    bit means a non-zero bit was dropped. *)
Definition shr_inv (N k : Z) (s : shr_record) : Prop :=
  shr_m s = N / 2 ^ k /\ (shr_r s || shr_s s = true -> N mod 2 ^ k <> 0).

Lemma div_pow2_succ (N k : Z) : 0 <= k -> N / 2 ^ (k + 1) = N / 2 ^ k / 2.
Proof.
  intros Hk. rewrite Z.pow_add_r, Z.pow_1_r by lia.
  rewrite Z.div_div by (try apply pow2_pos; lia). reflexivity.
Qed.

Lemma mod_pow2_succ (N k : Z) :
  0 <= k -> N mod 2 ^ (k + 1) = 0 -> N mod 2 ^ k = 0 /\ (N / 2 ^ k) mod 2 = 0.
Proof.
  intros Hk H. pose proof (pow2_pos k Hk) as Hp.
  apply Z.mod_divide in H; [ | rewrite Z.pow_add_r, Z.pow_1_r by lia; lia ].
  destruct H as [j Hj]. rewrite Z.pow_add_r, Z.pow_1_r in Hj by lia.
  assert (N = (j * 2) * 2 ^ k) as -> by lia.
  rewrite Z.mod_mul, Z.div_mul, Z.mod_mul by lia. done.
Qed.

Lemma shr_1_inv (N k : Z) (s : shr_record) :
  0 <= N -> 0 <= k -> shr_inv N k s -> shr_inv N (k + 1) (shr_1 s).
Proof.
  intros HN Hk [Hm Hrs]. destruct s as [m r st]. cbn [shr_m shr_r shr_s] in *.
  assert (0 <= m) as Hm0 by (subst m; apply Z.div_pos; [ lia | apply pow2_pos; lia ]).
  assert (r || st = true -> N mod 2 ^ (k + 1) <> 0) as Hsticky.
  { intros Hb Hz. apply mod_pow2_succ in Hz as [Hz _]; [ | lia ]. now apply Hrs. }
  assert (m mod 2 = 1 -> N mod 2 ^ (k + 1) <> 0) as Hodd.
  { intros Ho Hz. apply mod_pow2_succ in Hz as [_ Hz]; [ | lia ]. rewrite <- Hm in Hz. lia. }
  unfold shr_inv. rewrite div_pow2_succ, <- Hm by lia.
  destruct m as [ | [ p | p | ] | p ]; cbn [shr_1 shr_m shr_r shr_s orb]; try lia.
  - split; [ reflexivity | exact Hsticky ].
  - split; [ rewrite Pos2Z.inj_xI; apply Z.div_unique with 1; lia | ].
    intros _. apply Hodd. rewrite Pos2Z.inj_xI.
    rewrite Z.add_comm, Z.mul_comm, Z.mod_add by lia. reflexivity.
  - split; [ rewrite Pos2Z.inj_xO; apply Z.div_unique with 0; lia | exact Hsticky ].
  - split; [ reflexivity | ]. intros _. apply Hodd. reflexivity.
Qed.

Lemma iter_shr_inv (p : positive) :
  forall (N k : Z) (s : shr_record),
    0 <= N -> 0 <= k -> shr_inv N k s ->
    shr_inv N (k + Z.pos p) (SpecFloat.iter_pos shr_1 p s).
Proof.
  induction p as [p IH | p IH | ]; intros N k s HN Hk Hs; cbn [SpecFloat.iter_pos].
  - replace (k + Z.pos p~1) with (k + 1 + Z.pos p + Z.pos p) by lia.
    apply IH; [ lia .. | ]. apply IH; [ lia .. | ]. now apply shr_1_inv.
  - replace (k + Z.pos p~0) with (k + Z.pos p + Z.pos p) by lia.
    apply IH; [ lia .. | ]. now apply IH.
  - now apply shr_1_inv.
Qed.

(** *** Values a binary64 datum can take, scaled *)

Definition representable (z : Z) : Prop :=
  exists m k, 0 < m < 2 ^ 53 /\ 0 <= k <= 2045 /\ z = m * 2 ^ k.

Lemma representable_lt (z : Z) : representable z -> 0 < z < 2 ^ 2098.
Proof.
  intros (m & k & Hm & Hk & ->). pose proof (pow2_pos k ltac:(lia)).
  split; [ nia | ].
  assert (2 ^ k <= 2 ^ 2045) by (apply Z.pow_le_mono_r; lia).
  change (2 ^ 2098) with (2 ^ 53 * 2 ^ 2045).
  apply Z.le_lt_trans with (m * 2 ^ 2045).
  - apply Z.mul_le_mono_nonneg_l; lia.
  - apply Z.mul_lt_mono_pos_r; [ apply pow2_pos | ]; lia.
Qed.

(** A representable value below [2^52] grid steps of size [G = 2^g] that is
    not a multiple of [G] lies below them all. *)
Lemma representable_grid (z g : Z) :
  0 <= g -> representable z -> (exists j, z = j * 2 ^ g) \/ z < 2 ^ 52 * 2 ^ g.
Proof.
  intros Hg (m & k & Hm & Hk & ->).
  destruct (Z_le_gt_dec g k) as [Hle | Hgt].
  - left. exists (m * 2 ^ (k - g)).
    rewrite <- Z.mul_assoc, <- Z.pow_add_r by lia. do 2 f_equal. lia.
  - right. replace g with ((g - k - 1) + 1 + k) by lia.
    rewrite (Z.pow_add_r 2 (g - k - 1 + 1)), (Z.pow_add_r 2 (g - k - 1) 1), Z.pow_1_r by lia.
    pose proof (pow2_pos k ltac:(lia)). pose proof (pow2_pos (g - k - 1) ltac:(lia)).
    apply Z.lt_le_trans with (2 ^ 53 * 2 ^ k); [ apply Z.mul_lt_mono_pos_r; lia | ].
    rewrite Z.mul_assoc. apply Z.mul_le_mono_nonneg_r; [ lia | ].
    change (2 ^ 53) with (2 ^ 52 * (1 * 2)).
    apply Z.mul_le_mono_nonneg_l; [ lia | ]. apply Z.mul_le_mono_nonneg_r; lia.
Qed.

(** Rounding [N 2^pe] to the grid of step [2^(n + pe)], down or up (up only
    when inexact), stays between representable bounds. *)
Lemma grid_between (N n pe q L U : Z) :
  0 < N -> 0 <= n -> 0 <= pe ->
  (0 < n -> 2 ^ 52 <= N / 2 ^ n) ->
  N / 2 ^ n <= q <= N / 2 ^ n + 1 ->
  (q <> N / 2 ^ n -> N mod 2 ^ n <> 0) ->
  representable L -> representable U ->
  L <= N * 2 ^ pe <= U ->
  L <= q * 2 ^ (n + pe) <= U.
Proof.
  intros HN Hn Hpe Hnorm Hq Hinex HL HU [HLX HXU].
  destruct (Z.eq_dec n 0) as [-> | Hn0].
  { rewrite Z.pow_0_r, Z.div_1_r, Z.mod_1_r in *.
    assert (q = N) as -> by (destruct (Z.eq_dec q N); [ done | exfalso; now apply Hinex ]).
    rewrite Z.add_0_l. lia. }
  specialize (Hnorm ltac:(lia)).
  set (m' := N / 2 ^ n) in *.
  pose proof (pow2_pos n Hn) as Hpn. pose proof (pow2_pos pe Hpe) as Hpp.
  pose proof (pow2_pos (n + pe) ltac:(lia)) as HG.
  pose proof (Z.div_mod N (2 ^ n) ltac:(lia)) as Hdm. fold m' in Hdm.
  pose proof (Z.mod_pos_bound N (2 ^ n) Hpn) as Hrem.
  set (rem := N mod 2 ^ n) in *.
  assert (N * 2 ^ pe = m' * 2 ^ (n + pe) + rem * 2 ^ pe) as HX
    by (rewrite Z.pow_add_r by lia; rewrite Hdm at 1; ring).
  assert (rem * 2 ^ pe < 2 ^ (n + pe)) as Hrem'
    by (rewrite Z.pow_add_r by lia; apply Z.mul_lt_mono_pos_r; lia).
  assert (0 <= rem * 2 ^ pe) as Hrem0 by (apply Z.mul_nonneg_nonneg; lia).
  set (G := 2 ^ (n + pe)) in *.
  split.
  - apply Z.le_trans with (m' * G); [ | apply Z.mul_le_mono_nonneg_r; lia ].
    destruct (representable_grid L (n + pe) ltac:(lia) HL) as [[j ->] | Hsmall].
    + fold G in HLX |- *. apply Z.mul_le_mono_nonneg_r; [ lia | ].
      assert (j * G < (m' + 1) * G) by lia.
      apply Z.mul_lt_mono_pos_r in H; lia.
    + fold G in Hsmall. apply Z.le_trans with (2 ^ 52 * G); [ lia | ].
      apply Z.mul_le_mono_nonneg_r; lia.
  - destruct (Z.eq_dec q m') as [-> | Hne]; [ lia | ].
    assert (q = m' + 1) as -> by lia. specialize (Hinex Hne).
    assert (0 < rem * 2 ^ pe) by (apply Z.mul_pos_pos; lia).
    destruct (representable_grid U (n + pe) ltac:(lia) HU) as [[j ->] | Hsmall].
    + fold G in HXU |- *. apply Z.mul_le_mono_nonneg_r; [ lia | ].
      assert (m' * G < j * G) by lia.
      apply Z.mul_lt_mono_pos_r in H0; lia.
    + fold G in Hsmall. exfalso.
      assert (2 ^ 52 * G <= m' * G) by (apply Z.mul_le_mono_nonneg_r; lia). lia.
Qed.

Lemma shr_fexp_inv (N e : Z) :
  0 < N ->
  let n := fexp prec emax (Zdigits2 N + e) - e in
  0 <= n ->
  exists s, shr_fexp prec emax N e loc_Exact = (s, e + n) /\ shr_inv N n s.
Proof.
  intros HN n Hn. unfold shr_fexp. fold n. cbn [shr_record_of_loc].
  destruct n as [ | p | p ] eqn:E; [ | | lia ]; cbn [shr].
  - eexists; split; [ now rewrite Z.add_0_r | ].
    split; cbn; [ now rewrite Z.div_1_r | done ].
  - eexists; split; [ reflexivity | ].
    apply (iter_shr_inv p N 0); [ lia | lia | ].
    split; cbn; [ now rewrite Z.div_1_r | done ].
Qed.

Lemma round_nearest_even_inv (N n : Z) (s : shr_record) :
  shr_inv N n s ->
  let q := round_nearest_even (shr_m s) (loc_of_shr_record s) in
  N / 2 ^ n <= q <= N / 2 ^ n + 1 /\ (q <> N / 2 ^ n -> N mod 2 ^ n <> 0).
Proof.
  intros [Hm Hrs]. destruct s as [m r st]. cbn [shr_m shr_r shr_s] in *. subst m.
  destruct r, st; cbn [loc_of_shr_record round_nearest_even];
    try destruct (Z.even _); split; try lia; intros; try lia; now apply Hrs.
Qed.

Lemma Zdigits2_pos (q : Z) (d : Z) :
  2 ^ (d - 1) <= q < 2 ^ d -> 0 < q -> Zdigits2 q = d.
Proof.
  intros H Hq. destruct q as [ | p | p ]; try lia. cbn [Zdigits2].
  now apply digits2_unique.
Qed.

(** The second normalisation of [binary_round_aux]: it absorbs the carry of
    the rounding and changes no value. *)
Lemma second_shift (q e1 : Z) :
  0 < q -> -1074 <= e1 ->
  (q < 2 ^ 53 /\ fexp prec emax (Zdigits2 q + e1) = e1) \/ (q = 2 ^ 53 /\ -1074 < e1) ->
  exists (m2 : positive) (e2 : Z) (s2 : shr_record),
    shr_fexp prec emax q e1 loc_Exact = (s2, e2) /\ shr_m s2 = Z.pos m2 /\
    Z.pos m2 * 2 ^ (e2 + 1074) = q * 2 ^ (e1 + 1074) /\
    (-1074 < e2 -> 2 ^ 52 <= Z.pos m2).
Proof.
  intros Hq He1 [[Hlt Hcanon] | [-> Hne]].
  - destruct q as [ | m2 | ]; try lia.
    exists m2, e1, (Build_shr_record (Z.pos m2) false false).
    unfold shr_fexp. rewrite Hcanon, Z.sub_diag. cbn [shr shr_record_of_loc shr_m].
    repeat split; try reflexivity.
    intros Hn. cbn [Zdigits2] in Hcanon. rewrite fexp_eq in Hcanon.
    pose proof (digits2_bounds m2) as Hd.
    replace (Z.pos (digits2_pos m2) - 1) with 52 in Hd by lia. lia.
  - exists (2 ^ 52)%positive, (e1 + 1), (Build_shr_record (2 ^ 52) false false).
    unfold shr_fexp. change (Zdigits2 (2 ^ 53)) with 54. rewrite fexp_eq.
    replace (Z.max (54 + e1 - 53) (-1074) - e1) with 1 by lia.
    repeat split; try reflexivity.
    replace (e1 + 1 + 1074) with (1 + (e1 + 1074)) by lia.
    rewrite Z.pow_add_r, Z.mul_assoc by lia. reflexivity.
Qed.

Lemma round_aux_between (m : positive) (e L U : Z) :
  -1074 <= e ->
  e <= fexp prec emax (Z.pos (digits2_pos m) + e) ->
  representable L -> representable U ->
  L <= Z.pos m * 2 ^ (e + 1074) <= U ->
  L <= ival (binary_round_aux prec emax false (Z.pos m) e loc_Exact) <= U.
Proof.
  intros He Hn HL HU HX.
  pose proof (digits2_bounds m) as Hd.
  set (d := Z.pos (digits2_pos m)) in *.
  set (n := fexp prec emax (d + e) - e).
  assert (0 <= n) as Hn0 by (unfold n; lia).
  destruct (shr_fexp_inv (Z.pos m) e ltac:(lia) Hn0) as (s1 & E1 & Hinv1).
  change (fexp prec emax (Zdigits2 (Z.pos m) + e) - e) with n in E1, Hinv1.
  unfold binary_round_aux. rewrite E1.
  pose proof (round_nearest_even_inv _ _ _ Hinv1) as Hq. cbv zeta in Hq.
  set (q := round_nearest_even (shr_m s1) (loc_of_shr_record s1)) in *.
  destruct Hq as [Hq Hinex].
  assert (0 < n -> 2 ^ 52 <= Z.pos m / 2 ^ n < 2 ^ 53) as Hnorm.
  { intros Hpos. assert (n = d - 53) as Hnd by (unfold n in *; rewrite fexp_eq in *; lia).
    pose proof (pow2_pos n Hn0).
    split.
    - apply Z.div_le_lower_bound; [ lia | ].
      rewrite Z.mul_comm, <- Z.pow_add_r by lia.
      replace (52 + n) with (d - 1) by lia. lia.
    - apply Z.div_lt_upper_bound; [ lia | ].
      rewrite <- Z.pow_add_r by lia.
      replace (n + 53) with d by lia. lia. }
  pose proof (grid_between (Z.pos m) n (e + 1074) q L U ltac:(lia) Hn0 ltac:(lia)
                ltac:(intros; now apply Hnorm) Hq Hinex HL HU HX) as Hbetween.
  assert (0 < q) as Hq0.
  { destruct (Z.eq_dec n 0) as [E0 | E0].
    - rewrite E0, Z.pow_0_r, Z.div_1_r in Hq. lia.
    - specialize (Hnorm ltac:(lia)). lia. }
  destruct (second_shift q (e + n) Hq0 ltac:(lia)) as (m2 & e2 & s2 & E2 & Hm2 & Hval & Hcan).
  { destruct (Z.eq_dec n 0) as [E0 | E0].
    - left. rewrite E0, Z.pow_0_r, Z.div_1_r, Z.mod_1_r in *.
      assert (q = Z.pos m) as -> by (destruct (Z.eq_dec q (Z.pos m)); [ done | exfalso; now apply Hinex ]).
      cbn [Zdigits2]. fold d. rewrite Z.add_0_r.
      split; [ | unfold n in E0; lia ].
      assert (d <= 53) by (unfold n in E0; rewrite fexp_eq in E0; lia).
      assert (2 ^ d <= 2 ^ 53) by (apply Z.pow_le_mono_r; lia). lia.
    - specialize (Hnorm ltac:(lia)).
      destruct (Z.eq_dec q (2 ^ 53)) as [-> | Hne]; [ right; split; [ done | lia ] | left ].
      split; [ lia | ].
      rewrite (Zdigits2_pos q 53) by (change (53 - 1) with 52; lia).
      rewrite fexp_eq. lia. }
  rewrite E2, Hm2. change (emax - prec) with 971.
  replace (e + n + 1074) with (n + (e + 1074)) in Hval by lia.
  destruct (Z.leb_spec e2 971) as [Hle | Hgt]; cbn [ival cond_Zopp].
  - rewrite Hval. exact Hbetween.
  - exfalso. apply representable_lt in HU.
    specialize (Hcan ltac:(lia)).
    assert (2 ^ 2098 <= Z.pos m2 * 2 ^ (e2 + 1074)); [ | lia ].
    change (2 ^ 2098) with (2 ^ 52 * 2 ^ 2046).
    assert (2 ^ 2046 <= 2 ^ (e2 + 1074)) by (apply Z.pow_le_mono_r; lia).
    apply Z.mul_le_mono_nonneg; lia.
Qed.

Lemma iter_xO (m p : positive) : Z.pos (Pos.iter xO m p) = Z.pos m * 2 ^ Z.pos p.
Proof.
  induction p as [ | p IH ] using Pos.peano_ind.
  - cbn [Pos.iter]. rewrite Z.pow_1_r. lia.
  - rewrite Pos.iter_succ, Pos2Z.inj_xO, IH, Pos2Z.inj_succ, Z.pow_succ_r by lia. ring.
Qed.

Lemma shl_align_spec (m : positive) (e e' : Z) :
  let '(mz, ez) := shl_align m e e' in
  ez = Z.min e e' /\ Z.pos mz = Z.pos m * 2 ^ (e - ez).
Proof.
  unfold shl_align. destruct (e' - e) as [ | p | p ] eqn:E.
  - split; [ lia | ]. rewrite Z.sub_diag. cbn. lia.
  - split; [ lia | ]. rewrite Z.sub_diag. cbn. lia.
  - split; [ lia | ]. rewrite iter_xO. do 2 f_equal. lia.
Qed.

Lemma round_between (m : positive) (e L U : Z) :
  -1074 <= e -> representable L -> representable U ->
  L <= Z.pos m * 2 ^ (e + 1074) <= U ->
  L <= ival (binary_round prec emax false m e) <= U.
Proof.
  intros He HL HU HX. unfold binary_round.
  pose proof (shl_align_spec m e (fexp prec emax (Z.pos (digits2_pos m) + e))) as Hs.
  destruct (shl_align _ _ _) as [mz ez]. destruct Hs as [Hez Hmz].
  pose proof (digits2_bounds m) as Hd.
  assert (-1074 <= ez) as Hez0 by (rewrite fexp_eq in Hez; lia).
  assert (Z.pos mz * 2 ^ (ez + 1074) = Z.pos m * 2 ^ (e + 1074)) as Hval.
  { rewrite Hmz, <- Z.mul_assoc, <- Z.pow_add_r by lia. do 2 f_equal. lia. }
  apply round_aux_between; try assumption; [ | now rewrite Hval ].
  assert (Z.pos (digits2_pos mz) = Z.pos (digits2_pos m) + (e - ez)) as ->.
  { apply digits2_unique. rewrite Hmz.
    replace (Z.pos (digits2_pos m) + (e - ez) - 1) with (Z.pos (digits2_pos m) - 1 + (e - ez)) by lia.
    rewrite !Z.pow_add_r by lia. pose proof (pow2_pos (e - ez) ltac:(lia)).
    split; [ apply Z.mul_le_mono_nonneg_r | apply Z.mul_lt_mono_pos_r ]; lia. }
  replace (Z.pos (digits2_pos m) + (e - ez) + ez) with (Z.pos (digits2_pos m) + e) by lia.
  lia.
Qed.

(** The sum of two positive finite data stays between representable bounds
    of the exact sum. *)
Lemma SFadd_between (m1 m2 : positive) (e1 e2 L U : Z) :
  -1074 <= e1 -> -1074 <= e2 -> representable L -> representable U ->
  L <= Z.pos m1 * 2 ^ (e1 + 1074) + Z.pos m2 * 2 ^ (e2 + 1074) <= U ->
  L <= ival (SF64add (S754_finite false m1 e1) (S754_finite false m2 e2)) <= U.
Proof.
  intros He1 He2 HL HU HX. unfold SF64add, SFadd. cbn [cond_Zopp].
  pose proof (shl_align_spec m1 e1 (Z.min e1 e2)) as H1.
  pose proof (shl_align_spec m2 e2 (Z.min e1 e2)) as H2.
  destruct (shl_align m1 _ _) as [a ea], (shl_align m2 _ _) as [b eb].
  destruct H1 as [Hea Ha], H2 as [Heb Hb]. cbn [fst Z.add binary_normalize].
  apply round_between; try assumption; [ lia | ].
  rewrite Pos2Z.inj_add, Ha, Hb, Z.mul_add_distr_r, <- !Z.mul_assoc, <- !Z.pow_add_r by lia.
  replace (e1 - ea + (Z.min e1 e2 + 1074)) with (e1 + 1074) by lia.
  replace (e2 - eb + (Z.min e1 e2 + 1074)) with (e2 + 1074) by lia.
  exact HX.
Qed.

Lemma representable_finite (s : bool) (m : positive) (e k : Z) :
  valid_binary (S754_finite s m e) = true -> 0 <= k -> e + k <= 971 ->
  representable (Z.pos m * 2 ^ (e + k + 1074)).
Proof.
  intros [He [Hm _]]%valid_finite Hk Hek. exists (Z.pos m), (e + k + 1074). lia.
Qed.

(** Halving a normal datum that stays normal lowers its exponent by one. *)
Lemma SFdiv_two (m : positive) (e : Z) :
  valid_binary (S754_finite false m e) = true -> -1072 <= e ->
  ival (SF64div (S754_finite false m e) (Prim2SF 2)) = Z.pos m * 2 ^ (e - 1 + 1074).
Proof.
  intros Hv He. pose proof Hv as [He' [Hm Hn]]%valid_finite.
  specialize (Hn ltac:(lia)).
  assert (Z.pos (digits2_pos m) = 53) as Hd by (apply digits2_unique; change (53 - 1) with 52; lia).
  change (Prim2SF 2) with (S754_finite false (2 ^ 52) (-51)).
  unfold SF64div, SFdiv, SFdiv_core_binary. cbn [Zdigits2 xorb].
  rewrite Hd. change (Z.pos (digits2_pos (2 ^ 52))) with 53. rewrite fexp_eq.
  replace (Z.min (Z.max (53 + e - (53 + -51) - 53) (-1074)) (e - -51)) with (e - 2) by lia.
  replace (e - -51 - (e - 2)) with 53 by lia.
  assert (Z.div_eucl (Z.shiftl (Z.pos m) 53) (Z.pos (2 ^ 52)) = (Z.pos m~0, 0)) as ->.
  { rewrite Z.shiftl_mul_pow2 by lia.
    change (2 ^ 53) with (2 * Z.pos (2 ^ 52)). rewrite Z.mul_assoc.
    pose proof (Z.div_mul (Z.pos m * 2) (Z.pos (2 ^ 52)) ltac:(easy)) as Hq.
    pose proof (Z.mod_mul (Z.pos m * 2) (Z.pos (2 ^ 52)) ltac:(easy)) as Hr.
    unfold Z.div, Z.modulo in Hq, Hr.
    destruct (Z.div_eucl _ _) as [q r]. subst q r. f_equal. lia. }
  change (new_location (Z.pos (2 ^ 52)) 0) with loc_Exact.
  assert (representable (Z.pos m * 2 ^ (e - 1 + 1074))) as Hrep
    by (exists (Z.pos m), (e - 1 + 1074); lia).
  assert (Z.pos m~0 * 2 ^ (e - 2 + 1074) = Z.pos m * 2 ^ (e - 1 + 1074)) as Hval.
  { rewrite Pos2Z.inj_xO. replace (e - 1 + 1074) with (1 + (e - 2 + 1074)) by lia.
    rewrite (Z.pow_add_r 2 1 (e - 2 + 1074)) by lia. ring. }
  pose proof (round_aux_between (m~0) (e - 2) (Z.pos m * 2 ^ (e - 1 + 1074))
                (Z.pos m * 2 ^ (e - 1 + 1074)) ltac:(lia)) as Hb.
  specialize (Hb ltac:(cbn [digits2_pos]; rewrite Pos2Z.inj_succ, Hd, fexp_eq; lia) Hrep Hrep).
  rewrite Hval in Hb. specialize (Hb ltac:(lia)). lia.
Qed.

End Rounding.

(** ** The same facts on primitive floats *)

Section Floats.
Local Open Scope float_scope.

Definition fval (x : float) : Z := ival (Prim2SF x).

Lemma Prim2SF_nan (x : float) : Prim2SF x = S754_nan <-> x = nan.
Proof.
  split; [ | now intros -> ].
  intros H. apply Prim2SF_inj. now rewrite H.
Qed.

Lemma compare_fval (x y : float) :
  x <> nan -> y <> nan ->
  SFcompare (Prim2SF x) (Prim2SF y) = Some (fval x ?= fval y)%Z.
Proof.
  intros Hx Hy. apply SFcompare_ival; try apply Prim2SF_valid; now rewrite Prim2SF_nan.
Qed.

Lemma compare_nan (x y : float) :
  x = nan \/ y = nan -> SFcompare (Prim2SF x) (Prim2SF y) = None.
Proof.
  intros [-> | ->]; [ reflexivity | ].
  change (Prim2SF nan) with S754_nan. now destruct (Prim2SF x).
Qed.

Lemma nan_dec (x : float) : {x = nan} + {x <> nan}.
Proof.
  destruct (Prim2SF x) eqn:E; try (right; intros ->; discriminate E).
  left. now apply Prim2SF_nan.
Qed.

Lemma leb_iff (x y : float) :
  (x <=? y) = true <-> x <> nan /\ y <> nan /\ (fval x <= fval y)%Z.
Proof.
  rewrite FloatAxioms.leb_spec. unfold SFleb.
  destruct (nan_dec x) as [Hx | Hx]; [ rewrite compare_nan by auto; split; [ discriminate | tauto ] | ].
  destruct (nan_dec y) as [Hy | Hy]; [ rewrite compare_nan by auto; split; [ discriminate | tauto ] | ].
  rewrite compare_fval by assumption.
  destruct (Z.compare_spec (fval x) (fval y));
    (split; [ try discriminate; intros _; repeat split; try done; lia
            | try done; intros (_ & _ & ?); lia ]).
Qed.

Lemma ltb_iff (x y : float) :
  (x <? y) = true <-> x <> nan /\ y <> nan /\ (fval x < fval y)%Z.
Proof.
  rewrite FloatAxioms.ltb_spec. unfold SFltb.
  destruct (nan_dec x) as [Hx | Hx]; [ rewrite compare_nan by auto; split; [ discriminate | tauto ] | ].
  destruct (nan_dec y) as [Hy | Hy]; [ rewrite compare_nan by auto; split; [ discriminate | tauto ] | ].
  rewrite compare_fval by assumption.
  destruct (Z.compare_spec (fval x) (fval y));
    (split; [ try discriminate; intros _; repeat split; try done; lia
            | try done; intros (_ & _ & ?); lia ]).
Qed.

Lemma ltb_false_iff (x y : float) :
  (x <? y) = false <-> x = nan \/ y = nan \/ (fval y <= fval x)%Z.
Proof.
  destruct (x <? y) eqn:E.
  - apply ltb_iff in E. split; [ discriminate | ]. intros [ | [ | ] ]; [ tauto | tauto | lia ].
  - split; [ intros _ | done ].
    destruct (nan_dec x); [ tauto | ]. destruct (nan_dec y); [ tauto | ].
    right; right. destruct (Z_le_gt_dec (fval y) (fval x)); [ done | ].
    assert ((x <? y) = true) by (apply ltb_iff; repeat split; try done; lia). congruence.
Qed.

(** A float with a positive finite scaled value is a positive finite datum. *)
Lemma positive_finite (x : float) :
  (0 < fval x < 2 ^ 2100)%Z ->
  exists m e, Prim2SF x = S754_finite false m e /\
              valid_binary (S754_finite false m e) = true.
Proof.
  unfold fval. intros H. pose proof (Prim2SF_valid x) as Hv.
  destruct (Prim2SF x) as [ s | s | | s m e ]; cbn [ival cond_Zopp] in H; try lia.
  - destruct s; cbn in H; lia.
  - pose proof (ival_finite_bounds _ _ _ Hv).
    destruct s; cbn [cond_Zopp] in H; [ lia | eauto ].
Qed.

(** [std::clamp] lets a NaN through and otherwise lands in [lo, hi]. *)
Lemma clamp_range (v lo hi : float) :
  (lo <=? hi) = true ->
  clamp v lo hi = nan \/
  ((lo <=? clamp v lo hi) = true /\ (clamp v lo hi <=? hi) = true).
Proof.
  intros Hlh. pose proof Hlh as (Hlo & Hhi & Hle)%leb_iff. unfold clamp.
  destruct (v <? lo) eqn:E1.
  { right. split; [ | done ]. apply leb_iff. repeat split; try done; lia. }
  destruct (hi <? v) eqn:E2.
  { right. split; [ done | ]. apply leb_iff. repeat split; try done; lia. }
  destruct (nan_dec v) as [ | Hv ]; [ now left | right ].
  apply ltb_false_iff in E1, E2. rewrite !leb_iff.
  repeat split; try done; [ destruct E1 as [ | [ | ] ] | destruct E2 as [ | [ | ] ] ]; done.
Qed.

Lemma leb_trans (x y z : float) :
  (x <=? y) = true -> (y <=? z) = true -> (x <=? z) = true.
Proof. rewrite !leb_iff. intros (? & ? & ?) (? & ? & ?). repeat split; try done; lia. Qed.

(** The midpoint of two floats of [0.001, 5.0] is a float of [0.001, 5.0]. *)
Lemma midpoint_range (a b : float) :
  (0.001 <=? a) = true -> (a <=? 5.0) = true ->
  (0.001 <=? b) = true -> (b <=? 5.0) = true ->
  (0.001 <=? (a + b) / 2.0) = true /\ ((a + b) / 2.0 <=? 5.0) = true.
Proof.
  rewrite !leb_iff. intros (_ & Ha & Ha1) (_ & _ & Ha2) (_ & Hb & Hb1) (_ & _ & Hb2).
  set (c1 := 0.001) in *. set (c2 := 5.0) in *.
  assert (fval c1 = 4611686018427388 * 2 ^ 1012)%Z as Hc1 by (vm_compute; reflexivity).
  assert (fval c2 = 5629499534213120 * 2 ^ 1024)%Z as Hc2 by (vm_compute; reflexivity).
  assert (2 ^ 60 < fval c1 /\ fval c2 < 2 ^ 2098)%Z as [Hc1lo Hc2hi] by (vm_compute; split; reflexivity).
  assert (representable (2 * fval c1)) as HL.
  { exists 4611686018427388%Z, 1013%Z. rewrite Hc1. vm_compute. repeat split; discriminate || reflexivity. }
  assert (representable (2 * fval c2)) as HU.
  { exists 5629499534213120%Z, 1025%Z. rewrite Hc2. vm_compute. repeat split; discriminate || reflexivity. }
  assert (2 * 2 ^ 2098 < 2 ^ 2100 /\ 0 < 2 ^ 60)%Z as [Hbig Hbig'] by (vm_compute; split; reflexivity).
  destruct (positive_finite a ltac:(lia)) as (m1 & e1 & Ea & Va).
  destruct (positive_finite b ltac:(lia)) as (m2 & e2 & Eb & Vb).
  pose proof Va as [He1 _]%valid_finite. pose proof Vb as [He2 _]%valid_finite.
  pose proof (SFadd_between m1 m2 e1 e2 (2 * fval c1) (2 * fval c2)
                ltac:(lia) ltac:(lia) HL HU) as Hsum.
  unfold fval in Ha1, Ha2, Hb1, Hb2. rewrite Ea in Ha1, Ha2. rewrite Eb in Hb1, Hb2.
  cbn [ival cond_Zopp] in Ha1, Ha2, Hb1, Hb2. fold (fval c1) (fval c2) in *.
  specialize (Hsum ltac:(lia)).
  rewrite <- Ea, <- Eb, <- FloatAxioms.add_spec in Hsum. fold (fval (a + b)) in Hsum.
  clear Hc1 Hc2.
  destruct (positive_finite (a + b) ltac:(lia)) as (m & e & Es & Vs).
  pose proof Vs as (He & Hm & _)%valid_finite.
  assert (fval (a + b) = Z.pos m * 2 ^ (e + 1074))%Z as Hs by (unfold fval; now rewrite Es).
  rewrite Hs in Hsum.
  assert (-1072 <= e)%Z as He'.
  { destruct (Z_le_gt_dec (-1072) e) as [ | Hsmall ]; [ done | exfalso ].
    assert (2 ^ (e + 1074) <= 2 ^ 1)%Z by (apply Z.pow_le_mono_r; lia).
    assert (Z.pos m * 2 ^ (e + 1074) <= 2 ^ 53 * 2 ^ 1)%Z
      by (apply Z.mul_le_mono_nonneg; try lia; apply Z.pow_nonneg; lia).
    change (2 ^ 53 * 2 ^ 1)%Z with (2 ^ 54)%Z in *.
    assert (2 ^ 54 < 2 ^ 60)%Z by (vm_compute; reflexivity). lia. }
  pose proof (SFdiv_two m e Vs He') as Hhalf.
  rewrite <- Es, <- FloatAxioms.div_spec in Hhalf. fold (fval ((a + b) / 2)) in Hhalf.
  assert (Z.pos m * 2 ^ (e + 1074) = 2 * fval ((a + b) / 2))%Z as Hdouble.
  { rewrite Hhalf. replace (e + 1074)%Z with (1 + (e - 1 + 1074))%Z by lia.
    rewrite (Z.pow_add_r 2 1) by lia. ring. }
  assert ((a + b) / 2 <> nan) as Hnn.
  { intros E. rewrite E in Hdouble. change (fval nan) with 0%Z in Hdouble. lia. }
  assert (c1 <> nan /\ c2 <> nan) as [? ?] by (split; discriminate).
  repeat split; try done; lia.
Qed.

(** The square root of a number below zero is NaN. *)
Lemma sqrt_negative (x : float) : (x <? 0) = true -> PrimFloat.sqrt x = nan.
Proof.
  intros (_ & _ & Hlt)%ltb_iff. change (fval 0) with 0%Z in Hlt.
  apply Prim2SF_inj. rewrite FloatAxioms.sqrt_spec.
  unfold fval in Hlt.
  destruct (Prim2SF x) as [ s | [ | ] | | [ | ] m e ]; cbn [ival cond_Zopp] in Hlt;
    try reflexivity; try lia.
Qed.

End Floats.

End Binary64.

(** * The implied-volatility solver *)

Module SolverFacts.
Import Binary64.
Section SolverFacts.
Context (M : Libm).
Local Open Scope float_scope.

Lemma norm_cdf_nan : norm_cdf M nan = nan.
Proof. unfold norm_cdf. cbn. now rewrite mul_nan_l. Qed.

(** Once [d1] is NaN the analytic price is NaN, whatever [exp] returns. *)
Lemma price_nan_d1 (p : OptionParams.t) :
  BlackScholes.calc_d1 M p = nan ->
  PricingResult.price (BlackScholes.price M p) = nan.
Proof.
  intros Hd1. unfold BlackScholes.price. cbn [PricingResult.price].
  rewrite Hd1, sub_nan_l, opp_nan, norm_cdf_nan.
  destruct (OptionParams.type p); now rewrite mul_nan_r, sub_nan_l.
Qed.

(** A NaN volatility makes the analytic price NaN, whatever [exp] and [log]
    return. *)
Lemma price_nan_sigma (S K T r q : float) (type : OptionType) (style : ExerciseStyle) :
  PricingResult.price
    (BlackScholes.price M (OptionParams.mk S K T r nan q type style)) = nan.
Proof.
  apply price_nan_d1. unfold BlackScholes.calc_d1.
  cbn [OptionParams.S OptionParams.K OptionParams.T OptionParams.r OptionParams.sigma
       OptionParams.q].
  now rewrite (mul_nan_l (PrimFloat.sqrt T)), div_nan_r.
Qed.

(** So does a negative time to expiry, through [sqrt]. *)
Lemma price_nan_negative_T (p : OptionParams.t) :
  (OptionParams.T p <? 0) = true ->
  PricingResult.price (BlackScholes.price M p) = nan.
Proof.
  intros HT. apply price_nan_d1. unfold BlackScholes.calc_d1.
  now rewrite (sqrt_negative _ HT), mul_nan_r, div_nan_r.
Qed.

Section Solver.
Context (market_price S K T r q : float) (type : OptionType) (tol : float).

Local Abbreviation model_price_at := (ImpliedVolSolver.model_price_at M S K T r q type).
Local Abbreviation newton := (ImpliedVolSolver.newton M market_price S K T r q type tol).
Local Abbreviation bisect := (ImpliedVolSolver.bisect M market_price S K T r q type tol).

(** The convergence test never passes on a NaN iterate. *)
Lemma converged_not_nan (sigma : float) :
  (abs (model_price_at sigma - market_price) <? tol) = true -> sigma <> nan.
Proof.
  intros H ->. unfold ImpliedVolSolver.model_price_at in H.
  now rewrite price_nan_sigma, sub_nan_l, abs_nan, ltb_nan_l in H.
Qed.

Definition in_range (lo hi x : float) : Prop :=
  (lo <=? x) = true /\ (x <=? hi) = true.

Lemma in_range_widen (lo hi lo' hi' x : float) :
  (lo' <=? lo) = true -> (hi <=? hi') = true ->
  in_range lo hi x -> in_range lo' hi' x.
Proof. intros Hlo Hhi [H1 H2]. split; eauto using leb_trans. Qed.

Lemma in_range_not_nan (lo hi x : float) : in_range lo hi x -> x <> nan.
Proof. intros [H _]. now apply leb_iff in H. Qed.

(** Newton-Raphson: at most [budget] iterations, and an iterate it returns
    lies in [0.001, 10.0]. *)
Lemma newton_spec (budget : nat) :
  forall sigma : float,
    sigma = nan \/ in_range 0.001 10.0 sigma ->
    (snd (newton budget sigma) <= budget)%nat /\
    match fst (newton budget sigma) with
    | ImpliedVolSolver.Converged s => in_range 0.001 10.0 s
    | _ => True
    end.
Proof.
  induction budget as [ | budget IH ]; intros sigma Hs; cbn [ImpliedVolSolver.newton].
  - cbn. split; [ lia | exact I ].
  - destruct (abs (model_price_at sigma - market_price) <? tol) eqn:Hconv.
    + cbn. split; [ lia | ].
      destruct Hs as [ -> | Hs ]; [ | exact Hs ].
      now apply converged_not_nan in Hconv.
    + destruct (abs (ImpliedVolSolver.vega_at M S K T r q type sigma) <? 1e-12).
      * cbn. split; [ lia | exact I ].
      * match goal with |- context [newton budget ?x] => specialize (IH x) end.
        destruct (newton budget _) as [e n]. cbn [fst snd] in *.
        destruct IH as [Hn He]; [ | split; [ lia | exact He ] ].
        destruct (clamp_range (sigma - (model_price_at sigma - market_price)
                                 / ImpliedVolSolver.vega_at M S K T r q type sigma)
                              0.001 10.0 eq_refl) as [ -> | H ]; [ now left | now right ].
Qed.

(** Bisection: at most [budget] iterations, and the bracket and its midpoint
    never leave [0.001, 5.0]. *)
Lemma bisect_spec (budget : nat) :
  forall lo hi : float,
    in_range 0.001 5.0 lo -> in_range 0.001 5.0 hi ->
    (snd (bisect budget lo hi) <= budget)%nat /\
    in_range 0.001 5.0 (fst (bisect budget lo hi)).
Proof.
  induction budget as [ | budget IH ]; intros lo hi [Hl1 Hl2] [Hh1 Hh2];
    pose proof (midpoint_range lo hi Hl1 Hl2 Hh1 Hh2) as Hmid;
    cbn [ImpliedVolSolver.bisect].
  - cbn. split; [ lia | exact Hmid ].
  - destruct (abs (model_price_at ((lo + hi) / 2) - market_price) <? tol).
    + cbn. split; [ lia | exact Hmid ].
    + destruct (market_price <? model_price_at ((lo + hi) / 2)).
      * specialize (IH lo ((lo + hi) / 2) (conj Hl1 Hl2) Hmid).
        destruct (bisect budget lo _) as [x n]. cbn [fst snd] in *. split; [ lia | tauto ].
      * specialize (IH ((lo + hi) / 2) hi Hmid (conj Hh1 Hh2)).
        destruct (bisect budget _ hi) as [x n]. cbn [fst snd] in *. split; [ lia | tauto ].
Qed.

(** [bisection_solve] is the loop run for 200 iterations on [0.001, 5.0]. *)
Lemma bisection_solve_unfold :
  ImpliedVolSolver.bisection_solve M market_price S K T r q type tol
  = fst (bisect 200 0.001 5.0).
Proof. exact (eq_refl (fst (bisect 200 0.001 5.0))). Qed.

(** The fallback as [solve] calls it. *)
Lemma bisection_trace_spec :
  (snd (ImpliedVolSolver.bisection_trace M market_price S K T r q type tol) <= 200)%nat /\
  in_range 0.001 5.0
    (fst (ImpliedVolSolver.bisection_trace M market_price S K T r q type tol)).
Proof.
  unfold ImpliedVolSolver.bisection_trace.
  apply bisect_spec; split; reflexivity.
Qed.

End Solver.
End SolverFacts.
End SolverFacts.

(** * Vectors written slot by slot *)

Module Vectors.
Section Vectors.
Context {A : Type}.
Implicit Types (out : list A) (sched : list nat).

(** Writing [v] to slot [j] when [g j = Some v], for each [j] of a schedule. *)
Definition write_slots (g : nat -> option A) (sched : list nat) (out : list A) : list A :=
  fold_left (fun o j => match g j with Some v => <[j := v]> o | None => o end) sched out.

Lemma length_write_slots g sched : forall out, length (write_slots g sched out) = length out.
Proof.
  induction sched as [ | j sched IH ]; intros out; [ done | ].
  unfold write_slots in *. cbn [fold_left]. rewrite IH.
  destruct (g j); [ apply length_insert | done ].
Qed.

(** A slot holds the value written to it if it was scheduled, and is left
    as it was otherwise: the order of the schedule does not matter. *)
Lemma lookup_write_slots g sched : forall out i,
  write_slots g sched out !! i =
    if decide (i ∈ sched) then
      match g i with
      | Some v => if decide (i < length out) then Some v else None
      | None => out !! i
      end
    else out !! i.
Proof.
  induction sched as [ | j sched IH ]; intros out i.
  { destruct (decide (i ∈ [])) as [ H | ]; [ | done ]. by apply elem_of_nil in H. }
  unfold write_slots in *. cbn [fold_left]. rewrite IH.
  assert (length (match g j with Some v => <[j:=v]> out | None => out end) = length out) as ->
    by (destruct (g j); [ apply length_insert | done ]).
  destruct (decide (i ∈ sched)) as [ Hin | Hnin ].
  { rewrite decide_True by (apply elem_of_cons; auto).
    destruct (g i) eqn:Ei; [ done | ].
    destruct (g j) eqn:Ej; [ | done ].
    apply list_lookup_insert_ne. intros ->. congruence. }
  destruct (decide (i = j)) as [ -> | Hne ].
  - rewrite decide_True by (apply elem_of_cons; auto).
    destruct (g j) as [ v | ]; [ | done ].
    destruct (decide (j < length out)) as [ Hlt | Hge ].
    + by apply list_lookup_insert_eq.
    + apply lookup_ge_None. rewrite length_insert. lia.
  - rewrite decide_False by (rewrite elem_of_cons; tauto).
    destruct (g j); [ | done ]. by apply list_lookup_insert_ne.
Qed.

End Vectors.

(** [fill] on a vector of size [n] tabulates [f]. *)
Lemma fill_tabulate {A} (f : nat -> A) (n : nat) (out : list A) :
  length out = n -> fill out f n = map f (seq 0 n).
Proof.
  intros Hlen. apply list_eq. intros i.
  change (fill out f n) with (write_slots (fun j => Some (f j)) (seq 0 n) out).
  rewrite lookup_write_slots, Hlen.
  change (map f (seq 0 n)) with (f <$> seq 0 n). rewrite list_lookup_fmap.
  destruct (decide (i < n)) as [ Hlt | Hge ].
  - rewrite decide_True by (apply elem_of_seq; lia).
    by rewrite lookup_seq_lt.
  - rewrite decide_False by (rewrite elem_of_seq; lia).
    rewrite lookup_seq_ge by lia. apply lookup_ge_None. lia.
Qed.

(** Reading [z[i]] for every index of [z] is reading [z]. *)
Lemma map_nth_seq {A B} (f : A -> B) (z : list A) (d : A) :
  map (fun i => f (nth i z d)) (seq 0 (length z)) = map f z.
Proof.
  apply list_eq. intros i.
  change (map ?g ?l) with (g <$> l). rewrite !list_lookup_fmap.
  destruct (decide (i < length z)) as [ Hlt | Hge ].
  - rewrite lookup_seq_lt by done. cbn.
    destruct (lookup_lt_is_Some_2 z i Hlt) as [x Hx].
    by rewrite Hx, (nth_lookup_Some _ _ _ _ Hx).
  - rewrite lookup_seq_ge by lia. cbn. symmetry.
    rewrite (proj2 (lookup_ge_None z i)) by lia. done.
Qed.

End Vectors.

(** * The surface calibrator *)

Module CalibratorFacts.
Import Vectors.
Section CalibratorFacts.
Context (M : Libm) (spot rate div_yield : float).

Local Abbreviation calibrate_quote := (VolSurface.calibrate_quote M spot rate div_yield).

(** The parallel loop is a slot-by-slot write of [calibrate_quote]. *)
Lemma calibrate_loop (quotes : list MarketQuote.t) (schedule : list nat) :
  forall surface,
    fold_left (VolSurface.calibrate_slot M spot rate div_yield quotes) schedule surface
    = write_slots (fun i => calibrate_quote <$> quotes !! i) schedule surface.
Proof.
  unfold write_slots.
  induction schedule as [ | i schedule IH ]; intros surface; cbn [fold_left]; [ done | ].
  rewrite IH. unfold VolSurface.calibrate_slot. by destruct (quotes !! i).
Qed.

(** Whatever the order in which the iterations run, as long as each index is
    run, slot [i] of the surface holds the point of quote [i]. *)
Lemma calibrate_loop_result (quotes : list MarketQuote.t) (schedule : list nat) :
  schedule ≡ₚ seq 0 (length quotes) ->
  fold_left (VolSurface.calibrate_slot M spot rate div_yield quotes) schedule
    (replicate (length quotes) VolSurfacePoint.zero)
  = map calibrate_quote quotes.
Proof.
  intros Hperm. rewrite calibrate_loop. apply list_eq. intros i.
  rewrite lookup_write_slots, length_replicate.
  change (map ?g ?l) with (g <$> l). rewrite list_lookup_fmap.
  destruct (decide (i < length quotes)) as [ Hlt | Hge ].
  - rewrite decide_True by (rewrite Hperm; apply elem_of_seq; lia).
    destruct (lookup_lt_is_Some_2 quotes i Hlt) as [q ->]. done.
  - rewrite decide_False by (rewrite Hperm, elem_of_seq; lia).
    rewrite (proj2 (lookup_ge_None quotes i)) by lia.
    apply lookup_replicate_None. lia.
Qed.

Lemma calibrate_in_surface (quotes : list MarketQuote.t) (schedule : list nat) :
  schedule ≡ₚ seq 0 (length quotes) ->
  VolSurface.calibrate_in M spot rate div_yield schedule quotes
  = VolSurface.calibrate M spot rate div_yield quotes /\
  CalibrationResult.surface (VolSurface.calibrate_in M spot rate div_yield schedule quotes)
  = map calibrate_quote quotes.
Proof.
  intros Hperm. unfold VolSurface.calibrate, VolSurface.calibrate_in.
  rewrite (calibrate_loop_result quotes schedule Hperm).
  rewrite (calibrate_loop_result quotes (seq 0 (length quotes))) by done.
  split; [ done | ]. by destruct (VolSurface.aggregate _).
Qed.

End CalibratorFacts.
End CalibratorFacts.

(** * The random sequences *)

Module RandomFacts.
Section RandomFacts.
Context (R : Rng).
Local Open Scope float_scope.

Lemma antithetic_pairs_succ (k : nat) (samples : list float) (g : gen R) :
  RandomGenerator.antithetic_pairs R (Datatypes.S k) samples g =
  let '(samples', g') := RandomGenerator.antithetic_pairs R k samples g in
  let '(z, g'') := normal R g' in
  (<[(2 * k + 1)%nat := - z]> (<[(2 * k)%nat := z]> samples'), g'').
Proof.
  unfold RandomGenerator.antithetic_pairs.
  rewrite seq_S, fold_left_app. cbn [fold_left].
  destruct (fold_left _ (seq 0 k) (samples, g)) as [samples' g']. done.
Qed.

(** After [half] iterations the first [half] pairs are in place. *)
Lemma antithetic_pairs_spec (half : nat) (samples : list float) (g : gen R) :
  2 * half <= length samples ->
  length (fst (RandomGenerator.antithetic_pairs R half samples g)) = length samples /\
  forall i, i < half ->
    exists z,
      fst (RandomGenerator.antithetic_pairs R half samples g) !! (2 * i)%nat = Some z /\
      fst (RandomGenerator.antithetic_pairs R half samples g) !! (2 * i + 1)%nat = Some (- z).
Proof.
  induction half as [ | k IH ]; intros Hlen.
  { split; [ done | ]. intros i Hi. lia. }
  rewrite antithetic_pairs_succ.
  destruct IH as [IHlen IHpairs]; [ lia | ].
  destruct (RandomGenerator.antithetic_pairs R k samples g) as [samples' g'].
  destruct (normal R g') as [z g'']. cbn [fst] in *.
  split; [ by rewrite !length_insert | ].
  intros i Hi. destruct (decide (i = k)) as [ -> | Hne ].
  - exists z. split.
    + rewrite list_lookup_insert_ne by lia.
      apply list_lookup_insert_eq. lia.
    + apply list_lookup_insert_eq. rewrite length_insert. lia.
  - destruct (IHpairs i ltac:(lia)) as (z' & H0 & H1). exists z'.
    rewrite !list_lookup_insert_ne by lia. done.
Qed.

End RandomFacts.
End RandomFacts.

Module StreamFacts.
Section StreamFacts.
Context (R : Rng).
Local Open Scope float_scope.

(** The generator after [k] draws of the normal distribution, and the draw
    number [k] (from 0) of a stream. *)
Definition advance (k : nat) (g : gen R) : gen R := Nat.iter k (fun g => snd (normal R g)) g.
Definition nth_draw (k : nat) (g : gen R) : float := fst (normal R (advance k g)).

(** The loop of [generate_normals] after [k] iterations. *)
Lemma normals_loop (n k : nat) (g : gen R) :
  k <= n ->
  let st := fold_left
              (fun '(samples, g) i => let '(z, g) := normal R g in (<[i := z]> samples, g))
              (seq 0 k) (replicate n 0.0, g) in
  snd st = advance k g /\ length (fst st) = n /\
  forall i, i < k -> fst st !! i = Some (nth_draw i g).
Proof.
  induction k as [ | k IH ]; intros Hk; cbv zeta.
  - cbn. split; [ done | ]. split; [ apply length_replicate | intros; lia ].
  - rewrite seq_S, fold_left_app. cbn [fold_left Nat.add].
    destruct (IH ltac:(lia)) as (Hg & Hlen & Hdraws).
    destruct (fold_left _ (seq 0 k) _) as [samples g']. cbn [fst snd] in *. subst g'.
    unfold nth_draw in *.
    assert (advance (Datatypes.S k) g = snd (normal R (advance k g))) as -> by reflexivity.
    destruct (normal R (advance k g)) as [z g''] eqn:E. cbn [fst snd].
    split; [ done | ]. split; [ by rewrite length_insert | ].
    intros i Hi. destruct (decide (i = k)) as [ -> | Hne ].
    + rewrite E. apply list_lookup_insert_eq. lia.
    + rewrite list_lookup_insert_ne by done. apply Hdraws. lia.
Qed.

Lemma lookup_generate_normals (n : nat) (seed : Z) (i : nat) :
  i < n ->
  RandomGenerator.generate_normals R n seed !! i = Some (nth_draw i (seeded R seed)).
Proof.
  intros Hi. unfold RandomGenerator.generate_normals.
  destruct (normals_loop n n (seeded R seed) ltac:(lia)) as (_ & _ & H). by apply H.
Qed.

(** The loop of [generate_antithetic] after [half] iterations. *)
Lemma antithetic_loop (half : nat) (samples : list float) (g : gen R) :
  2 * half <= length samples ->
  snd (RandomGenerator.antithetic_pairs R half samples g) = advance half g /\
  length (fst (RandomGenerator.antithetic_pairs R half samples g)) = length samples /\
  forall i, i < half ->
    fst (RandomGenerator.antithetic_pairs R half samples g) !! (2 * i)%nat
    = Some (nth_draw i g).
Proof.
  induction half as [ | k IH ]; intros Hlen.
  { split; [ done | ]. split; [ done | intros; lia ]. }
  rewrite RandomFacts.antithetic_pairs_succ.
  destruct IH as (Hg & IHlen & IHdraws); [ lia | ].
  destruct (RandomGenerator.antithetic_pairs R k samples g) as [samples' g'].
  cbn [fst snd] in *. subst g'.
  unfold nth_draw in *.
  assert (advance (Datatypes.S k) g = snd (normal R (advance k g))) as -> by reflexivity.
  destruct (normal R (advance k g)) as [z g''] eqn:E. cbn [fst snd].
  split; [ done | ]. split; [ by rewrite !length_insert | ].
  intros i Hi. destruct (decide (i = k)) as [ -> | Hne ].
  - rewrite E, list_lookup_insert_ne by lia. apply list_lookup_insert_eq. lia.
  - rewrite !list_lookup_insert_ne by lia. apply IHdraws. lia.
Qed.

(** The pairs of [generate_antithetic] after [half] iterations: pair [i] is
    draw number [i] and its negation. *)
Lemma antithetic_loop_pairs (half : nat) (samples : list float) (g : gen R) :
  2 * half <= length samples ->
  forall i, i < half ->
    fst (RandomGenerator.antithetic_pairs R half samples g) !! (2 * i)%nat
    = Some (nth_draw i g) /\
    fst (RandomGenerator.antithetic_pairs R half samples g) !! (2 * i + 1)%nat
    = Some (- nth_draw i g).
Proof.
  induction half as [ | k IH ]; intros Hlen i Hi; [ lia | ].
  destruct (antithetic_loop k samples g ltac:(lia)) as (Hg & Hk & _).
  rewrite RandomFacts.antithetic_pairs_succ.
  specialize (IH ltac:(lia)).
  destruct (RandomGenerator.antithetic_pairs R k samples g) as [samples' g'].
  cbn [fst snd] in *. subst g'. unfold nth_draw in *.
  destruct (normal R (advance k g)) as [z g''] eqn:E. cbn [fst snd].
  destruct (decide (i = k)) as [ -> | Hne ].
  - rewrite E. cbn [fst]. split.
    + rewrite list_lookup_insert_ne by lia. apply list_lookup_insert_eq. lia.
    + apply list_lookup_insert_eq. rewrite length_insert. lia.
  - rewrite !list_lookup_insert_ne by lia. apply IH. lia.
Qed.

End StreamFacts.
End StreamFacts.

(** * Bisection, as a sequence of brackets *)

Module Bisection.
Section Bisection.
Context (M : Libm).
Context (market_price S K T r q : float) (type : OptionType) (tol : float).
Local Open Scope float_scope.

Local Abbreviation model_price_at := (ImpliedVolSolver.model_price_at M S K T r q type).
Local Abbreviation bisect := (ImpliedVolSolver.bisect M market_price S K T r q type tol).

Definition midpoint (b : float * float) : float := (fst b + snd b) / 2.0.

(** One halving: keep the half whose ends still straddle the market price. *)
Definition halve (b : float * float) : float * float :=
  if market_price <? model_price_at (midpoint b)
  then (fst b, midpoint b) else (midpoint b, snd b).

(** The bracket after [k] halvings of the original bracket [0.001, 5.0]. *)
Definition bracket (k : nat) : float * float := Nat.iter k halve (0.001, 5.0).

(** The model price at the midpoint is within [tol] of the market price. *)
Definition close_enough (b : float * float) : bool :=
  abs (model_price_at (midpoint b) - market_price) <? tol.

(** Bisection as the claim words it: a fixed number of halvings, then the
    midpoint of the final bracket. *)
Definition bisect_fixed (count : nat) : float := midpoint (bracket count).

Lemma bisect_stops (budget : nat) :
  forall lo hi : float,
    exists k : nat,
      (k <= budget)%nat /\
      fst (bisect budget lo hi) = midpoint (Nat.iter k halve (lo, hi)) /\
      (forall j, (j < k)%nat -> close_enough (Nat.iter j halve (lo, hi)) = false) /\
      (k = budget \/ close_enough (Nat.iter k halve (lo, hi)) = true).
Proof.
  induction budget as [ | budget IH ]; intros lo hi; cbn [ImpliedVolSolver.bisect].
  { exists O. split; [ lia | ]. split; [ reflexivity | ].
    split; [ intros j Hj; lia | now left ]. }
  destruct (abs (model_price_at ((lo + hi) / 2) - market_price) <? tol) eqn:Hclose.
  { exists O. split; [ lia | ]. split; [ reflexivity | ].
    split; [ intros j Hj; lia | now right ]. }
  assert (forall x : float * nat, fst (let '(y, n) := x in (y, Datatypes.S n)) = fst x) as Hfst
    by (now intros [y n]).
  rewrite Hfst.
  assert ((if market_price <? model_price_at ((lo + hi) / 2)
           then bisect budget lo ((lo + hi) / 2) else bisect budget ((lo + hi) / 2) hi)
          = bisect budget (fst (halve (lo, hi))) (snd (halve (lo, hi)))) as ->.
  { unfold halve, midpoint. cbn [fst snd].
    now destruct (market_price <? model_price_at ((lo + hi) / 2)). }
  destruct (IH (fst (halve (lo, hi))) (snd (halve (lo, hi)))) as (k & Hk & Hres & Hfar & Hend).
  rewrite <- surjective_pairing in Hres, Hfar, Hend.
  exists (Datatypes.S k). rewrite Nat.iter_succ_r.
  split; [ lia | ]. split; [ exact Hres | ]. split.
  - intros [ | j ] Hj; [ exact Hclose | ]. rewrite Nat.iter_succ_r. apply Hfar. lia.
  - destruct Hend as [ -> | Hend ]; [ now left | now right ].
Qed.

End Bisection.
End Bisection.

(** * The Monte Carlo estimator *)

(** Sample statistics, as the specification words them. *)
Module SampleStats.
Local Open Scope float_scope.

(** The sample mean: the sum over the count. *)
Definition sample_mean (xs : list float) : float :=
  accumulate xs 0.0 / of_int (Z.of_nat (length xs)).

(** The sample variance, with the [N - 1] divisor. *)
Definition sample_variance (xs : list float) : float :=
  MonteCarloEngine.sum_sq_dev xs (sample_mean xs) / of_int (Z.of_nat (length xs) - 1).

End SampleStats.

Module MonteCarloFacts.
Import Vectors.
Section MonteCarloFacts.
Context (M : Libm) (R : Rng).
Local Open Scope float_scope.

(** A loop whose body keeps the size of the vector keeps it. *)
Lemma length_loop (f : list float * gen R -> nat -> list float * gen R) :
  (forall st i, length (fst (f st i)) = length (fst st)) ->
  forall (l : list nat) (st : list float * gen R),
    length (fst (fold_left f l st)) = length (fst st).
Proof.
  intros Hf l. induction l as [ | i l IH ]; intros st; cbn [fold_left]; [ done | ].
  by rewrite IH, Hf.
Qed.

Lemma length_generate_normals (n : nat) (seed : Z) :
  length (RandomGenerator.generate_normals R n seed) = n.
Proof.
  unfold RandomGenerator.generate_normals. rewrite length_loop.
  - apply length_replicate.
  - intros [samples g] i. destruct (normal R g). apply length_insert.
Qed.

Lemma length_generate_stratified (n : nat) (seed : Z) :
  length (RandomGenerator.generate_stratified M R n seed) = n.
Proof.
  unfold RandomGenerator.generate_stratified. rewrite length_loop.
  - apply length_replicate.
  - intros [samples g] i. destruct (uniform R g). apply length_insert.
Qed.

Lemma length_generate_antithetic (n : nat) (seed : Z) :
  length (RandomGenerator.generate_antithetic R n seed) = n.
Proof.
  unfold RandomGenerator.generate_antithetic.
  pose proof (Nat.div_mod_eq n 2) as Hn.
  destruct (RandomFacts.antithetic_pairs_spec R (n / 2) (replicate n 0.0) (seeded R seed))
    as [Hlen _]; [ rewrite length_replicate; lia | ].
  destruct (RandomGenerator.antithetic_pairs R (n / 2) _ _) as [samples g].
  cbn [fst] in Hlen. rewrite length_replicate in Hlen.
  destruct (negb _); [ by rewrite length_insert | done ].
Qed.

Lemma length_draws (vr : VarianceReduction) (n : nat) (seed : Z) :
  length (MonteCarloEngine.draws M R vr n seed) = n.
Proof.
  destruct vr; cbn [MonteCarloEngine.draws];
    auto using length_generate_normals, length_generate_antithetic, length_generate_stratified.
Qed.
Import OptionParams.

(** The payoff of the path drawn as [z]. *)
Definition payoff (p : OptionParams.t) (z : float) : float :=
  intrinsic_value (MonteCarloEngine.terminal M p z) (K p) (type p).

(** The parallel loop computes the payoff of every draw, in order. *)
Lemma simulate_map (p : OptionParams.t) (z : list float) (num_paths : nat) :
  length z = num_paths ->
  MonteCarloEngine.simulate M p z num_paths = map (payoff p) z.
Proof.
  intros <-. unfold MonteCarloEngine.simulate.
  rewrite fill_tabulate by apply length_replicate.
  apply (map_nth_seq (payoff p)).
Qed.

Lemma map_nth2_seq {A} (f g : A -> float) (h : float -> float -> float) (z : list A) :
  map (fun i => h (nth i (map f z) 0.0) (nth i (map g z) 0.0)) (seq 0 (length z))
  = map (fun a => h (f a) (g a)) z.
Proof.
  apply list_eq. intros i.
  change (map ?k ?l) with (k <$> l). rewrite !list_lookup_fmap.
  destruct (decide (i < length z)) as [ Hlt | Hge ].
  - rewrite lookup_seq_lt by done. cbn.
    destruct (lookup_lt_is_Some_2 z i Hlt) as [a Ha]. rewrite Ha. cbn.
    assert (map f z !! i = Some (f a)) as Hf
      by (change (map f z) with (f <$> z); by rewrite list_lookup_fmap, Ha).
    assert (map g z !! i = Some (g a)) as Hg
      by (change (map g z) with (g <$> z); by rewrite list_lookup_fmap, Ha).
    by rewrite (nth_lookup_Some _ _ 0.0 _ Hf), (nth_lookup_Some _ _ 0.0 _ Hg).
  - rewrite lookup_seq_ge by lia. cbn.
    by rewrite (proj2 (lookup_ge_None z i)) by lia.
Qed.

(** The regression coefficient of the control variate branch, from the
    draws. *)
Definition beta (p : OptionParams.t) (z : list float) : float :=
  MonteCarloEngine.control_variate_beta
    (map (MonteCarloEngine.terminal M p) z) (map (payoff p) z) (length z).

(** The adjusted payoffs of the control variate branch, draw by draw. *)
Definition adjusted (p : OptionParams.t) (z : list float) : list float :=
  let fwd := S p * exp M ((r p - q p) * T p) in
  map (fun zi => payoff p zi - beta p z * (MonteCarloEngine.terminal M p zi - fwd)) z.

Lemma length_adjusted (p : OptionParams.t) (z : list float) :
  length (adjusted p z) = length z.
Proof. unfold adjusted. apply length_map. Qed.

Lemma adjusted_payoffs_map (p : OptionParams.t) (z : list float) (num_paths : nat) :
  length z = num_paths ->
  MonteCarloEngine.adjusted_payoffs M p z (map (payoff p) z) num_paths = adjusted p z.
Proof.
  intros <-. unfold MonteCarloEngine.adjusted_payoffs, adjusted, beta.
  rewrite !fill_tabulate by apply length_replicate.
  rewrite (map_nth_seq (MonteCarloEngine.terminal M p)).
  set (b := MonteCarloEngine.control_variate_beta _ _ _).
  set (fwd := S p * exp M ((r p - q p) * T p)).
  apply (map_nth2_seq (payoff p) (MonteCarloEngine.terminal M p)
                      (fun x t => x - b * (t - fwd))).
Qed.

End MonteCarloFacts.
End MonteCarloFacts.

(** * The binomial lattice

    The in-place sweeps of [BinomialTree::price] compute the recursion on
    the nodes. *)

Module LatticeInduction.
Section LatticeInduction.
Context (M : Libm) (p : OptionParams.t) (steps : nat).
Local Open Scope float_scope.

Local Abbreviation u := (Lattice.u M p steps).
Local Abbreviation d := (Lattice.d M p steps).
Local Abbreviation df := (Lattice.df M p steps).
Local Abbreviation prob := (Lattice.prob M p steps).
Local Abbreviation node := (Lattice.node M p steps).

(** The body of the inner loop writes one node. *)
Lemma sweep_writes (step : nat) (prices : list float) :
  BinomialTree.sweep M p u d df prob prices step
  = fold_left (fun prices i =>
                 <[i := node step i (nth i prices 0) (nth (i + 1)%nat prices 0)]> prices)
              (seq 0 (step + 1)%nat) prices.
Proof.
  unfold BinomialTree.sweep. generalize (seq 0 (step + 1)%nat). intros l.
  revert prices. induction l as [ | i l IH ]; intros prices; cbn [fold_left]; [ done | ].
  rewrite <- IH. f_equal.
  unfold Lattice.node, Lattice.exercise. now destruct (OptionParams.style p).
Qed.

(** After [k] iterations of the inner loop the first [k] slots hold the new
    level and the others still hold the old one. *)
Lemma sweep_prefix (step : nat) (prices : list float) (k : nat) :
  k < length prices ->
  let l := fold_left (fun prices i =>
                        <[i := node step i (nth i prices 0) (nth (i + 1)%nat prices 0)]> prices)
                     (seq 0 k) prices in
  length l = length prices /\
  forall j, nth j l 0 = if decide (j < k)
                        then node step j (nth j prices 0) (nth (j + 1)%nat prices 0)
                        else nth j prices 0.
Proof.
  induction k as [ | k IH ]; intros Hk; cbv zeta.
  - cbn [seq fold_left]. split; [ done | ]. intros j. rewrite decide_False by lia. done.
  - rewrite seq_S, fold_left_app. cbn [fold_left Nat.add].
    destruct (IH ltac:(lia)) as [Hlen Hnth].
    set (l := fold_left _ (seq 0 k) prices) in *.
    split; [ by rewrite length_insert | ].
    intros j. rewrite (nth_lookup (<[k := _]> l)).
    destruct (decide (j = k)) as [ -> | Hne ].
    + rewrite list_lookup_insert_eq by lia. cbn [default].
      rewrite decide_True by lia. rewrite !Hnth.
      rewrite !decide_False by lia. done.
    + rewrite list_lookup_insert_ne by done. rewrite <- nth_lookup, Hnth.
      destruct (decide (j < k)), (decide (j < Datatypes.S k)); try lia; done.
Qed.

Lemma sweep_level (step : nat) (prices : list float) :
  (step + 1 < length prices)%nat ->
  let l := BinomialTree.sweep M p u d df prob prices step in
  length l = length prices /\
  forall j, j <= step -> nth j l 0 = node step j (nth j prices 0) (nth (j + 1)%nat prices 0).
Proof.
  intros Hlen. cbv zeta. rewrite sweep_writes.
  destruct (sweep_prefix step prices (step + 1)%nat Hlen) as [Hl Hnth].
  split; [ exact Hl | ]. intros j Hj. rewrite Hnth, decide_True by lia. done.
Qed.

(** The outer loop from level [n - 1] down to level 0, started on the values
    of level [n]. *)
Lemma sweeps_root (n : nat) :
  n <= steps ->
  forall prices,
    length prices = (steps + 1)%nat ->
    (forall i, i <= n -> nth i prices 0 = Lattice.value M p steps (steps - n)%nat n i) ->
    nth 0 (fold_left (BinomialTree.sweep M p u d df prob) (rev (seq 0 n)) prices) 0
    = Lattice.root M p steps.
Proof.
  induction n as [ | n IH ]; intros Hn prices Hlen Hlevel.
  - cbn [seq rev fold_left]. rewrite (Hlevel 0%nat) by lia.
    unfold Lattice.root. now rewrite Nat.sub_0_r.
  - rewrite seq_S, rev_app_distr. cbn [rev app fold_left Nat.add].
    destruct (sweep_level n prices ltac:(lia)) as [Hl Hnth].
    apply IH; [ lia | lia | ].
    intros i Hi. rewrite Hnth by lia. rewrite !Hlevel by lia.
    replace (steps - n)%nat with (Datatypes.S (steps - Datatypes.S n)) by lia.
    cbn [Lattice.value]. now rewrite Nat.add_1_r.
Qed.

(** [price] returns the root of the recursion. *)
Lemma price_root :
  BinomialTree.price M p steps = PricingResult.mk (Lattice.root M p steps) 0 0.
Proof.
  unfold BinomialTree.price. f_equal.
  change (exp M (OptionParams.sigma p * PrimFloat.sqrt
                   (OptionParams.T p / of_int (Z.of_nat steps)))) with u.
  change (1 / u) with d.
  change (exp M (- OptionParams.r p * (OptionParams.T p / of_int (Z.of_nat steps)))) with df.
  change ((exp M ((OptionParams.r p - OptionParams.q p)
                  * (OptionParams.T p / of_int (Z.of_nat steps))) - d) / (u - d)) with prob.
  rewrite Vectors.fill_tabulate by (rewrite length_replicate; lia).
  apply sweeps_root; [ lia | rewrite length_map, length_seq; lia | ].
  intros i Hi. rewrite Nat.sub_diag. cbn [Lattice.value].
  change (map ?f ?l) with (f <$> l). rewrite nth_lookup, list_lookup_fmap.
  rewrite lookup_seq_lt by lia. reflexivity.
Qed.

End LatticeInduction.
End LatticeInduction.

(** * The claims *)

Section Claims.
Local Open Scope float_scope.
Import OptionParams.

(** C1. For every market price, contract and budget, and whatever the C
    library computes, [ImpliedVolSolver::solve] runs at most [max_iter]
    Newton-Raphson iterations followed by at most 200 bisection iterations,
    has no failure exit (it is a total function into [double]), and the
    volatility it returns lies in [0.001, 10.0]; in particular it is never
    NaN. *)
Theorem solve_bounded_in_range (M : Libm) (market_price S K T r q : float)
    (type : OptionType) (tol : float) (max_iter : Z) :
  let trace := ImpliedVolSolver.solve_trace M market_price S K T r q type tol max_iter in
  let sigma := ImpliedVolSolver.solve M market_price S K T r q type tol max_iter in
  (fst (snd trace) <= Z.to_nat max_iter)%nat /\
  (snd (snd trace) <= 200)%nat /\
  (0.001 <=? sigma) = true /\ (sigma <=? 10.0) = true.
Proof.
  cbv zeta. unfold ImpliedVolSolver.solve, ImpliedVolSolver.solve_trace,
    ImpliedVolSolver.bisection_solve.
  pose proof (SolverFacts.bisection_trace_spec M market_price S K T r q type tol)
    as [Hcount Hbis].
  apply (SolverFacts.in_range_widen 0.001 5.0 0.001 10.0) in Hbis; [ | reflexivity .. ].
  destruct Hbis as [Hlo Hhi].
  generalize dependent (ImpliedVolSolver.bisection_trace M market_price S K T r q type tol).
  intros [x nb]. cbn [fst snd]. intros Hcount Hlo Hhi.
  pose proof (SolverFacts.newton_spec M market_price S K T r q type tol
                (Z.to_nat max_iter)
                (ImpliedVolSolver.initial_guess market_price S T)) as Hnewton.
  destruct Hnewton as [Hn He].
  { unfold ImpliedVolSolver.initial_guess.
    destruct (Binary64.clamp_range
                (PrimFloat.sqrt (2.0 * M_PI / T) * market_price / S) 0.01 5.0 eq_refl)
      as [ -> | H ]; [ now left | right ].
    apply (SolverFacts.in_range_widen 0.01 5.0 0.001 10.0) in H; [ exact H | reflexivity .. ]. }
  destruct (ImpliedVolSolver.newton _ _ _ _ _ _ _ _ _ _ _) as [[s | s | s] n];
    cbn [fst snd] in *.
  - destruct He as [He1 He2]. split; [ exact Hn | ]. split; [ lia | ]. split; assumption.
  - split; [ exact Hn | ]. split; [ exact Hcount | ]. split; assumption.
  - split; [ exact Hn | ]. split; [ exact Hcount | ]. split; assumption.
Qed.

(** C7. [VolSurface::calibrate] returns one surface point per quote, in the
    order of the quotes: the surface is as long as the quote list, and slot
    [i] carries the strike and the expiry of quote [i].  This holds for every
    order [schedule] in which the parallel loop may run its iterations, and
    then the whole result is the one of the sequential order. *)
Theorem calibrate_one_point_per_quote (M : Libm) (spot rate div_yield : float)
    (quotes : list MarketQuote.t) (schedule : list nat) :
  schedule ≡ₚ seq 0 (length quotes) ->
  let result := VolSurface.calibrate_in M spot rate div_yield schedule quotes in
  result = VolSurface.calibrate M spot rate div_yield quotes /\
  length (CalibrationResult.surface result) = length quotes /\
  map VolSurfacePoint.strike (CalibrationResult.surface result)
    = map MarketQuote.strike quotes /\
  map VolSurfacePoint.expiry (CalibrationResult.surface result)
    = map MarketQuote.expiry quotes.
Proof.
  intros Hperm result.
  destruct (CalibratorFacts.calibrate_in_surface M spot rate div_yield quotes schedule Hperm)
    as [Heq Hsurface].
  subst result. rewrite Hsurface, length_map, !map_map. done.
Qed.

(** C7, run: two quotes calibrated in the order 1, 0. *)
Lemma calibrate_one_point_per_quote_witness :
  let quotes := [MarketQuote.mk 90 0.5 12.5 CALL; MarketQuote.mk 110 1 4.25 PUT] in
  let result := VolSurface.calibrate_in Ref.libm 100 0.05 0 [1; 0]%nat quotes in
  result = VolSurface.calibrate Ref.libm 100 0.05 0 quotes /\
  length (CalibrationResult.surface result) = length quotes /\
  map VolSurfacePoint.strike (CalibrationResult.surface result)
    = map MarketQuote.strike quotes /\
  map VolSurfacePoint.expiry (CalibrationResult.surface result)
    = map MarketQuote.expiry quotes.
Proof.
  apply (calibrate_one_point_per_quote Ref.libm 100 0.05 0
           [MarketQuote.mk 90 0.5 12.5 CALL; MarketQuote.mk 110 1 4.25 PUT] [1; 0]%nat).
  apply Permutation_swap.
Defined.

(** C8. The sequence of [generate_antithetic(n, seed)] is made of antithetic
    pairs: for every [i < n / 2] the sample at index [2 i] is draw number [i]
    of the stream the seed starts and the sample at index [2 i + 1] is its
    negation (for every [n], even or odd).  Whenever that draw is a number,
    the comparison [samples[2 i + 1] == -samples[2 i]] of the two stored
    doubles holds. *)
Theorem generate_antithetic_pairs (R : Rng) (n : nat) (seed : Z) (i : nat) :
  i < n / 2 ->
  let z := StreamFacts.nth_draw R i (seeded R seed) in
  let samples := RandomGenerator.generate_antithetic R n seed in
  length samples = n /\
  samples !! (2 * i)%nat = Some z /\
  samples !! (2 * i + 1)%nat = Some (- z) /\
  (z <> nan ->
   forall a b, samples !! (2 * i)%nat = Some a -> samples !! (2 * i + 1)%nat = Some b ->
               (b =? - a) = true).
Proof.
  intros Hi z samples.
  pose proof (Nat.div_mod_eq n 2) as Hn.
  pose proof (Nat.mod_upper_bound n 2 ltac:(lia)) as Hmod.
  assert (length samples = n /\ samples !! (2 * i)%nat = Some z
          /\ samples !! (2 * i + 1)%nat = Some (- z)) as (Hlen & H0 & H1).
  { unfold samples, z, RandomGenerator.generate_antithetic.
    destruct (StreamFacts.antithetic_loop R (n / 2) (replicate n 0.0) (seeded R seed))
      as (_ & Hlen & _); [ rewrite length_replicate; lia | ].
    destruct (StreamFacts.antithetic_loop_pairs R (n / 2) (replicate n 0.0) (seeded R seed)
                ltac:(rewrite length_replicate; lia) i Hi) as [H0 H1].
    rewrite length_replicate in Hlen.
    destruct (RandomGenerator.antithetic_pairs R (n / 2) _ _) as [l g].
    cbn [fst] in *. destruct (Nat.eqb_spec (n mod 2) 0) as [ Heven | Hodd ]; cbn [negb].
    - done.
    - rewrite length_insert, !list_lookup_insert_ne by lia. done. }
  repeat split; try assumption.
  intros Hz a b Ha Hb. rewrite H0 in Ha. rewrite H1 in Hb.
  injection Ha as <-. injection Hb as <-.
  assert (- z <> nan) as Hz'.
  { intros E. apply Hz, Binary64.Prim2SF_nan.
    apply (f_equal Prim2SF) in E. rewrite FloatAxioms.opp_spec in E.
    change (Prim2SF nan) with S754_nan in E.
    destruct (Prim2SF z); try discriminate; reflexivity. }
  rewrite FloatAxioms.eqb_spec. unfold SFeqb.
  rewrite Binary64.compare_fval, Z.compare_refl by assumption. reflexivity.
Qed.

(** C8, run: four samples from a scripted stream, second pair. *)
Lemma generate_antithetic_pairs_witness :
  let z := StreamFacts.nth_draw (Ref.scripted [0.5; -1.25; 2]) 1 [0.5; -1.25; 2] in
  let samples := RandomGenerator.generate_antithetic (Ref.scripted [0.5; -1.25; 2]) 4 42 in
  length samples = 4%nat /\
  samples !! 2%nat = Some z /\
  samples !! 3%nat = Some (- z) /\
  (z <> nan ->
   forall a b, samples !! 2%nat = Some a -> samples !! 3%nat = Some b ->
               (b =? - a) = true).
Proof.
  apply (generate_antithetic_pairs (Ref.scripted [0.5; -1.25; 2]) 4 42 1).
  vm_compute. lia.
Defined.

(** C9. The price returned by [MonteCarloEngine::price] and by
    [price_multistep] is never negative: it is the estimate passed through
    [std::max(price_est, 0.0)], so an estimate below zero is returned as
    zero and the returned field never compares below zero. *)
Theorem monte_carlo_price_not_negative (M : Libm) (R : Rng) (p : OptionParams.t)
    (num_paths : nat) (vr : VarianceReduction) (seed : Z)
    (blocks : list nat) (num_steps : nat) :
  let price_est := fst (MonteCarloEngine.estimate M R p num_paths vr seed) in
  let price := PricingResult.price (MonteCarloEngine.price M R p num_paths vr seed) in
  let price_ms :=
    PricingResult.price (MonteCarloEngine.price_multistep M R p blocks num_steps seed) in
  price = (if price_est <? 0 then 0 else price_est) /\
  (price <? 0) = false /\
  (price_ms <? 0) = false.
Proof.
  cbv zeta. unfold MonteCarloEngine.price, MonteCarloEngine.price_multistep.
  destruct (MonteCarloEngine.estimate M R p num_paths vr seed) as [price_est std_err].
  cbn [fst PricingResult.price]. unfold std_max.
  repeat split.
  - destruct (price_est <? 0) eqn:E; [ reflexivity | exact E ].
  - match goal with |- ((if ?x <? 0 then _ else _) <? 0) = false =>
      destruct (x <? 0) eqn:E; [ reflexivity | exact E ] end.
Qed.

(** C10. On an empty quote list [VolSurface::calibrate] returns normally; the
    sum of squared errors [0.0] is divided by the size [0], so [total_rmse]
    is [sqrt(0/0)], a NaN, while [max_error] is [0] and the surface is
    empty. *)
Theorem calibrate_empty (M : Libm) (spot rate div_yield : float) :
  VolSurface.calibrate M spot rate div_yield [] =
  CalibrationResult.mk [] nan 0 0.
Proof. reflexivity. Qed.

(** C2 fails: a contract with [T = 0] (and [S = K]) is not rejected;
    [BlackScholes::price] returns, and the price it returns is NaN. *)
Lemma black_scholes_accepts_zero_expiry :
  let p := OptionParams.mk 100 100 0 0.05 0.2 0 CALL EUROPEAN in
  (OptionParams.T p <=? 0) = true /\
  BlackScholes.price_outcome Ref.libm p = Returned (PricingResult.mk nan 0 0) /\
  BlackScholes.price_outcome Ref.libm p <> Raised InvalidParameter.
Proof. cbv zeta. split; [ | split ]; [ reflexivity | reflexivity | discriminate ]. Qed.

(** C2, amended. [BlackScholes::price] validates nothing: on every input it
    returns a result and raises no failure, and for every input with a
    negative time to expiry the price it returns is NaN, whatever the C
    library computes. *)
Theorem black_scholes_never_rejects (M : Libm) (p : OptionParams.t) :
  (forall f, BlackScholes.price_outcome M p <> Raised f) /\
  ((OptionParams.T p <? 0) = true ->
   BlackScholes.price_outcome M p = Returned (PricingResult.mk nan 0 0)).
Proof.
  split; [ discriminate | ].
  intros HT. unfold BlackScholes.price_outcome. f_equal.
  pose proof (SolverFacts.price_nan_negative_T M p HT) as Hnan.
  unfold BlackScholes.price in *. cbn [PricingResult.price] in Hnan. now rewrite Hnan.
Qed.

(** C2, run: a one-year-overdue contract prices to NaN. *)
Lemma black_scholes_never_rejects_witness :
  BlackScholes.price_outcome Ref.libm (OptionParams.mk 100 105 (-1) 0.05 0.2 0 PUT EUROPEAN)
  = Returned (PricingResult.mk nan 0 0).
Proof.
  apply (black_scholes_never_rejects Ref.libm
           (OptionParams.mk 100 105 (-1) 0.05 0.2 0 PUT EUROPEAN)).
  reflexivity.
Defined.

(** C3 fails: one step on a low-volatility contract gives a risk-neutral
    probability above 3, and [BinomialTree::price] returns a price all the
    same (2.93, when the larger of the two terminal payoffs is 1.005). *)
Lemma binomial_accepts_unstable_probability :
  let p := OptionParams.mk 100 100 1 0.05 0.01 0 CALL EUROPEAN in
  (3 <? BinomialTree.prob Ref.libm p 1) = true /\
  (exists result,
     BinomialTree.price_outcome Ref.libm p 1 = Finished (Returned result) /\
     (2.9 <? PricingResult.price result) = true) /\
  BinomialTree.price_outcome Ref.libm p 1 <> Finished (Raised UnstableDiscretization).
Proof.
  cbv zeta. split; [ | split ]; [ reflexivity | | discriminate ].
  eexists. split; [ reflexivity | ]. vm_compute. reflexivity.
Qed.

(** C3, amended. [BinomialTree::price] never reports the risk-neutral
    probability: for every contract and every step count from 0 up (below
    [INT_MAX]) the call returns, and the price it returns is the root of the
    backward induction run with the probability as the formula gave it,
    inside (0, 1) or not, for European and American contracts alike; no
    step count makes it raise one of the specification's failures. *)
Theorem binomial_never_reports_probability (M : Libm) (p : OptionParams.t) (steps : Z) :
  (0 <= steps < 2 ^ 31 - 1)%Z ->
  BinomialTree.price_outcome M p steps
  = Finished (Returned (PricingResult.mk (Lattice.root M p (Z.to_nat steps)) 0 0)) /\
  Lattice.prob M p (Z.to_nat steps) = BinomialTree.prob M p (Z.to_nat steps) /\
  forall (n : Z) (f : failure), BinomialTree.price_outcome M p n <> Finished (Raised f).
Proof.
  intros Hsteps. split; [ | split ].
  - unfold BinomialTree.price_outcome.
    destruct (Z.ltb_spec steps (-1)); [ lia | ].
    destruct (Z.eqb_spec steps (-1)); [ lia | ].
    destruct (Z.leb_spec (2 ^ 31 - 1) steps); [ lia | ].
    now rewrite LatticeInduction.price_root.
  - reflexivity.
  - intros n f. unfold BinomialTree.price_outcome.
    destruct (n <? -1)%Z; [ discriminate | ].
    destruct (n =? -1)%Z; [ discriminate | ].
    destruct (2 ^ 31 - 1 <=? n)%Z; discriminate.
Qed.

(** C3, run: the low-volatility contract on two steps, American style. *)
Lemma binomial_never_reports_probability_witness :
  let p := OptionParams.mk 100 100 1 0.05 0.01 0 CALL AMERICAN in
  BinomialTree.price_outcome Ref.libm p 2
  = Finished (Returned (PricingResult.mk (Lattice.root Ref.libm p (Z.to_nat 2)) 0 0)).
Proof.
  apply (binomial_never_reports_probability Ref.libm
           (OptionParams.mk 100 100 1 0.05 0.01 0 CALL AMERICAN) 2).
  lia.
Defined.
(** C5 fails: two paths under Control Variate on an out-of-the-money call.
    Both terminal prices lie above the forward, the discounted mean of the
    adjusted payoffs is -1.68, and the price returned is 0. *)
Lemma monte_carlo_price_is_clamped :
  let p := OptionParams.mk 100 105 1 0 0.2 0 CALL EUROPEAN in
  let z := [0.2; 1] in
  let discounted_mean :=
    exp Ref.libm (- r p * T p)
    * SampleStats.sample_mean (MonteCarloFacts.adjusted Ref.libm p z) in
  MonteCarloEngine.draws Ref.libm (Ref.scripted z) CONTROL_VARIATE 2 42 = z /\
  discounted_mean = -1.6800671251489376 /\
  PricingResult.price
    (MonteCarloEngine.price Ref.libm (Ref.scripted z) p 2 CONTROL_VARIATE 42) = 0 /\
  (PricingResult.price
     (MonteCarloEngine.price Ref.libm (Ref.scripted z) p 2 CONTROL_VARIATE 42)
   =? discounted_mean) = false.
Proof. cbv zeta. repeat split; vm_compute; reflexivity. Qed.

(** C5, amended.  With [z] the draws of the chosen mode, the payoffs are
    the payoffs of the draws in order (for Control Variate, the beta-adjusted
    ones), [price] is the discounted sample mean passed through
    [std::max(., 0.0)], and [std_error] is [df * sqrt(s2 / N)] with [s2] the
    sample variance of divisor [N - 1].  The discounted mean is
    [df * (sum / N)], and [(df * sum) / N] under Control Variate. *)
Theorem monte_carlo_estimates (M : Libm) (R : Rng) (p : OptionParams.t)
    (num_paths : nat) (vr : VarianceReduction) (seed : Z) :
  let z := MonteCarloEngine.draws M R vr num_paths seed in
  let df := exp M (- r p * T p) in
  let n := of_int (Z.of_nat num_paths) in
  let payoffs := map (MonteCarloFacts.payoff M p) z in
  let adjusted := MonteCarloFacts.adjusted M p z in
  let result := MonteCarloEngine.price M R p num_paths vr seed in
  length z = num_paths /\
  match vr with
  | CONTROL_VARIATE =>
      PricingResult.price result = std_max (df * accumulate adjusted 0 / n) 0 /\
      PricingResult.std_error result
        = df * PrimFloat.sqrt (SampleStats.sample_variance adjusted / n)
  | _ =>
      PricingResult.price result = std_max (df * SampleStats.sample_mean payoffs) 0 /\
      PricingResult.std_error result
        = df * PrimFloat.sqrt (SampleStats.sample_variance payoffs / n)
  end.
Proof.
  cbv zeta. pose proof (MonteCarloFacts.length_draws M R vr num_paths seed) as Hlen.
  split; [ exact Hlen | ].
  unfold MonteCarloEngine.price, MonteCarloEngine.estimate.
  rewrite (MonteCarloFacts.simulate_map M p _ num_paths Hlen).
  unfold SampleStats.sample_variance, SampleStats.sample_mean.
  destruct vr.
  1-3: unfold MonteCarloEngine.plain_estimate; cbn [PricingResult.price PricingResult.std_error];
       rewrite length_map, Hlen; split; reflexivity.
  rewrite (MonteCarloFacts.adjusted_payoffs_map M p _ num_paths Hlen).
  unfold MonteCarloEngine.control_variate_estimate.
  cbn [PricingResult.price PricingResult.std_error].
  rewrite MonteCarloFacts.length_adjusted, Hlen. split; reflexivity.
Qed.

(** C6 fails: a deep out-of-the-money call (the contract of the repository's
    own test for it, priced at volatility 0.2).  Newton-Raphson leaves on a
    vega below the threshold after one iteration; bisection then returns
    after 21 iterations, as soon as the model price is within [tol], with the
    midpoint of bracket 20, which is not the midpoint reached after the 200
    halvings. *)
Lemma bisection_returns_before_its_budget :
  let market_price := 0.00011808745143169 in
  let trace :=
    ImpliedVolSolver.solve_trace Ref.libm market_price 100 150 0.25 0.05 0 CALL 1e-8 100 in
  let sigma :=
    ImpliedVolSolver.solve Ref.libm market_price 100 150 0.25 0.05 0 CALL 1e-8 100 in
  let fixed := Bisection.bisect_fixed Ref.libm market_price 100 150 0.25 0.05 0 CALL in
  ImpliedVolSolver.returned
    (fst (ImpliedVolSolver.newton Ref.libm market_price 100 150 0.25 0.05 0 CALL 1e-8 100
            (ImpliedVolSolver.initial_guess market_price 100 0.25))) = false /\
  snd trace = (1%nat, 21%nat) /\
  sigma = 0.19999917459487915 /\
  fixed 200%nat = 0.19999999999941681 /\
  (sigma =? fixed 200%nat) = false /\
  sigma = fixed 20%nat.
Proof. cbv zeta. repeat split; vm_compute; reflexivity. Qed.

(** C6, amended.  Whenever the Newton-Raphson loop does not return, [solve]
    returns what bisection gives from the original bracket [0.001, 5.0],
    whatever iterate Newton-Raphson held: the midpoint of the bracket after
    [k] halvings, where [k] is the first index at which the model price at
    the midpoint is within [tol] of the market price, or 200 when there is
    none below 200. *)
Theorem solve_falls_back_to_bisection (M : Libm) (market_price S K T r q : float)
    (type : OptionType) (tol : float) (max_iter : Z) :
  ImpliedVolSolver.returned
    (fst (ImpliedVolSolver.newton M market_price S K T r q type tol (Z.to_nat max_iter)
            (ImpliedVolSolver.initial_guess market_price S T))) = false ->
  exists k : nat,
    (k <= 200)%nat /\
    ImpliedVolSolver.solve M market_price S K T r q type tol max_iter
      = Bisection.midpoint (Bisection.bracket M market_price S K T r q type k) /\
    (forall j, (j < k)%nat ->
       Bisection.close_enough M market_price S K T r q type tol
         (Bisection.bracket M market_price S K T r q type j) = false) /\
    (k = 200%nat \/
     Bisection.close_enough M market_price S K T r q type tol
       (Bisection.bracket M market_price S K T r q type k) = true).
Proof.
  intros Hexit.
  assert (ImpliedVolSolver.solve M market_price S K T r q type tol max_iter
          = fst (ImpliedVolSolver.bisect M market_price S K T r q type tol 200 0.001 5.0))
    as ->.
  { unfold ImpliedVolSolver.solve, ImpliedVolSolver.solve_trace.
    destruct (ImpliedVolSolver.newton _ _ _ _ _ _ _ _ _ _ _) as [[s | s | s] n];
      cbn [fst ImpliedVolSolver.returned] in *;
      [ discriminate | apply SolverFacts.bisection_solve_unfold .. ]. }
  unfold Bisection.bracket.
  apply (Bisection.bisect_stops M market_price S K T r q type tol 200 0.001 5.0).
Qed.

(** C6, run: the deep out-of-the-money call above. *)
Lemma solve_falls_back_to_bisection_witness :
  exists k : nat,
    (k <= 200)%nat /\
    ImpliedVolSolver.solve Ref.libm 0.00011808745143169 100 150 0.25 0.05 0 CALL 1e-8 100
      = Bisection.midpoint
          (Bisection.bracket Ref.libm 0.00011808745143169 100 150 0.25 0.05 0 CALL k) /\
    (forall j, (j < k)%nat ->
       Bisection.close_enough Ref.libm 0.00011808745143169 100 150 0.25 0.05 0 CALL 1e-8
         (Bisection.bracket Ref.libm 0.00011808745143169 100 150 0.25 0.05 0 CALL j) = false) /\
    (k = 200%nat \/
     Bisection.close_enough Ref.libm 0.00011808745143169 100 150 0.25 0.05 0 CALL 1e-8
       (Bisection.bracket Ref.libm 0.00011808745143169 100 150 0.25 0.05 0 CALL k) = true).
Proof.
  apply (solve_falls_back_to_bisection Ref.libm 0.00011808745143169 100 150 0.25 0.05 0
           CALL 1e-8 100).
  vm_compute. reflexivity.
Defined.

(** C4 fails: at [S = K = 100], [T = 1], [r = 0], [q = 0.125], [sigma = 0.5]
    every operation up to [d1] is exact and [d1 = 0]; [norm_cdf] gives
    [0.5000000005] for [d1] and for [-d1], and call minus put misses
    [S e^(-qT) - K e^(-rT)] by [8.8e-8]. *)
Lemma put_call_parity_gap_at_zero_d1 :
  let call := OptionParams.mk 100 100 1 0 0.5 0.125 CALL EUROPEAN in
  let put := OptionParams.mk 100 100 1 0 0.5 0.125 PUT EUROPEAN in
  let parity :=
    PricingResult.price (BlackScholes.price Ref.libm call)
    - PricingResult.price (BlackScholes.price Ref.libm put) in
  let expected := 100 * exp Ref.libm (- 0.125 * 1) - 100 * exp Ref.libm (- 0 * 1) in
  BlackScholes.calc_d1 Ref.libm call = 0 /\
  norm_cdf Ref.libm 0 = 0.50000000050000004 /\
  norm_cdf Ref.libm (- 0) = 0.50000000050000004 /\
  (8.8e-8 <? parity - expected) = true /\
  (abs (parity - expected) <? 1e-8) = false.
Proof. cbv zeta. repeat split; vm_compute; reflexivity. Qed.

(** The contract of the repository's own parity test does meet the
    tolerance. *)
Example put_call_parity_test_contract :
  let call := OptionParams.mk 100 105 0.5 0.05 0.25 0.02 CALL EUROPEAN in
  let put := OptionParams.mk 100 105 0.5 0.05 0.25 0.02 PUT EUROPEAN in
  let parity :=
    PricingResult.price (BlackScholes.price Ref.libm call)
    - PricingResult.price (BlackScholes.price Ref.libm put) in
  let expected := 100 * exp Ref.libm (- 0.02 * 0.5) - 105 * exp Ref.libm (- 0.05 * 0.5) in
  (abs (parity - expected) <? 1e-8) = true.
Proof. vm_compute. reflexivity. Qed.

End Claims.

(** * Further properties of the sources

    The rest of the file covers what the sources do at their edges and how
    their parts fit together: the fallback solver on its own, the calibrator's
    aggregates, the closed-form Greeks, the payoff, the lattice, the Monte
    Carlo estimator on degenerate path counts, the random sequences and the
    finite-difference stencils. *)

(** ** More of binary64: signs and exact operations *)

Module Binary64Exact.
Import Binary64.

Section Signs.
Local Open Scope Z_scope.

(** Rounding is symmetric: the sign is carried along, untouched. *)
Lemma round_aux_sign (m e : Z) (l : location) :
  binary_round_aux prec emax true m e l = SFopp (binary_round_aux prec emax false m e l).
Proof.
  unfold binary_round_aux.
  destruct (shr_fexp prec emax m e l) as [s1 e1].
  destruct (shr_fexp prec emax _ e1 loc_Exact) as [s2 e2].
  destruct (shr_m s2); [ reflexivity | | reflexivity ].
  destruct (e2 <=? emax - prec); reflexivity.
Qed.

Lemma round_aux_negb (s : bool) (m e : Z) (l : location) :
  binary_round_aux prec emax (negb s) m e l = SFopp (binary_round_aux prec emax s m e l).
Proof.
  destruct s; cbn [negb]; rewrite round_aux_sign; [ | reflexivity ].
  now destruct (binary_round_aux prec emax false m e l) as [ [ | ] | [ | ] | | [ | ] ? ? ].
Qed.

Lemma round_sign (m : positive) (e : Z) :
  binary_round prec emax true m e = SFopp (binary_round prec emax false m e).
Proof.
  unfold binary_round. destruct (shl_align m e _) as [mz ez]. apply round_aux_sign.
Qed.

Lemma SFopp_involutive (x : spec_float) : SFopp (SFopp x) = x.
Proof. now destruct x as [ [ | ] | [ | ] | | [ | ] ? ? ]. Qed.

Lemma ival_opp (x : spec_float) : ival (SFopp x) = - ival x.
Proof.
  destruct x as [ s | s | | s m e ]; cbn [SFopp ival]; try reflexivity;
    destruct s; cbn [negb cond_Zopp]; lia.
Qed.

(** Swapping the operands of a subtraction negates the result, unless the
    result is a zero, which is then [+0] both ways. *)
Lemma SFsub_swap (x y : spec_float) :
  SF64sub y x = SFopp (SF64sub x y) \/
  (SF64sub x y = S754_zero false /\ SF64sub y x = S754_zero false).
Proof.
  destruct x as [ sx | sx | | sx mx ex ], y as [ sy | sy | | sy my ey ];
    cbn [SF64sub SFsub SFopp negb];
    try (left; reflexivity);
    try (destruct sx, sy; cbn [negb]; (left; reflexivity) || (right; split; reflexivity)).
  rewrite (Z.min_comm ey ex).
  set (a := cond_Zopp sx (Z.pos (fst (shl_align mx ex (Z.min ex ey))))).
  set (b := cond_Zopp sy (Z.pos (fst (shl_align my ey (Z.min ex ey))))).
  replace (b - a) with (- (a - b)) by lia.
  destruct (a - b) as [ | n | n ]; cbn [Z.opp binary_normalize].
  - right. split; reflexivity.
  - left. apply round_sign.
  - left. now rewrite round_sign, SFopp_involutive.
Qed.

Lemma SFmul_opp_l (x y : spec_float) : SF64mul (SFopp x) y = SFopp (SF64mul x y).
Proof.
  destruct x as [ sx | sx | | sx mx ex ], y as [ sy | sy | | sy my ey ];
    cbn [SFopp SF64mul SFmul]; try reflexivity;
    try (now destruct sx, sy).
  rewrite <- round_aux_negb. now destruct sx, sy.
Qed.

Lemma SFmul_opp_r (x y : spec_float) : SF64mul x (SFopp y) = SFopp (SF64mul x y).
Proof.
  destruct x as [ sx | sx | | sx mx ex ], y as [ sy | sy | | sy my ey ];
    cbn [SFopp SF64mul SFmul]; try reflexivity;
    try (now destruct sx, sy).
  rewrite <- round_aux_negb. now destruct sx, sy.
Qed.

Lemma SFdiv_opp_l (x y : spec_float) : SF64div (SFopp x) y = SFopp (SF64div x y).
Proof.
  destruct x as [ sx | sx | | sx mx ex ], y as [ sy | sy | | sy my ey ];
    cbn [SFopp SF64div SFdiv]; try reflexivity;
    try (now destruct sx, sy).
  destruct (SFdiv_core_binary prec emax (Z.pos mx) ex (Z.pos my) ey) as [[mz ez] lz].
  rewrite <- round_aux_negb. now destruct sx, sy.
Qed.

End Signs.

Section Exact.
Local Open Scope Z_scope.

(** A valid positive datum is determined by its value. *)
Lemma finite_inj (m1 m2 : positive) (e1 e2 : Z) :
  valid_binary (S754_finite false m1 e1) = true ->
  valid_binary (S754_finite false m2 e2) = true ->
  Z.pos m1 * 2 ^ (e1 + 1074) = Z.pos m2 * 2 ^ (e2 + 1074) ->
  m1 = m2 /\ e1 = e2.
Proof.
  intros V1 V2 Heq. pose proof (finite_order m1 m2 e1 e2 V1 V2) as H.
  rewrite Heq, Z.compare_refl in H.
  destruct (Z.compare_spec e1 e2) as [ -> | | ]; try discriminate.
  split; [ | reflexivity ]. now apply Pos.compare_eq.
Qed.

(** Dividing a positive datum by one rounds nothing. *)
Lemma SFdiv_one (m : positive) (e : Z) :
  valid_binary (S754_finite false m e) = true ->
  ival (SF64div (S754_finite false m e) (Prim2SF 1)) = Z.pos m * 2 ^ (e + 1074).
Proof.
  intros Hv. pose proof Hv as [He [Hm Hn]]%valid_finite.
  pose proof (digits2_bounds m) as Hd.
  set (d := Z.pos (digits2_pos m)) in *.
  assert (1 <= d <= 53) as Hd53.
  { split; [ unfold d; lia | ].
    destruct (Z_le_gt_dec d 53) as [ | Hgt ]; [ done | exfalso ].
    assert (2 ^ 53 <= 2 ^ (d - 1)) by (apply Z.pow_le_mono_r; lia). lia. }
  assert (-1074 < e -> d = 53) as Hnorm.
  { intros Hne. specialize (Hn Hne).
    destruct (Z.eq_dec d 53) as [ | Hne' ]; [ done | exfalso ].
    assert (2 ^ d <= 2 ^ 52) by (apply Z.pow_le_mono_r; lia). lia. }
  change (Prim2SF 1) with (S754_finite false (2 ^ 52) (-52)).
  unfold SF64div, SFdiv, SFdiv_core_binary. cbn [Zdigits2 xorb]. fold d.
  change (Z.pos (digits2_pos (2 ^ 52))) with 53. rewrite fexp_eq.
  set (e' := Z.min (Z.max (d + e - (53 + -52) - 53) (-1074)) (e - -52)).
  set (k := e - e').
  assert (0 <= k /\ -1074 <= e' /\ e' <= Z.max (d + e - 53) (-1074)) as (Hk & He' & Hfexp)
    by (unfold k, e'; lia).
  replace (e - -52 - e') with (k + 52) by (unfold k; lia).
  destruct (k + 52) as [ | ps | ps ] eqn:Es; try lia. rewrite <- Es.
  pose proof (pow2_pos k Hk) as Hpk.
  destruct (Z.pos m * 2 ^ k) as [ | qm | qm ] eqn:Eq; try lia.
  assert (Z.div_eucl (Z.shiftl (Z.pos m) (k + 52)) (Z.pos (2 ^ 52)) = (Z.pos qm, 0)) as ->.
  { rewrite Z.shiftl_mul_pow2 by lia. rewrite Z.pow_add_r by lia.
    change (2 ^ 52) with (Z.pos (2 ^ 52)). rewrite Z.mul_assoc, Eq.
    pose proof (Z.div_mul (Z.pos qm) (Z.pos (2 ^ 52)) ltac:(easy)) as Hq.
    pose proof (Z.mod_mul (Z.pos qm) (Z.pos (2 ^ 52)) ltac:(easy)) as Hr.
    unfold Z.div, Z.modulo in Hq, Hr.
    destruct (Z.div_eucl _ _) as [q r]. now subst q r. }
  change (new_location (Z.pos (2 ^ 52)) 0) with loc_Exact.
  assert (representable (Z.pos m * 2 ^ (e + 1074))) as Hrep
    by (exists (Z.pos m), (e + 1074); lia).
  assert (Z.pos qm * 2 ^ (e' + 1074) = Z.pos m * 2 ^ (e + 1074)) as Hval.
  { rewrite <- Eq, <- Z.mul_assoc, <- Z.pow_add_r by lia. do 2 f_equal. unfold k. lia. }
  assert (Z.pos (digits2_pos qm) = d + k) as Hdq.
  { apply digits2_unique. rewrite <- Eq.
    replace (d + k - 1) with (d - 1 + k) by lia. rewrite !Z.pow_add_r by lia.
    split; [ apply Z.mul_le_mono_nonneg_r | apply Z.mul_lt_mono_pos_r ]; lia. }
  pose proof (round_aux_between qm e' (Z.pos m * 2 ^ (e + 1074)) (Z.pos m * 2 ^ (e + 1074))
                He') as Hb.
  rewrite Hdq, fexp_eq in Hb.
  specialize (Hb ltac:(unfold k; lia) Hrep Hrep). rewrite Hval in Hb.
  specialize (Hb ltac:(lia)). lia.
Qed.

End Exact.

Section Floats.
Local Open Scope float_scope.

Lemma opp_involutive (x : float) : - - x = x.
Proof.
  apply Prim2SF_inj. rewrite !FloatAxioms.opp_spec.
  now destruct (Prim2SF x) as [ [ | ] | [ | ] | | [ | ] ? ? ].
Qed.

Lemma mul_opp_l (x y : float) : - x * y = - (x * y).
Proof.
  apply Prim2SF_inj.
  rewrite FloatAxioms.opp_spec, !FloatAxioms.mul_spec, FloatAxioms.opp_spec.
  apply SFmul_opp_l.
Qed.

Lemma mul_opp_r (x y : float) : x * - y = - (x * y).
Proof.
  apply Prim2SF_inj.
  rewrite FloatAxioms.opp_spec, !FloatAxioms.mul_spec, FloatAxioms.opp_spec.
  apply SFmul_opp_r.
Qed.

Lemma div_opp_l (x y : float) : - x / y = - (x / y).
Proof.
  apply Prim2SF_inj.
  rewrite FloatAxioms.opp_spec, !FloatAxioms.div_spec, FloatAxioms.opp_spec.
  apply SFdiv_opp_l.
Qed.

(** Two floats of the same positive value are the same float. *)
Lemma fval_inj_pos (x y : float) :
  (0 < fval x < 2 ^ 2100)%Z -> fval x = fval y -> x = y.
Proof.
  intros Hx Heq.
  destruct (positive_finite x Hx) as (m1 & e1 & E1 & V1).
  destruct (positive_finite y ltac:(lia)) as (m2 & e2 & E2 & V2).
  apply Prim2SF_inj. rewrite E1, E2.
  unfold fval in Heq. rewrite E1, E2 in Heq. cbn [ival cond_Zopp] in Heq.
  now destruct (finite_inj m1 m2 e1 e2 V1 V2 Heq) as [-> ->].
Qed.

(** [x / 1.0] is [x], for every [x]. *)
Lemma div_one (x : float) : x / 1 = x.
Proof.
  assert (forall y m e, Prim2SF y = S754_finite false m e -> y / 1 = y) as Hpos.
  { intros y m e E. pose proof (Prim2SF_valid y) as Hv. rewrite E in Hv.
    pose proof (SFdiv_one m e Hv) as H.
    rewrite <- E, <- FloatAxioms.div_spec in H. fold (fval (y / 1)) in H.
    pose proof (ival_finite_bounds _ _ _ Hv) as Hb.
    assert (fval y = Z.pos m * 2 ^ (e + 1074))%Z as Hy by (unfold fval; now rewrite E).
    symmetry. apply fval_inj_pos; rewrite Hy; [ lia | now rewrite H ]. }
  destruct (Prim2SF x) as [ s | s | | s m e ] eqn:E.
  - apply Prim2SF_inj. rewrite FloatAxioms.div_spec, E. now destruct s.
  - apply Prim2SF_inj. rewrite FloatAxioms.div_spec, E. now destruct s.
  - apply Prim2SF_inj. now rewrite FloatAxioms.div_spec, E.
  - destruct s; [ | now apply (Hpos x m e) ].
    rewrite <- (opp_involutive x), div_opp_l. f_equal.
    apply (Hpos (- x) m e). now rewrite FloatAxioms.opp_spec, E.
Qed.

(** [0.0 + x] is [x] for a finite [x] that is not a zero. *)
Lemma add_zero_l (x : float) (s : bool) (m : positive) (e : Z) :
  Prim2SF x = S754_finite s m e -> 0 + x = x.
Proof.
  intros E. apply Prim2SF_inj. now rewrite FloatAxioms.add_spec, E.
Qed.

Lemma add_zero_r (x : float) (s : bool) (m : positive) (e : Z) :
  Prim2SF x = S754_finite s m e -> x + 0 = x.
Proof.
  intros E. apply Prim2SF_inj. now rewrite FloatAxioms.add_spec, E.
Qed.

(** [x - x] is [+0.0] for a finite [x]. *)
Lemma sub_diag (x : float) (s : bool) (m : positive) (e : Z) :
  Prim2SF x = S754_finite s m e -> x - x = 0.
Proof.
  intros E. apply Prim2SF_inj. rewrite FloatAxioms.sub_spec, E.
  unfold SF64sub, SFsub. now rewrite Z.sub_diag.
Qed.

(** A float is determined by what [Prim2SF] shows of it. *)
Lemma Prim2SF_eq (x c : float) : Prim2SF x = Prim2SF c -> x = c.
Proof. apply Prim2SF_inj. Qed.

(** The sum of two positive floats whose exact sum is representable is that
    sum. *)
Lemma add_exact (x y : float) :
  (0 < fval x < 2 ^ 2100)%Z -> (0 < fval y < 2 ^ 2100)%Z ->
  representable (fval x + fval y) ->
  fval (x + y) = (fval x + fval y)%Z.
Proof.
  intros Hx Hy Hrep.
  destruct (positive_finite x Hx) as (m1 & e1 & E1 & V1).
  destruct (positive_finite y Hy) as (m2 & e2 & E2 & V2).
  pose proof V1 as [He1 _]%valid_finite. pose proof V2 as [He2 _]%valid_finite.
  unfold fval in *. rewrite FloatAxioms.add_spec, E1, E2 in *. cbn [ival cond_Zopp] in *.
  pose proof (SFadd_between m1 m2 e1 e2 _ _ ltac:(lia) ltac:(lia) Hrep Hrep ltac:(lia)).
  lia.
Qed.

Lemma ltb_irrefl (x : float) : (x <? x) = false.
Proof. apply ltb_false_iff. destruct (nan_dec x); [ now left | right; right; lia ]. Qed.

(** [std::max(a, b)] never compares below [b]. *)
Lemma std_max_not_below (a b : float) : (std_max a b <? b) = false.
Proof. unfold std_max. destruct (a <? b) eqn:E; [ apply ltb_irrefl | exact E ]. Qed.

End Floats.
End Binary64Exact.

Module NaNRewriting.
Import Binary64.
Create Rewrite HintDb nan_arith.
#[export] Hint Rewrite add_nan_l add_nan_r sub_nan_l sub_nan_r mul_nan_l mul_nan_r
  div_nan_l div_nan_r opp_nan abs_nan : nan_arith.
End NaNRewriting.

(** ** The implied-volatility solver *)

Module SolverResidual.
Import Binary64 SolverFacts.
Section SolverResidual.
Context (M : Libm).
Context (market_price S K T r q : float) (type : OptionType) (tol : float).
Local Open Scope float_scope.

Local Abbreviation model_price_at := (ImpliedVolSolver.model_price_at M S K T r q type).
Local Abbreviation newton := (ImpliedVolSolver.newton M market_price S K T r q type tol).
Local Abbreviation bisect := (ImpliedVolSolver.bisect M market_price S K T r q type tol).

(** The convergence test, at a volatility. *)
Definition within_tol (sigma : float) : bool :=
  abs (model_price_at sigma - market_price) <? tol.

(** Newton-Raphson returns only an iterate that passed the test. *)
Lemma newton_converged (budget : nat) :
  forall sigma s n,
    newton budget sigma = (ImpliedVolSolver.Converged s, n) -> within_tol s = true.
Proof.
  induction budget as [ | budget IH ]; intros sigma s n; cbn [ImpliedVolSolver.newton].
  - discriminate.
  - destruct (abs (model_price_at sigma - market_price) <? tol) eqn:Hconv.
    + intros [= <- _]. exact Hconv.
    + destruct (abs (ImpliedVolSolver.vega_at M S K T r q type sigma) <? 1e-12);
        [ discriminate | ].
      match goal with |- context [newton budget ?x] => specialize (IH x) end.
      destruct (newton budget _) as [e k]. intros [= -> _]. now apply (IH s k).
Qed.

(** Bisection that stops before its budget stopped on the test. *)
Lemma bisect_early (budget : nat) :
  forall lo hi,
    (snd (bisect budget lo hi) < budget)%nat ->
    within_tol (fst (bisect budget lo hi)) = true.
Proof.
  induction budget as [ | budget IH ]; intros lo hi; cbn [ImpliedVolSolver.bisect].
  - cbn. lia.
  - destruct (abs (model_price_at ((lo + hi) / 2) - market_price) <? tol) eqn:Hconv.
    + intros _. exact Hconv.
    + destruct (market_price <? model_price_at ((lo + hi) / 2)).
      * specialize (IH lo ((lo + hi) / 2)).
        destruct (bisect budget lo _) as [x n]. cbn [fst snd] in *. intros Hn. apply IH. lia.
      * specialize (IH ((lo + hi) / 2) hi).
        destruct (bisect budget _ hi) as [x n]. cbn [fst snd] in *. intros Hn. apply IH. lia.
Qed.

Lemma bisection_trace_early :
  (snd (ImpliedVolSolver.bisection_trace M market_price S K T r q type tol) < 200)%nat ->
  within_tol (fst (ImpliedVolSolver.bisection_trace M market_price S K T r q type tol)) = true.
Proof.
  unfold ImpliedVolSolver.bisection_trace. apply bisect_early.
Qed.

(** The value [solve] returns lies in [0.001, 10.0]. *)
Lemma solve_in_range (max_iter : Z) :
  in_range 0.001 10.0 (ImpliedVolSolver.solve M market_price S K T r q type tol max_iter).
Proof.
  unfold ImpliedVolSolver.solve, ImpliedVolSolver.solve_trace,
    ImpliedVolSolver.bisection_solve.
  pose proof (bisection_trace_spec M market_price S K T r q type tol) as [_ Hbis].
  apply (in_range_widen 0.001 5.0 0.001 10.0) in Hbis; [ | reflexivity .. ].
  generalize dependent (ImpliedVolSolver.bisection_trace M market_price S K T r q type tol).
  intros [x nb]. cbn [fst snd]. intros Hbis.
  pose proof (newton_spec M market_price S K T r q type tol (Z.to_nat max_iter)
                (ImpliedVolSolver.initial_guess market_price S T)) as Hnewton.
  destruct Hnewton as [_ He].
  { unfold ImpliedVolSolver.initial_guess.
    destruct (clamp_range (PrimFloat.sqrt (2.0 * M_PI / T) * market_price / S) 0.01 5.0 eq_refl)
      as [ -> | H ]; [ now left | right ].
    apply (in_range_widen 0.01 5.0 0.001 10.0) in H; [ exact H | reflexivity .. ]. }
  destruct (ImpliedVolSolver.newton _ _ _ _ _ _ _ _ _ _ _) as [[s | s | s] n];
    cbn [fst snd] in *; assumption.
Qed.

End SolverResidual.
End SolverResidual.

Section SolverProperties.
Local Open Scope float_scope.

(** X1. [bisection_solve] on its own: for every market price, contract and
    tolerance it runs at most 200 iterations and returns a volatility of the
    bracket [0.001, 5.0] it started from; in particular never a NaN. *)
Theorem bisection_solve_in_bracket (M : Libm) (market_price S K T r q : float)
    (type : OptionType) (tol : float) :
  let sigma := ImpliedVolSolver.bisection_solve M market_price S K T r q type tol in
  (snd (ImpliedVolSolver.bisection_trace M market_price S K T r q type tol) <= 200)%nat /\
  (0.001 <=? sigma) = true /\ (sigma <=? 5.0) = true.
Proof.
  cbv zeta. unfold ImpliedVolSolver.bisection_solve.
  destruct (SolverFacts.bisection_trace_spec M market_price S K T r q type tol)
    as [Hcount [Hlo Hhi]].
  split; [ exact Hcount | ]. split; [ exact Hlo | exact Hhi ].
Qed.

(** X2. Unless bisection used up its 200 iterations, the volatility [solve]
    returns prices back to the market price: the analytic price at it is
    within [tol] of [market_price]. *)
Theorem solve_reprices_within_tol (M : Libm) (market_price S K T r q : float)
    (type : OptionType) (tol : float) (max_iter : Z) :
  let trace := ImpliedVolSolver.solve_trace M market_price S K T r q type tol max_iter in
  let sigma := ImpliedVolSolver.solve M market_price S K T r q type tol max_iter in
  (snd (snd trace) < 200)%nat ->
  (abs (PricingResult.price
          (BlackScholes.price M (OptionParams.mk S K T r sigma q type EUROPEAN))
        - market_price) <? tol) = true.
Proof.
  cbv zeta. unfold ImpliedVolSolver.solve, ImpliedVolSolver.solve_trace,
    ImpliedVolSolver.bisection_solve.
  pose proof (SolverResidual.bisection_trace_early M market_price S K T r q type tol) as Hbis.
  generalize dependent (ImpliedVolSolver.bisection_trace M market_price S K T r q type tol).
  intros [x nb]. cbn [fst snd]. intros Hbis.
  pose proof (SolverResidual.newton_converged M market_price S K T r q type tol
                (Z.to_nat max_iter) (ImpliedVolSolver.initial_guess market_price S T)) as Hnewton.
  destruct (ImpliedVolSolver.newton _ _ _ _ _ _ _ _ _ _ _) as [[s | s | s] n];
    cbn [fst snd]; intros Hn.
  - exact (Hnewton s n eq_refl).
  - exact (Hbis Hn).
  - exact (Hbis Hn).
Qed.

(** X2, run: the deep out-of-the-money call, solved in 21 bisection iterations. *)
Lemma solve_reprices_within_tol_witness :
  let sigma :=
    ImpliedVolSolver.solve Ref.libm 0.00011808745143169 100 150 0.25 0.05 0 CALL 1e-8 100 in
  (abs (PricingResult.price
          (BlackScholes.price Ref.libm (OptionParams.mk 100 150 0.25 0.05 sigma 0 CALL EUROPEAN))
        - 0.00011808745143169) <? 1e-8) = true.
Proof.
  apply (solve_reprices_within_tol Ref.libm 0.00011808745143169 100 150 0.25 0.05 0
           CALL 1e-8 100).
  vm_compute. lia.
Defined.

End SolverProperties.

Module UnpricedMarket.
Import Binary64 NaNRewriting.
Section UnpricedMarket.
Context (M : Libm).
Context (market_price S K T r q : float) (type : OptionType) (tol : float).
Local Open Scope float_scope.

Local Abbreviation model_price_at := (ImpliedVolSolver.model_price_at M S K T r q type).
Local Abbreviation newton := (ImpliedVolSolver.newton M market_price S K T r q type tol).
Local Abbreviation bisect := (ImpliedVolSolver.bisect M market_price S K T r q type tol).

(** A market price no model price is within [tol] of, or above. *)
Definition unpriced : Prop :=
  forall x : float, (abs (x - market_price) <? tol) = false /\ (market_price <? x) = false.

Hypothesis Hm : unpriced.

Lemma newton_never_returns (budget : nat) :
  forall sigma, ImpliedVolSolver.returned (fst (newton budget sigma)) = false.
Proof.
  induction budget as [ | budget IH ]; intros sigma; cbn [ImpliedVolSolver.newton]; [ done | ].
  destruct (Hm (model_price_at sigma)) as [-> _].
  destruct (abs (ImpliedVolSolver.vega_at M S K T r q type sigma) <? 1e-12); [ done | ].
  match goal with |- context [newton budget ?x] => specialize (IH x) end.
  now destruct (newton budget _) as [e k].
Qed.

(** Bisection then moves its lower end up at every iteration. *)
Lemma bisect_upper (budget : nat) :
  forall lo hi,
    bisect budget lo hi = ((Nat.iter budget (fun lo => (lo + hi) / 2) lo + hi) / 2, budget).
Proof.
  induction budget as [ | budget IH ]; intros lo hi; cbn [ImpliedVolSolver.bisect]; [ done | ].
  destruct (Hm (model_price_at ((lo + hi) / 2))) as [-> ->].
  rewrite IH, Nat.iter_succ_r. done.
Qed.

Lemma solve_upper (max_iter : Z) :
  ImpliedVolSolver.solve_trace M market_price S K T r q type tol max_iter
  = (5, (snd (newton (Z.to_nat max_iter) (ImpliedVolSolver.initial_guess market_price S T)),
         200%nat)).
Proof.
  unfold ImpliedVolSolver.solve_trace.
  pose proof (newton_never_returns (Z.to_nat max_iter)
                (ImpliedVolSolver.initial_guess market_price S T)) as Hn.
  assert (ImpliedVolSolver.bisection_trace M market_price S K T r q type tol = (5, 200%nat))
    as Htrace.
  { unfold ImpliedVolSolver.bisection_trace. rewrite bisect_upper.
    apply (f_equal2 pair); [ vm_compute; reflexivity | reflexivity ]. }
  unfold ImpliedVolSolver.bisection_solve. rewrite Htrace.
  destruct (newton _ _) as [[s | s | s] n]; cbn [fst snd ImpliedVolSolver.returned] in *;
    [ discriminate | reflexivity .. ].
Qed.

End UnpricedMarket.

Lemma unpriced_nan (tol : float) : unpriced nan tol.
Proof. intros x. now autorewrite with nan_arith; rewrite !ltb_nan_l. Qed.

Lemma unpriced_infinity (tol : float) : unpriced infinity tol.
Proof.
  intros x. rewrite !FloatAxioms.ltb_spec, FloatAxioms.abs_spec, FloatAxioms.sub_spec.
  change (Prim2SF infinity) with (S754_infinity false).
  destruct (Prim2SF x) as [ [ | ] | [ | ] | | [ | ] m e ];
    cbn [SF64sub SFsub SFabs SFltb SFcompare negb]; split; try reflexivity;
    now destruct (Prim2SF tol) as [ [ | ] | [ | ] | | [ | ] m' e' ].
Qed.

End UnpricedMarket.

Section UnpricedProperties.
Import Binary64 NaNRewriting.
Local Open Scope float_scope.

(** X3. A market price that is NaN or [+infinity] is not rejected: Newton-Raphson
    never converges on it, bisection runs its 200 iterations raising the
    lower end each time, and [solve] returns exactly [5.0], the upper end of
    the bracket, for every contract, tolerance and budget. *)
Theorem solve_unpriced_returns_upper_end (M : Libm) (S K T r q : float)
    (type : OptionType) (tol : float) (max_iter : Z) :
  ImpliedVolSolver.solve M nan S K T r q type tol max_iter = 5 /\
  ImpliedVolSolver.solve M infinity S K T r q type tol max_iter = 5 /\
  snd (snd (ImpliedVolSolver.solve_trace M nan S K T r q type tol max_iter)) = 200%nat /\
  snd (snd (ImpliedVolSolver.solve_trace M infinity S K T r q type tol max_iter)) = 200%nat.
Proof.
  unfold ImpliedVolSolver.solve.
  rewrite (UnpricedMarket.solve_upper M nan S K T r q type tol
             (UnpricedMarket.unpriced_nan tol) max_iter).
  rewrite (UnpricedMarket.solve_upper M infinity S K T r q type tol
             (UnpricedMarket.unpriced_infinity tol) max_iter).
  repeat split.
Qed.

End UnpricedProperties.

(** ** The calibrator and the synthetic quotes *)

Module AggregateFacts.
Import Binary64.
Local Open Scope float_scope.

(** One step of the reduction loop on the running maximum. *)
Lemma std_max_spec (m e : float) :
  m <> nan ->
  std_max m e <> nan /\ (m <=? std_max m e) = true /\ (std_max m e <? e) = false /\
  (std_max m e = m \/ std_max m e = e).
Proof.
  intros Hm. unfold std_max. destruct (m <? e) eqn:E.
  - pose proof E as (_ & He & Hlt)%ltb_iff.
    split; [ exact He | ]. split; [ apply leb_iff; repeat split; try done; lia | ].
    split; [ apply ltb_false_iff; right; right; lia | now right ].
  - split; [ exact Hm | ]. split; [ apply leb_iff; repeat split; try done; lia | ].
    split; [ exact E | now left ].
Qed.

Lemma ltb_false_mono (m m' e : float) :
  (m <? e) = false -> (m <=? m') = true -> (m' <? e) = false.
Proof.
  intros H (Hm & Hm' & Hle)%leb_iff. apply ltb_false_iff in H. apply ltb_false_iff.
  destruct H as [ H | [ H | H ] ]; [ done | now right; left | right; right; lia ].
Qed.

Lemma aggregate_loop (pts : list VolSurfacePoint.t) :
  forall (s0 m0 : float),
    m0 <> nan ->
    let m := snd (fold_left
                    (fun '(sse, max_error) pt =>
                       (sse + VolSurfacePoint.error pt * VolSurfacePoint.error pt,
                        std_max max_error (VolSurfacePoint.error pt)))
                    pts (s0, m0)) in
    (m0 <=? m) = true /\
    Forall (fun pt => (m <? VolSurfacePoint.error pt) = false) pts /\
    (m = m0 \/ Exists (fun pt => m = VolSurfacePoint.error pt) pts).
Proof.
  induction pts as [ | pt pts IH ]; intros s0 m0 Hm0; cbn [fold_left snd].
  - split; [ apply leb_iff; repeat split; try done; lia | ]. split; [ constructor | now left ].
  - destruct (std_max_spec m0 (VolSurfacePoint.error pt) Hm0) as (Hn & Hle & Hlt & Hor).
    specialize (IH (s0 + VolSurfacePoint.error pt * VolSurfacePoint.error pt)
                   (std_max m0 (VolSurfacePoint.error pt)) Hn).
    cbv zeta in IH. destruct IH as (Hle' & Hall & Hex).
    set (m := snd (fold_left _ pts _)) in *.
    split; [ exact (leb_trans _ _ _ Hle Hle') | ].
    split; [ constructor; [ exact (ltb_false_mono _ _ _ Hlt Hle') | exact Hall ] | ].
    destruct Hex as [ Hex | Hex ]; [ | right; now apply Exists_cons_tl ].
    destruct Hor as [ Hor | Hor ]; [ left; congruence | ].
    right. apply Exists_cons_hd. congruence.
Qed.

End AggregateFacts.

Section CalibratorProperties.
Local Open Scope float_scope.

(** X4. Every point of the calibrated surface is consistent with its quote: it
    carries the quote's market price, an implied volatility in [0.001, 10.0],
    the analytic price at that volatility as its model price, and the
    absolute difference of the two prices as its error. *)
Theorem calibrate_points_consistent (M : Libm) (spot rate div_yield : float)
    (quotes : list MarketQuote.t) :
  Forall2
    (fun q pt =>
       VolSurfacePoint.market_price pt = MarketQuote.market_price q /\
       (0.001 <=? VolSurfacePoint.implied_vol pt) = true /\
       (VolSurfacePoint.implied_vol pt <=? 10.0) = true /\
       VolSurfacePoint.model_price pt =
         PricingResult.price
           (BlackScholes.price M
              (OptionParams.mk spot (MarketQuote.strike q) (MarketQuote.expiry q) rate
                 (VolSurfacePoint.implied_vol pt) div_yield (MarketQuote.type q) EUROPEAN)) /\
       VolSurfacePoint.error pt =
         abs (VolSurfacePoint.model_price pt - VolSurfacePoint.market_price pt))
    quotes
    (CalibrationResult.surface (VolSurface.calibrate M spot rate div_yield quotes)).
Proof.
  destruct (CalibratorFacts.calibrate_in_surface M spot rate div_yield quotes
              (seq 0 (length quotes)) ltac:(reflexivity)) as [_ Hsurface].
  unfold VolSurface.calibrate. rewrite Hsurface.
  change (map ?f ?l) with (f <$> l). apply Forall2_fmap_r, Forall_Forall2_diag, Forall_forall.
  intros q _. unfold VolSurface.calibrate_quote.
  cbn [VolSurfacePoint.market_price VolSurfacePoint.implied_vol VolSurfacePoint.model_price
       VolSurfacePoint.error].
  destruct (SolverResidual.solve_in_range M (MarketQuote.market_price q) spot
              (MarketQuote.strike q) (MarketQuote.expiry q) rate div_yield
              (MarketQuote.type q) 1e-8 100) as [Hlo Hhi].
  split; [ reflexivity | ]. split; [ exact Hlo | ]. split; [ exact Hhi | ].
  split; reflexivity.
Qed.

(** X5. The [max_error] of a calibration is never NaN and never negative, no
    point of the surface has an error above it, and it is [0] or the error
    of one of the points.  A point whose error is NaN is passed over. *)
Theorem calibrate_max_error (M : Libm) (spot rate div_yield : float)
    (quotes : list MarketQuote.t) :
  let result := VolSurface.calibrate M spot rate div_yield quotes in
  (0 <=? CalibrationResult.max_error result) = true /\
  Forall (fun pt => (CalibrationResult.max_error result <? VolSurfacePoint.error pt) = false)
         (CalibrationResult.surface result) /\
  (CalibrationResult.max_error result = 0 \/
   Exists (fun pt => CalibrationResult.max_error result = VolSurfacePoint.error pt)
          (CalibrationResult.surface result)).
Proof.
  cbv zeta. unfold VolSurface.calibrate, VolSurface.calibrate_in.
  set (surface := fold_left _ _ _).
  pose proof (AggregateFacts.aggregate_loop surface 0 0 ltac:(discriminate)) as H.
  cbv zeta in H. fold (VolSurface.aggregate surface) in H.
  destruct (VolSurface.aggregate surface) as [sse max_error].
  cbn [snd CalibrationResult.max_error CalibrationResult.surface] in *. exact H.
Qed.

End CalibratorProperties.

Section PoisonedCalibration.
Import Binary64 NaNRewriting.
Local Open Scope float_scope.

Lemma sse_nan (pts : list VolSurfacePoint.t) :
  forall s0 m0 : float,
    s0 = nan \/ Exists (fun pt => VolSurfacePoint.error pt = nan) pts ->
    fst (fold_left
           (fun '(sse, max_error) pt =>
              (sse + VolSurfacePoint.error pt * VolSurfacePoint.error pt,
               std_max max_error (VolSurfacePoint.error pt)))
           pts (s0, m0)) = nan.
Proof.
  induction pts as [ | pt pts IH ]; intros s0 m0 H; cbn [fold_left fst].
  - destruct H as [ H | H ]; [ exact H | now apply Exists_nil in H ].
  - apply IH. destruct H as [ -> | H ]; [ left; apply add_nan_l | ].
    apply Exists_cons in H as [ -> | H ]; [ left | now right ].
    now rewrite mul_nan_l, add_nan_r.
Qed.

(** X6. One quote whose market price is NaN makes the [total_rmse] of the whole
    calibration NaN (its error is NaN and enters the sum of squares), while
    [max_error] passes it over. *)
Theorem calibrate_nan_quote_poisons_rmse (M : Libm) (spot rate div_yield : float)
    (quotes : list MarketQuote.t) (q : MarketQuote.t) :
  q ∈ quotes -> MarketQuote.market_price q = nan ->
  CalibrationResult.total_rmse (VolSurface.calibrate M spot rate div_yield quotes) = nan.
Proof.
  intros Hq Hnan.
  destruct (CalibratorFacts.calibrate_in_surface M spot rate div_yield quotes
              (seq 0 (length quotes)) ltac:(reflexivity)) as [_ Hsurface].
  unfold VolSurface.calibrate in *. unfold VolSurface.calibrate_in in *.
  set (surface := fold_left _ _ _) in *.
  assert (fst (VolSurface.aggregate surface) = nan) as Hsse.
  { apply sse_nan. right.
    destruct (VolSurface.aggregate surface) as [sse max_error]. cbn [CalibrationResult.surface] in Hsurface.
    rewrite Hsurface. change (map ?f ?l) with (f <$> l).
    apply Exists_fmap, Exists_exists. exists q. split; [ exact Hq | ].
    unfold compose, VolSurface.calibrate_quote. cbv beta zeta. cbn [VolSurfacePoint.error].
    now rewrite Hnan, sub_nan_r. }
  destruct (VolSurface.aggregate surface) as [sse max_error].
  cbn [fst CalibrationResult.total_rmse] in *. subst sse.
  now rewrite div_nan_l.
Qed.

(** X6, run: the second of two quotes has no price. *)
Lemma calibrate_nan_quote_poisons_rmse_witness :
  CalibrationResult.total_rmse
    (VolSurface.calibrate Ref.libm 100 0.05 0
       [MarketQuote.mk 90 0.5 12.5 CALL; MarketQuote.mk 110 1 nan PUT]) = nan.
Proof.
  apply (calibrate_nan_quote_poisons_rmse Ref.libm 100 0.05 0
           [MarketQuote.mk 90 0.5 12.5 CALL; MarketQuote.mk 110 1 nan PUT]
           (MarketQuote.mk 110 1 nan PUT)).
  - apply list_elem_of_further, list_elem_of_here.
  - reflexivity.
Defined.

End PoisonedCalibration.

Module QuoteGridFacts.
Section QuoteGridFacts.
Context {A B : Type}.

(** A loop of [push_back]s appends the images in order. *)
Lemma push_back_loop (f : B -> A) (l : list B) :
  forall acc : list A, fold_left (fun out x => out ++ [f x]) l acc = acc ++ (f <$> l).
Proof.
  induction l as [ | x l IH ]; intros acc; cbn [fold_left].
  - by rewrite app_nil_r.
  - rewrite IH, <- app_assoc. done.
Qed.

(** Two nested loops of [push_back]s traverse the grid row by row. *)
Lemma nested_push_back_loop {C : Type} (f : C -> B -> A) (rows : list C) (cols : list B) :
  forall acc : list A,
    fold_left (fun out y => fold_left (fun out x => out ++ [f y x]) cols out) rows acc
    = acc ++ mjoin ((fun y => f y <$> cols) <$> rows).
Proof.
  induction rows as [ | y rows IH ]; intros acc; cbn [fold_left].
  - by rewrite app_nil_r.
  - rewrite IH, push_back_loop, <- app_assoc. done.
Qed.

End QuoteGridFacts.
End QuoteGridFacts.

Module GeneratedQuotes.
Section GeneratedQuotes.
Context (M : Libm) (spot rate : float).
Context (strikes expiries : list float) (base_vol skew smile : float).
Local Open Scope float_scope.

Local Abbreviation quotes :=
  (VolSurface.generate_market_quotes M spot rate strikes expiries base_vol skew smile).

Lemma length_generated : length quotes = (length expiries * length strikes)%nat.
Proof.
  unfold VolSurface.generate_market_quotes.
  rewrite QuoteGridFacts.nested_push_back_loop, app_nil_l.
  rewrite length_join, (sum_list_fmap_same (length strikes)).
  - by rewrite length_fmap.
  - apply Forall_fmap, Forall_forall. intros T' _. cbn. apply length_fmap.
Qed.

(** The quote of expiry number [i] and strike number [j]. *)
Lemma lookup_generated (i j : nat) (T K : float) :
  expiries !! i = Some T -> strikes !! j = Some K ->
  quotes !! (i * length strikes + j)%nat
  = Some (VolSurface.synthetic_quote M spot rate base_vol skew smile T K).
Proof.
  intros HT HK. unfold VolSurface.generate_market_quotes.
  rewrite QuoteGridFacts.nested_push_back_loop, app_nil_l.
  set (row := fun T => VolSurface.synthetic_quote M spot rate base_vol skew smile T <$> strikes).
  apply (join_lookup_Some_same_length' (length strikes) _ i j).
  - apply Forall_fmap, Forall_forall. intros T' _. unfold row. cbn. apply length_fmap.
  - by apply lookup_lt_Some in HK.
  - exists (row T). split.
    + by rewrite list_lookup_fmap, HT.
    + unfold row. by rewrite list_lookup_fmap, HK.
Qed.

End GeneratedQuotes.
End GeneratedQuotes.

Section QuoteGridProperties.
Local Open Scope float_scope.

(** X7. [generate_market_quotes] lays the grid out expiry by expiry: it returns
    one quote per pair of an expiry and a strike, and the quote of expiry
    number [i] and strike number [j] is at index [i * strikes.size() + j],
    carrying that strike and that expiry; it is a call exactly when the
    strike is not below the spot. *)
Theorem generate_market_quotes_grid (M : Libm) (spot rate : float)
    (strikes expiries : list float) (base_vol skew smile : float)
    (i j : nat) (T K : float) :
  expiries !! i = Some T -> strikes !! j = Some K ->
  let quotes :=
    VolSurface.generate_market_quotes M spot rate strikes expiries base_vol skew smile in
  length quotes = (length expiries * length strikes)%nat /\
  exists price,
    quotes !! (i * length strikes + j)%nat
    = Some (MarketQuote.mk K T price (if spot <=? K then CALL else PUT)).
Proof.
  intros HT HK. cbv zeta. split; [ apply GeneratedQuotes.length_generated | ].
  eexists. rewrite (GeneratedQuotes.lookup_generated _ _ _ _ _ _ _ _ i j T K HT HK).
  unfold VolSurface.synthetic_quote. reflexivity.
Qed.

(** X7, run: three strikes and two expiries; the quote of the second expiry and
    the first strike is the fourth. *)
Lemma generate_market_quotes_grid_witness :
  let strikes := [90; 100; 110] in
  let expiries := [0.5; 1] in
  let quotes :=
    VolSurface.generate_market_quotes Ref.libm 100 0.05 strikes expiries 0.2 (-0.1) 0.05 in
  length quotes = (length expiries * length strikes)%nat /\
  exists price,
    quotes !! (1 * length strikes + 0)%nat
    = Some (MarketQuote.mk 90 1 price (if 100 <=? 90 then CALL else PUT)).
Proof.
  apply (generate_market_quotes_grid Ref.libm 100 0.05 [90; 100; 110] [0.5; 1] 0.2 (-0.1) 0.05
           1 0 1 90); reflexivity.
Defined.

(** X23. Calibrating the generated quotes keeps the layout of the grid: the
    surface has one point per pair of an expiry and a strike, and the point
    at index [i * strikes.size() + j] carries strike number [j], expiry
    number [i] and an implied volatility in [0.001, 10.0]. *)
Theorem calibrate_generated_grid (M : Libm) (spot rate div_yield : float)
    (strikes expiries : list float) (base_vol skew smile : float)
    (i j : nat) (T K : float) :
  expiries !! i = Some T -> strikes !! j = Some K ->
  let quotes :=
    VolSurface.generate_market_quotes M spot rate strikes expiries base_vol skew smile in
  let surface :=
    CalibrationResult.surface (VolSurface.calibrate M spot rate div_yield quotes) in
  length surface = (length expiries * length strikes)%nat /\
  exists pt,
    surface !! (i * length strikes + j)%nat = Some pt /\
    VolSurfacePoint.strike pt = K /\ VolSurfacePoint.expiry pt = T /\
    (0.001 <=? VolSurfacePoint.implied_vol pt) = true /\
    (VolSurfacePoint.implied_vol pt <=? 10.0) = true.
Proof.
  intros HT HK. cbv zeta.
  set (quotes := VolSurface.generate_market_quotes M spot rate strikes expiries base_vol skew smile).
  destruct (CalibratorFacts.calibrate_in_surface M spot rate div_yield quotes
              (seq 0 (length quotes)) ltac:(reflexivity)) as [_ Hsurface].
  unfold VolSurface.calibrate. rewrite Hsurface. change (map ?f ?l) with (f <$> l).
  split; [ rewrite length_fmap; apply GeneratedQuotes.length_generated | ].
  eexists. split.
  - rewrite list_lookup_fmap. unfold quotes.
    rewrite (GeneratedQuotes.lookup_generated _ _ _ _ _ _ _ _ i j T K HT HK). reflexivity.
  - unfold VolSurface.calibrate_quote, VolSurface.synthetic_quote. cbv zeta.
    cbn [VolSurfacePoint.strike VolSurfacePoint.expiry VolSurfacePoint.implied_vol
         MarketQuote.strike MarketQuote.expiry MarketQuote.market_price MarketQuote.type].
    split; [ reflexivity | ]. split; [ reflexivity | ].
    apply SolverResidual.solve_in_range.
Qed.

(** X23, run: the same grid, calibrated. *)
Lemma calibrate_generated_grid_witness :
  let strikes := [90; 100; 110] in
  let expiries := [0.5; 1] in
  let quotes :=
    VolSurface.generate_market_quotes Ref.libm 100 0.05 strikes expiries 0.2 (-0.1) 0.05 in
  let surface :=
    CalibrationResult.surface (VolSurface.calibrate Ref.libm 100 0.05 0 quotes) in
  length surface = (length expiries * length strikes)%nat /\
  exists pt,
    surface !! (1 * length strikes + 0)%nat = Some pt /\
    VolSurfacePoint.strike pt = 90 /\ VolSurfacePoint.expiry pt = 1 /\
    (0.001 <=? VolSurfacePoint.implied_vol pt) = true /\
    (VolSurfacePoint.implied_vol pt <=? 10.0) = true.
Proof.
  apply (calibrate_generated_grid Ref.libm 100 0.05 0 [90; 100; 110] [0.5; 1] 0.2 (-0.1) 0.05
           1 0 1 90); reflexivity.
Defined.

End QuoteGridProperties.

(** ** The analytic pricer, its Greeks and the normal distribution *)

Section AnalyticNaN.
Import Binary64 NaNRewriting.
Local Open Scope float_scope.

(** X8. A NaN in the spot, the strike, the time to expiry or the volatility is
    never caught: [BlackScholes::price] returns, and the price it returns is
    NaN, for a call and for a put and whatever the C library computes. *)
Theorem black_scholes_nan_propagates (M : Libm) (p : OptionParams.t) :
  OptionParams.S p = nan \/ OptionParams.K p = nan \/
  OptionParams.T p = nan \/ OptionParams.sigma p = nan ->
  PricingResult.price (BlackScholes.price M p) = nan.
Proof.
  intros [ H | [ H | [ H | H ] ] ].
  - unfold BlackScholes.price. cbn [PricingResult.price]. rewrite H.
    destruct (OptionParams.type p); now autorewrite with nan_arith.
  - unfold BlackScholes.price. cbn [PricingResult.price]. rewrite H.
    destruct (OptionParams.type p); now autorewrite with nan_arith.
  - apply SolverFacts.price_nan_d1. unfold BlackScholes.calc_d1. rewrite H.
    change (PrimFloat.sqrt nan) with nan. now autorewrite with nan_arith.
  - apply SolverFacts.price_nan_d1. unfold BlackScholes.calc_d1. rewrite H.
    now autorewrite with nan_arith.
Qed.

(** X8, run: a put on a spot that is NaN. *)
Lemma black_scholes_nan_propagates_witness :
  PricingResult.price
    (BlackScholes.price Ref.libm (OptionParams.mk nan 105 1 0.05 0.2 0 PUT EUROPEAN)) = nan.
Proof.
  apply (black_scholes_nan_propagates Ref.libm
           (OptionParams.mk nan 105 1 0.05 0.2 0 PUT EUROPEAN)).
  left. reflexivity.
Defined.

End AnalyticNaN.

Section GreeksProperties.
Import Binary64 NaNRewriting.
Local Open Scope float_scope.

(** X9. For a contract past its expiry ([T < 0]) every closed-form Greek is NaN,
    whatever the C library computes: [sqrt(T)] is NaN and reaches each of the
    seven formulas.  [charm] and [speed] stay [0]. *)
Theorem all_greeks_nan_past_expiry (M : Libm) (p : OptionParams.t) :
  (OptionParams.T p <? 0) = true ->
  BlackScholes.all_greeks M p = Greeks.mk nan nan nan nan nan nan nan 0 0.
Proof.
  intros HT. pose proof (sqrt_negative _ HT) as Hsqrt.
  assert (BlackScholes.calc_d1 M p = nan) as Hd1.
  { unfold BlackScholes.calc_d1. rewrite Hsqrt. now autorewrite with nan_arith. }
  unfold BlackScholes.all_greeks, BlackScholes.delta, BlackScholes.gamma, BlackScholes.theta,
    BlackScholes.vega, BlackScholes.rho, BlackScholes.vanna, BlackScholes.volga.
  cbv zeta. rewrite Hd1, Hsqrt. autorewrite with nan_arith.
  rewrite (SolverFacts.norm_cdf_nan M).
  destruct (OptionParams.type p); autorewrite with nan_arith; reflexivity.
Qed.

(** X9, run: a put one year past its expiry. *)
Lemma all_greeks_nan_past_expiry_witness :
  BlackScholes.all_greeks Ref.libm (OptionParams.mk 100 105 (-1) 0.05 0.2 0 PUT EUROPEAN)
  = Greeks.mk nan nan nan nan nan nan nan 0 0.
Proof.
  apply (all_greeks_nan_past_expiry Ref.libm
           (OptionParams.mk 100 105 (-1) 0.05 0.2 0 PUT EUROPEAN)).
  reflexivity.
Defined.

End GreeksProperties.

Section NormalReflection.
Import Binary64 Binary64Exact.
Local Open Scope float_scope.

Lemma fval_opp (x : float) : fval (- x) = (- fval x)%Z.
Proof. unfold fval. rewrite FloatAxioms.opp_spec. apply ival_opp. Qed.

Lemma opp_not_nan (x : float) : x <> nan -> - x <> nan.
Proof. intros Hx E. apply Hx. rewrite <- (opp_involutive x), E. reflexivity. Qed.

Lemma abs_opp (x : float) : abs (- x) = abs x.
Proof.
  apply Prim2SF_inj. rewrite !FloatAxioms.abs_spec, FloatAxioms.opp_spec.
  now destruct (Prim2SF x) as [ [ | ] | [ | ] | | [ | ] ? ? ].
Qed.

(** The two sides of [norm_cdf] come from one double. *)
Lemma norm_cdf_mirror (M : Libm) (x : float) :
  (x <? 0) = true \/ (0 <? x) = true ->
  exists w : float,
    norm_cdf M x = 0.5 * (1 + w) /\ norm_cdf M (- x) = 0.5 * (1 + - w).
Proof.
  intros Hx.
  assert (x <> nan /\ fval x <> 0%Z) as [Hn H0].
  { destruct Hx as [ (Hn & _ & H)%ltb_iff | (_ & Hn & H)%ltb_iff ];
      change (fval 0) with 0%Z in H; split; (exact Hn || lia). }
  pose proof (opp_not_nan x Hn) as Hn'. pose proof (fval_opp x) as Ho.
  assert (fval 8 = 2 ^ 1077 /\ fval (-8) = - 2 ^ 1077 /\ 0 < 2 ^ 1077)%Z as (H8 & H8' & Hp)
    by (vm_compute; repeat split; reflexivity).
  set (big := (2 ^ 1077)%Z) in *.
  assert (8 <> nan /\ -8 <> nan /\ 0 <> nan) as (N8 & N8' & N0) by (repeat split; discriminate).
  unfold norm_cdf. rewrite abs_opp.
  destruct (8 <? x) eqn:E1.
  { apply ltb_iff in E1 as (_ & _ & E1).
    assert ((8 <? - x) = false) as -> by (apply ltb_false_iff; right; right; lia).
    assert ((- x <? -8) = true) as -> by (apply ltb_iff; repeat split; try done; lia).
    exists 1. split; reflexivity. }
  destruct (x <? -8) eqn:E2.
  { apply ltb_iff in E2 as (_ & _ & E2).
    assert ((8 <? - x) = true) as -> by (apply ltb_iff; repeat split; try done; lia).
    exists (-1). split; reflexivity. }
  apply ltb_false_iff in E1 as [ | [ | E1 ] ]; try done.
  apply ltb_false_iff in E2 as [ | [ | E2 ] ]; try done.
  assert ((8 <? - x) = false) as -> by (apply ltb_false_iff; right; right; lia).
  assert ((- x <? -8) = false) as -> by (apply ltb_false_iff; right; right; lia).
  cbv zeta.
  set (y := 1 - _ * exp M _).
  change (fval 0) with 0%Z in *.
  destruct (0 <=? x) eqn:E3.
  - apply leb_iff in E3 as (_ & _ & E3). change (fval 0) with 0%Z in E3.
    assert ((0 <=? - x) = false) as ->.
    { destruct (0 <=? - x) eqn:E; [ | reflexivity ].
      apply leb_iff in E as (_ & _ & E). change (fval 0) with 0%Z in E. lia. }
    exists (1 * y). split; [ reflexivity | ].
    change (-1) with (- (1)). now rewrite mul_opp_l.
  - assert ((0 <=? - x) = true) as ->.
    { apply leb_iff. change (fval 0) with 0%Z. repeat split; try done.
      destruct (Z_le_gt_dec 0 (fval x)) as [ Hle | Hgt ]; [ exfalso | lia ].
      assert ((0 <=? x) = true) by (apply leb_iff; change (fval 0) with 0%Z; done).
      congruence. }
    exists (-1 * y). split; [ reflexivity | ].
    change (-1) with (- (1)). now rewrite mul_opp_l, opp_involutive.
Qed.

(** X10. [norm_cdf] reflects exactly around one half: for every [x] that is
    neither a zero nor NaN there is one double [w] with
    [norm_cdf(x) = 0.5 * (1 + w)] and [norm_cdf(-x) = 0.5 * (1 - w)], in the
    saturated tails as well.  (At a zero both values are the same
    [0.5 * (1 + w)].) *)
Theorem norm_cdf_reflection (M : Libm) (x : float) :
  (x <? 0) = true \/ (0 <? x) = true ->
  exists w : float,
    norm_cdf M x = 0.5 * (1 + w) /\ norm_cdf M (- x) = 0.5 * (1 + - w).
Proof. exact (norm_cdf_mirror M x). Qed.

(** X10, run: [x = 0.5]. *)
Lemma norm_cdf_reflection_witness :
  exists w : float,
    norm_cdf Ref.libm 0.5 = 0.5 * (1 + w) /\ norm_cdf Ref.libm (- 0.5) = 0.5 * (1 + - w).
Proof.
  apply (norm_cdf_reflection Ref.libm 0.5). right. reflexivity.
Defined.

End NormalReflection.

Section NormalDensity.
Import Binary64Exact.
Local Open Scope float_scope.

(** X11. [norm_pdf] is even, to the last bit: [norm_pdf(-x)] and [norm_pdf(x)]
    are the same double for every [x] (NaN included) and whatever [exp]
    computes, since negating [x] leaves the argument [-0.5 * x * x] of [exp]
    unchanged. *)
Theorem norm_pdf_even (M : Libm) (x : float) : norm_pdf M (- x) = norm_pdf M x.
Proof.
  unfold norm_pdf. cbv zeta. do 2 f_equal.
  now rewrite !mul_opp_r, mul_opp_l, opp_involutive.
Qed.

End NormalDensity.

Section PayoffProperties.
Import Binary64 Binary64Exact.
Local Open Scope float_scope.

(** A difference and its mirror image, through [std::max(., 0.0)]. *)
Lemma payoff_pair (d d' : float) :
  Prim2SF d' = SFopp (Prim2SF d) \/ (d = 0 /\ d' = 0) ->
  std_max d 0 - std_max d' 0 = d.
Proof.
  intros [ H | [-> ->] ]; [ | reflexivity ].
  unfold std_max. rewrite !FloatAxioms.ltb_spec, H. change (Prim2SF 0) with (S754_zero false).
  destruct (Prim2SF d) as [ [ | ] | [ | ] | | [ | ] m e ] eqn:E;
    cbn [SFopp SFltb SFcompare negb] in *;
    apply Prim2SF_inj; rewrite FloatAxioms.sub_spec, ?E, ?H;
    change (Prim2SF 0) with (S754_zero false); reflexivity.
Qed.

(** X12. Payoff parity, to the last bit: for every pair of doubles, NaN, zeros
    and infinities included, the call payoff minus the put payoff is the
    double [S - K]; and no payoff compares below zero. *)
Theorem payoff_parity (S K : float) :
  intrinsic_value S K CALL - intrinsic_value S K PUT = S - K /\
  (intrinsic_value S K CALL <? 0) = false /\
  (intrinsic_value S K PUT <? 0) = false.
Proof.
  unfold intrinsic_value. split; [ | split; apply std_max_not_below ].
  apply payoff_pair. rewrite !FloatAxioms.sub_spec.
  destruct (SFsub_swap (Prim2SF S) (Prim2SF K)) as [ H | [H1 H2] ]; [ now left | right ].
  split; apply Prim2SF_inj; now rewrite FloatAxioms.sub_spec.
Qed.

End PayoffProperties.

(** ** The binomial lattice *)

Module LatticeFacts.
Import Binary64.
Section LatticeFacts.
Context (M : Libm).
Local Open Scope float_scope.

Lemma length_sweep (p : OptionParams.t) (u d df prob : float) (step : nat) :
  forall prices, length (BinomialTree.sweep M p u d df prob prices step) = length prices.
Proof.
  unfold BinomialTree.sweep. generalize (seq 0 (step + 1)).
  intros l. induction l as [ | i l IH ]; intros prices; cbn [fold_left]; [ done | ].
  rewrite IH. destruct (OptionParams.style p); apply length_insert.
Qed.

Lemma length_sweeps (p : OptionParams.t) (u d df prob : float) (steps : list nat) :
  forall prices,
    length (fold_left (BinomialTree.sweep M p u d df prob) steps prices) = length prices.
Proof.
  induction steps as [ | s steps IH ]; intros prices; cbn [fold_left]; [ done | ].
  now rewrite IH, length_sweep.
Qed.


End LatticeFacts.
End LatticeFacts.

Section LatticeProperties.
Local Open Scope float_scope.

(** X13. The price [BinomialTree::price] returns for an American contract never
    compares below the value of exercising at once, as the tree computes it
    at the root: the last write to [prices[0]] is a [std::max] with it.  This
    holds for every step count and whatever the risk-neutral probability is. *)
Theorem american_price_not_below_exercise (M : Libm) (S K T r sigma q : float)
    (type : OptionType) (steps : nat) :
  let p := OptionParams.mk S K T r sigma q type AMERICAN in
  let dt := T / of_int (Z.of_nat steps) in
  let u := exp M (sigma * PrimFloat.sqrt dt) in
  let d := 1 / u in
  let exercise := intrinsic_value (S * pow M u 0 * pow M d 0) K type in
  (PricingResult.price (BinomialTree.price M p steps) <? exercise) = false.
Proof.
  cbv zeta. unfold BinomialTree.price.
  cbn [OptionParams.S OptionParams.K OptionParams.T OptionParams.r OptionParams.sigma
       OptionParams.q OptionParams.type PricingResult.price].
  set (dt := T / of_int (Z.of_nat steps)).
  set (u := exp M (sigma * PrimFloat.sqrt dt)). set (d := 1 / u).
  set (df := exp M (- r * dt)). set (prob := (exp M ((r - q) * dt) - d) / (u - d)).
  set (p := OptionParams.mk S K T r sigma q type AMERICAN).
  set (prices := fill _ _ _).
  assert (length prices = Datatypes.S steps) as Hlen.
  { unfold prices. rewrite Vectors.fill_tabulate by (rewrite length_replicate; lia).
    rewrite length_map, length_seq. lia. }
  destruct steps as [ | steps ].
  - cbn [seq rev fold_left].
    unfold prices. rewrite Vectors.fill_tabulate by reflexivity.
    cbn [seq map nth Nat.add]. change (Z.of_nat 0 - Z.of_nat 0)%Z with 0%Z.
    change (Z.of_nat 0) with 0%Z. apply Binary64Exact.ltb_irrefl.
  - cbn [seq rev]. rewrite fold_left_app.
    set (before := fold_left _ (rev (seq 1 steps)) prices).
    assert (length before = Datatypes.S (Datatypes.S steps)) as Hb
      by (unfold before; now rewrite LatticeFacts.length_sweeps).
    destruct before as [ | x before ]; [ discriminate | ].
    cbn [fold_left BinomialTree.sweep seq Nat.add OptionParams.style].
    unfold BinomialTree.sweep. cbn [seq Nat.add fold_left OptionParams.style].
    unfold p at 1.
    cbn [OptionParams.S OptionParams.K OptionParams.type OptionParams.style].
    cbn [insert list_insert nth].
    change (Z.of_nat 0 - Z.of_nat 0)%Z with 0%Z. change (Z.of_nat 0) with 0%Z.
    apply Binary64Exact.std_max_not_below.
Qed.

End LatticeProperties.

(** ** The Monte Carlo estimator on degenerate path counts *)

Section MonteCarloEdges.
Import Binary64 NaNRewriting.
Local Open Scope float_scope.

(** [x * 0.0 / 0.0] is NaN for every [x]. *)
Lemma mul_zero_div_zero (x : float) : x * 0 / 0 = nan.
Proof.
  apply Prim2SF_inj. rewrite FloatAxioms.div_spec, FloatAxioms.mul_spec.
  change (Prim2SF 0) with (S754_zero false). change (Prim2SF nan) with S754_nan.
  destruct (Prim2SF x) as [ [ | ] | [ | ] | | [ | ] m e ]; reflexivity.
Qed.

(** X14. With no path to simulate [MonteCarloEngine::price] does not fail: the
    sum [0.0] is divided by the path count [0], and both the price and the
    standard error it returns are NaN, for every contract, mode and seed.
    So does [price_multistep] when every thread is handed no path. *)
Theorem monte_carlo_no_paths (M : Libm) (R : Rng) (p : OptionParams.t)
    (vr : VarianceReduction) (seed : Z) (threads num_steps : nat) :
  MonteCarloEngine.price M R p 0 vr seed = PricingResult.mk nan nan 0 /\
  MonteCarloEngine.price_multistep M R p (replicate threads 0%nat) num_steps seed
    = PricingResult.mk nan nan 0.
Proof.
  split.
  - unfold MonteCarloEngine.price, MonteCarloEngine.estimate.
    change (MonteCarloEngine.simulate M p ?z 0) with (@nil float).
    destruct vr.
    1-3: unfold MonteCarloEngine.plain_estimate; cbv zeta;
         change (accumulate [] 0 / of_int (Z.of_nat 0)) with nan;
         change (MonteCarloEngine.sum_sq_dev [] nan / of_int (Z.of_nat 0 - 1) / of_int (Z.of_nat 0))
           with nan;
         change (PrimFloat.sqrt nan) with nan; now autorewrite with nan_arith.
    change (MonteCarloEngine.adjusted_payoffs M p ?z [] 0) with (@nil float).
    unfold MonteCarloEngine.control_variate_estimate. cbv zeta.
    change (accumulate [] 0) with 0. change (of_int (Z.of_nat 0)) with 0.
    rewrite mul_zero_div_zero.
    change (MonteCarloEngine.sum_sq_dev [] (0 / 0) / of_int (Z.of_nat 0 - 1) / 0) with nan.
    change (PrimFloat.sqrt nan) with nan. now autorewrite with nan_arith.
  - unfold MonteCarloEngine.price_multistep.
    assert (fold_right Nat.add 0%nat (replicate threads 0%nat) = 0%nat) as ->
      by (induction threads; [ reflexivity | assumption ]).
    assert (forall (f : nat -> gen R) k,
              concat (imap (fun tid count =>
                              MonteCarloEngine.thread_payoffs M R p
                                ((OptionParams.r p - OptionParams.q p
                                  - 0.5 * OptionParams.sigma p * OptionParams.sigma p)
                                 * (OptionParams.T p / of_int (Z.of_nat num_steps)))
                                (OptionParams.sigma p
                                 * PrimFloat.sqrt (OptionParams.T p / of_int (Z.of_nat num_steps)))
                                num_steps count (f tid))
                           (replicate k 0%nat)) = []) as Hnil.
    { intros f k. revert f. induction k as [ | k IH ]; intros f; [ reflexivity | ].
      cbn [replicate imap concat]. apply (IH (f ∘ Datatypes.S)). }
    cbv zeta. rewrite (Hnil (fun tid => seeded R (MonteCarloEngine.thread_seed seed tid))).
    change (accumulate [] 0 / of_int (Z.of_nat 0)) with nan.
    change (MonteCarloEngine.sum_sq_dev [] nan / of_int (Z.of_nat 0 - 1) / of_int (Z.of_nat 0))
      with nan.
    change (PrimFloat.sqrt nan) with nan. now autorewrite with nan_arith.
Qed.

End MonteCarloEdges.

Section OnePath.
Import Binary64 Binary64Exact NaNRewriting.
Local Open Scope float_scope.

(** The squared deviation of a single sample from its own mean, over
    [N - 1 = 0]: NaN for every sample. *)
Lemma one_sample_variance (x : float) :
  (0 + (x - (0 + x) / 1) * (x - (0 + x) / 1)) / 0 = nan.
Proof.
  destruct (Prim2SF x) as [ [ | ] | [ | ] | | s m e ] eqn:E.
  1-5: match type of E with _ = ?c =>
         match c with
         | S754_zero true => apply (Prim2SF_eq x (-0)) in E
         | S754_zero false => apply (Prim2SF_eq x 0) in E
         | S754_infinity true => apply (Prim2SF_eq x neg_infinity) in E
         | S754_infinity false => apply (Prim2SF_eq x infinity) in E
         | S754_nan => apply (Prim2SF_eq x nan) in E
         end
       end; subst x; reflexivity.
  rewrite (add_zero_l x s m e E), div_one, (sub_diag x s m e E). reflexivity.
Qed.

(** X15. With a single path the standard error is NaN, for every contract, mode
    and seed: the sum of squared deviations is divided by [N - 1 = 0]. *)
Theorem monte_carlo_one_path_std_error (M : Libm) (R : Rng) (p : OptionParams.t)
    (vr : VarianceReduction) (seed : Z) :
  PricingResult.std_error (MonteCarloEngine.price M R p 1 vr seed) = nan.
Proof.
  unfold MonteCarloEngine.price, MonteCarloEngine.estimate.
  set (z := MonteCarloEngine.draws M R vr 1 seed).
  assert (exists x, MonteCarloEngine.simulate M p z 1 = [x]) as [x ->]
    by (eexists; reflexivity).
  assert (forall df y,
            snd (MonteCarloEngine.plain_estimate df [y] 1) = nan /\
            snd (MonteCarloEngine.control_variate_estimate df [y] 1) = nan) as Hone.
  { intros df y.
    unfold MonteCarloEngine.plain_estimate, MonteCarloEngine.control_variate_estimate,
      MonteCarloEngine.sum_sq_dev, accumulate.
    cbn [fold_left snd].
    change (of_int (Z.of_nat 1)) with 1. change (of_int (Z.of_nat 1 - 1)) with 0.
    rewrite one_sample_variance. change (PrimFloat.sqrt (nan / 1)) with nan.
    now rewrite mul_nan_r. }
  destruct vr.
  1-3: destruct (Hone (exp M (- OptionParams.r p * OptionParams.T p)) x) as [H _];
       destruct (MonteCarloEngine.plain_estimate _ _ _) as [price_est std_err];
       exact H.
  assert (exists a, MonteCarloEngine.adjusted_payoffs M p z [x] 1 = [a]) as [a ->]
    by (eexists; reflexivity).
  destruct (Hone (exp M (- OptionParams.r p * OptionParams.T p)) a) as [_ H].
  destruct (MonteCarloEngine.control_variate_estimate _ _ _) as [price_est std_err].
  exact H.
Qed.

End OnePath.

Section ThreadSeeds.
Local Open Scope Z_scope.

(** X16. The threads of [price_multistep] seed their generators differently: as
    long as [omp_get_thread_num() * 1000] fits an [int], two different
    threads never compute the same [thread_seed], whatever [seed] is. *)
Theorem thread_seeds_distinct (seed : Z) (t t' : nat) :
  Z.of_nat t * 1000 < 2 ^ 31 -> Z.of_nat t' * 1000 < 2 ^ 31 -> t <> t' ->
  MonteCarloEngine.thread_seed seed t <> MonteCarloEngine.thread_seed seed t'.
Proof.
  intros Ht Ht' Hne. unfold MonteCarloEngine.thread_seed. intros Heq.
  set (a := seed + Z.of_nat t * 1000) in *. set (b := seed + Z.of_nat t' * 1000) in *.
  assert (2 ^ 31 * 2 = 2 ^ 32) as Hpow by reflexivity.
  pose proof (Z.div_mod a (2 ^ 32) ltac:(lia)) as Ha.
  pose proof (Z.div_mod b (2 ^ 32) ltac:(lia)) as Hb.
  rewrite Heq in Ha.
  assert (a - b = 2 ^ 32 * (a / 2 ^ 32 - b / 2 ^ 32)) as Hdiff by lia.
  assert (- 2 ^ 31 < a - b < 2 ^ 31) as Hsmall by (unfold a, b; lia).
  assert (a / 2 ^ 32 - b / 2 ^ 32 = 0) as Hq by nia.
  rewrite Hq, Z.mul_0_r in Hdiff. unfold a, b in Hdiff. lia.
Qed.

(** X16, run: threads 0 and 3 under the default seed. *)
Lemma thread_seeds_distinct_witness :
  MonteCarloEngine.thread_seed 42 0 <> MonteCarloEngine.thread_seed 42 3.
Proof.
  apply (thread_seeds_distinct 42 0 3); [ reflexivity | reflexivity | lia ].
Defined.

End ThreadSeeds.

(** ** The random sequences *)

Section RandomProperties.
Local Open Scope float_scope.

(** X17. Asking [generate_normals] for fewer samples under the same seed gives a
    prefix of the longer sequence: sample [i] is draw number [i] of the
    stream the seed starts, however many samples are asked for. *)
Theorem generate_normals_prefix (R : Rng) (n m : nat) (seed : Z) :
  n <= m ->
  RandomGenerator.generate_normals R n seed
  = take n (RandomGenerator.generate_normals R m seed).
Proof.
  intros Hnm. apply list_eq. intros i.
  destruct (decide (i < n)) as [ Hlt | Hge ].
  - rewrite lookup_take_lt by done.
    rewrite !StreamFacts.lookup_generate_normals by lia. done.
  - rewrite lookup_take_ge by lia.
    apply lookup_ge_None. rewrite MonteCarloFacts.length_generate_normals. lia.
Qed.

(** X17, run: two samples against four from a scripted stream. *)
Lemma generate_normals_prefix_witness :
  RandomGenerator.generate_normals (Ref.scripted [0.5; -1.25; 2; 0.75]) 2 42
  = take 2 (RandomGenerator.generate_normals (Ref.scripted [0.5; -1.25; 2; 0.75]) 4 42).
Proof.
  apply (generate_normals_prefix (Ref.scripted [0.5; -1.25; 2; 0.75]) 2 4 42). lia.
Defined.

(** X18. [generate_antithetic] consumes the same stream as [generate_normals],
    one draw per pair: under the same seed its sample at the even index
    [2 i] is sample [i] of the plain sequence, the unpaired last sample of an
    odd [n] included. *)
Theorem generate_antithetic_draws (R : Rng) (n : nat) (seed : Z) (i : nat) :
  2 * i < n ->
  RandomGenerator.generate_antithetic R n seed !! (2 * i)%nat
  = RandomGenerator.generate_normals R n seed !! i.
Proof.
  intros Hi. rewrite StreamFacts.lookup_generate_normals by lia.
  unfold RandomGenerator.generate_antithetic.
  pose proof (Nat.div_mod_eq n 2) as Hn.
  pose proof (Nat.mod_upper_bound n 2 ltac:(lia)) as Hmod.
  destruct (StreamFacts.antithetic_loop R (n / 2) (replicate n 0.0) (seeded R seed))
    as (Hg & Hlen & Hdraws); [ rewrite length_replicate; lia | ].
  rewrite length_replicate in Hlen.
  destruct (RandomGenerator.antithetic_pairs R (n / 2) _ _) as [samples g].
  cbn [fst snd] in *. subst g.
  destruct (Nat.eqb_spec (n mod 2) 0) as [ Heven | Hodd ]; cbn [negb].
  - apply Hdraws. lia.
  - destruct (decide (i = (n / 2)%nat)) as [ -> | Hne ].
    + replace (2 * (n / 2))%nat with (n - 1)%nat by lia.
      apply list_lookup_insert_eq. lia.
    + rewrite list_lookup_insert_ne by lia. apply Hdraws. lia.
Qed.

(** X18, run: five samples from a scripted stream, the unpaired last one. *)
Lemma generate_antithetic_draws_witness :
  RandomGenerator.generate_antithetic (Ref.scripted [0.5; -1.25; 2]) 5 42 !! (2 * 2)%nat
  = RandomGenerator.generate_normals (Ref.scripted [0.5; -1.25; 2]) 5 42 !! 2%nat.
Proof.
  apply (generate_antithetic_draws (Ref.scripted [0.5; -1.25; 2]) 5 42 2). lia.
Defined.

End RandomProperties.

Module RadicalInverse.
Import Binary64 Binary64Exact.

Section Integers.
Local Open Scope Z_scope.

(** The value [van_der_corput] accumulates for the bits of [p], lowest
    first, when the lowest bit weighs [w]. *)
Fixpoint radical (p : positive) (w : Z) : Z :=
  match p with
  | xH => w
  | xO p' => radical p' (w / 2)
  | xI p' => w + radical p' (w / 2)
  end.

Lemma half_pow2 (k : Z) : 0 < k -> 2 ^ k / 2 = 2 ^ (k - 1).
Proof.
  intros Hk. replace k with (k - 1 + 1) at 1 by lia.
  rewrite Z.pow_add_r, Z.pow_1_r by lia. apply Z.div_mul. lia.
Qed.

Lemma size_nat_pos (p : positive) : (1 <= Pos.size_nat p)%nat.
Proof. destruct p; cbn [Pos.size_nat]; lia. Qed.

Lemma radical_bounds (p : positive) :
  forall k : Z,
    Z.of_nat (Pos.size_nat p) <= k + 1 ->
    0 < radical p (2 ^ k) < 2 ^ (k + 1).
Proof.
  induction p as [ p IH | p IH | ]; intros k Hk; cbn [radical Pos.size_nat] in *;
    try pose proof (size_nat_pos p).
  - rewrite half_pow2 by lia. specialize (IH (k - 1) ltac:(lia)).
    replace (k - 1 + 1) with k in IH by lia.
    rewrite Z.pow_add_r, Z.pow_1_r by lia. lia.
  - rewrite half_pow2 by lia. specialize (IH (k - 1) ltac:(lia)).
    replace (k - 1 + 1) with k in IH by lia.
    rewrite Z.pow_add_r, Z.pow_1_r by lia. lia.
  - pose proof (pow2_pos k ltac:(lia)). rewrite Z.pow_add_r, Z.pow_1_r by lia. lia.
Qed.

(** Different integers have different radical inverses. *)
Lemma radical_inj (p : positive) :
  forall (p' : positive) (k : Z),
    Z.of_nat (Pos.size_nat p) <= k + 1 -> Z.of_nat (Pos.size_nat p') <= k + 1 ->
    radical p (2 ^ k) = radical p' (2 ^ k) -> p = p'.
Proof.
  induction p as [ p IH | p IH | ]; intros [ p' | p' | ] k Hk Hk' Heq;
    cbn [radical Pos.size_nat] in *.
  all: try pose proof (size_nat_pos p).
  all: try pose proof (size_nat_pos p').
  all: try (pose proof (pow2_pos k ltac:(lia))).
  all: try (rewrite half_pow2 in Heq by lia).
  all: try (pose proof (radical_bounds p (k - 1) ltac:(lia)) as Hb;
            replace (k - 1 + 1) with k in Hb by lia).
  all: try (pose proof (radical_bounds p' (k - 1) ltac:(lia)) as Hb';
            replace (k - 1 + 1) with k in Hb' by lia).
  all: try lia.
  - f_equal. apply (IH p' (k - 1)); lia.
  - f_equal. apply (IH p' (k - 1)); lia.
Qed.

Lemma size_nat_log2 (p : positive) :
  (Pos.size_nat p <= Datatypes.S (Z.to_nat (Z.log2 (Z.pos p))))%nat.
Proof.
  assert (forall q, Pos.to_nat (Pos.size q) = Pos.size_nat q) as Hsize.
  { induction q as [ q IH | q IH | ]; cbn [Pos.size Pos.size_nat];
      rewrite ?Pos2Nat.inj_succ, ?IH; reflexivity. }
  destruct p as [ p | p | ]; cbn [Z.log2 Pos.size_nat];
    rewrite ?Z2Nat.inj_pos, ?Hsize; lia.
Qed.

Lemma size_nat_bound (p : positive) (k : nat) :
  Z.pos p < 2 ^ Z.of_nat k -> (Pos.size_nat p <= k)%nat.
Proof.
  revert k. induction p as [ p IH | p IH | ]; intros k Hk; cbn [Pos.size_nat].
  - destruct k as [ | k ]; [ cbn in Hk; lia | ].
    rewrite Nat2Z.inj_succ, Z.pow_succ_r in Hk by lia.
    specialize (IH k ltac:(lia)). lia.
  - destruct k as [ | k ]; [ cbn in Hk; lia | ].
    rewrite Nat2Z.inj_succ, Z.pow_succ_r in Hk by lia.
    specialize (IH k ltac:(lia)). lia.
  - destruct k as [ | k ]; [ cbn in Hk; lia | lia ].
Qed.

End Integers.

Section Loop.
Local Open Scope float_scope.

(** The weight [f] after [j] iterations: [0.5] halved [j] times. *)
Definition weight (j : nat) : float := Nat.iter j (fun f => f / 2) 0.5.

(** The first 32 weights are exact powers of two, and so are their
    products by the two digits. *)
Lemma weight_table (j : nat) :
  (j <= 31)%nat ->
  fval (weight j) = (2 ^ (1073 - Z.of_nat j))%Z /\
  weight j * 1 = weight j /\ weight j * 0 = 0.
Proof.
  intros Hj.
  do 32 (destruct j as [ | j ]; [ vm_compute; repeat split; reflexivity | ]).
  lia.
Qed.

(** What the loop holds in [result] after some iterations: nothing yet, or
    a positive float of scaled value [acc]. *)
Definition holds (result : float) (acc : Z) : Prop :=
  (acc = 0%Z /\ result = 0) \/ ((0 < acc)%Z /\ fval result = acc).

Lemma loop_spec (p : positive) :
  forall (j fuel : nat) (result : float) (acc a : Z),
    (Pos.size_nat p <= fuel)%nat -> (j + Pos.size_nat p <= 32)%nat ->
    holds result acc ->
    (acc = a * 2 ^ (1074 - Z.of_nat j))%Z -> (0 <= a < 2 ^ Z.of_nat j)%Z ->
    exists u,
      RandomGenerator.van_der_corput_loop fuel (Z.pos p) 2 result (weight j) = Some u /\
      fval u = (acc + radical p (2 ^ (1073 - Z.of_nat j)))%Z.
Proof.
  assert (forall j, (j <= 31)%nat -> (0 < 2 ^ (1073 - Z.of_nat j) < 2 ^ 2100)%Z) as Hw.
  { intros j Hj. split; [ apply pow2_pos; lia | apply Z.pow_lt_mono_r; lia ]. }
  assert (forall (j : nat) result acc a b,
            (j <= 31)%nat -> holds result acc ->
            (acc = a * 2 ^ (1074 - Z.of_nat j))%Z -> (0 <= a < 2 ^ Z.of_nat j)%Z ->
            (b = 0 \/ b = 1)%Z ->
            let acc' := (acc + b * 2 ^ (1073 - Z.of_nat j))%Z in
            holds (result + weight j * of_int b) acc' /\
            (acc' = (2 * a + b) * 2 ^ (1074 - Z.of_nat (Datatypes.S j)))%Z /\
            (0 <= 2 * a + b < 2 ^ Z.of_nat (Datatypes.S j))%Z) as Hstep.
  { intros j result acc a b Hj Hholds Hacc Ha Hb. cbv zeta.
    destruct (weight_table j Hj) as (Hfw & Hone & Hzero).
    specialize (Hw j Hj).
    assert (2 ^ (1074 - Z.of_nat j) = 2 * 2 ^ (1073 - Z.of_nat j))%Z as Hdouble.
    { replace (1074 - Z.of_nat j)%Z with (1 + (1073 - Z.of_nat j))%Z by lia.
      now rewrite Z.pow_add_r by lia. }
    replace (1074 - Z.of_nat (Datatypes.S j))%Z with (1073 - Z.of_nat j)%Z by lia.
    rewrite Nat2Z.inj_succ, Z.pow_succ_r by lia.
    split; [ | split; [ rewrite Hacc, Hdouble; ring | lia ] ].
    destruct Hb as [ -> | -> ].
    - change (of_int 0) with 0. rewrite Hzero, Z.mul_0_l, Z.add_0_r.
      destruct Hholds as [ [-> ->] | [Hpos Hval] ]; [ now left | right ].
      split; [ exact Hpos | ]. rewrite <- Hval.
      assert (fval result < 2 ^ 2100)%Z as Hlt.
      { rewrite Hval, Hacc, Hdouble.
        assert (a * (2 * 2 ^ (1073 - Z.of_nat j)) < 2 ^ Z.of_nat j * (2 * 2 ^ (1073 - Z.of_nat j)))%Z
          by (apply Z.mul_lt_mono_pos_r; lia).
        rewrite <- Hdouble, <- Z.pow_add_r in H by lia.
        replace (Z.of_nat j + (1074 - Z.of_nat j))%Z with 1074%Z in H by lia.
        assert (2 ^ 1074 < 2 ^ 2100)%Z by (apply Z.pow_lt_mono_r; lia). lia. }
      destruct (positive_finite result ltac:(lia)) as (m & e & E & _).
      now rewrite (add_zero_r result false m e E).
    - change (of_int 1) with 1. rewrite Hone, Z.mul_1_l.
      destruct (positive_finite (weight j) ltac:(lia)) as (mw & ew & Ew & _).
      destruct Hholds as [ [-> ->] | [Hpos Hval] ]; right.
      + rewrite (add_zero_l (weight j) false mw ew Ew), Hfw. lia.
      + assert (acc + 2 ^ (1073 - Z.of_nat j) = (2 * a + 1) * 2 ^ (1073 - Z.of_nat j))%Z as Hsum
          by (rewrite Hacc, Hdouble; ring).
        assert (2 ^ Z.of_nat j <= 2 ^ 31)%Z by (apply Z.pow_le_mono_r; lia).
        assert (2 ^ 31 < 2 ^ 52)%Z by (apply Z.pow_lt_mono_r; lia).
        assert (2 * 2 ^ 52 = 2 ^ 53)%Z by reflexivity.
        assert (fval result < 2 ^ 2100)%Z as Hlt.
        { rewrite Hval, Hacc, Hdouble.
          assert (a * (2 * 2 ^ (1073 - Z.of_nat j)) < 2 ^ Z.of_nat j * (2 * 2 ^ (1073 - Z.of_nat j)))%Z
            by (apply Z.mul_lt_mono_pos_r; lia).
          rewrite <- Hdouble, <- Z.pow_add_r in H2 by lia.
          replace (Z.of_nat j + (1074 - Z.of_nat j))%Z with 1074%Z in H2 by lia.
          assert (2 ^ 1074 < 2 ^ 2100)%Z by (apply Z.pow_lt_mono_r; lia). lia. }
        rewrite add_exact; rewrite ?Hfw, ?Hval; try lia.
        rewrite Hsum. exists (2 * a + 1)%Z, (1073 - Z.of_nat j)%Z. lia. }
  induction p as [ p IH | p IH | ]; intros j fuel result acc a Hfuel Hj Hholds Hacc Ha;
    cbn [Pos.size_nat] in Hfuel, Hj;
    (destruct fuel as [ | fuel ]; [ lia | ]);
    cbn [RandomGenerator.van_der_corput_loop radical];
    change (0 <? Z.pos _)%Z with true; cbv iota.
  - assert (Z.quot (Z.pos p~1) 2 = Z.pos p /\ Z.rem (Z.pos p~1) 2 = 1%Z) as [-> ->].
    { rewrite Z.quot_div_nonneg, Z.rem_mod_nonneg by lia.
      rewrite Pos2Z.inj_xI. split.
      - symmetry. apply (Z.div_unique _ _ _ 1); lia.
      - symmetry. apply (Z.mod_unique _ _ (Z.pos p)); lia. }
    destruct (Hstep j result acc a 1%Z ltac:(lia) Hholds Hacc Ha ltac:(lia))
      as (Hholds' & Hacc' & Ha').
    change (of_int 2) with 2. change (weight j / 2) with (weight (Datatypes.S j)).
    destruct (IH (Datatypes.S j) fuel _ _ _ ltac:(lia) ltac:(lia) Hholds' Hacc' Ha')
      as (u & Hu & Hval).
    exists u. split; [ exact Hu | ]. rewrite Hval.
    rewrite half_pow2 by lia.
    replace (1073 - Z.of_nat (Datatypes.S j))%Z with (1073 - Z.of_nat j - 1)%Z by lia. lia.
  - assert (Z.quot (Z.pos p~0) 2 = Z.pos p /\ Z.rem (Z.pos p~0) 2 = 0%Z) as [-> ->].
    { rewrite Z.quot_div_nonneg, Z.rem_mod_nonneg by lia.
      rewrite Pos2Z.inj_xO. split.
      - symmetry. apply (Z.div_unique _ _ _ 0); lia.
      - symmetry. apply (Z.mod_unique _ _ (Z.pos p)); lia. }
    destruct (Hstep j result acc a 0%Z ltac:(lia) Hholds Hacc Ha ltac:(lia))
      as (Hholds' & Hacc' & Ha').
    change (of_int 2) with 2. change (weight j / 2) with (weight (Datatypes.S j)).
    destruct (IH (Datatypes.S j) fuel _ _ _ ltac:(lia) ltac:(lia) Hholds' Hacc' Ha')
      as (u & Hu & Hval).
    exists u. split; [ exact Hu | ]. rewrite Hval.
    rewrite half_pow2 by lia.
    replace (1073 - Z.of_nat (Datatypes.S j))%Z with (1073 - Z.of_nat j - 1)%Z by lia. lia.
  - change (Z.quot 1 2) with 0%Z. change (Z.rem 1 2) with 1%Z.
    destruct (Hstep j result acc a 1%Z ltac:(lia) Hholds Hacc Ha ltac:(lia))
      as (Hholds' & _ & _).
    eexists. split.
    + destruct fuel; reflexivity.
    + destruct Hholds' as [ [Hz _] | [_ Hval] ]; [ | rewrite Hval; lia ].
      specialize (Hw j ltac:(lia)). lia.
Qed.

(** [van_der_corput(n, 2)] for a positive [int]: the loop ends, and what it
    returns is the exact radical inverse of [n]. *)
Lemma van_der_corput_value (p : positive) :
  (Z.pos p < 2 ^ 31)%Z ->
  exists u,
    RandomGenerator.van_der_corput (Z.pos p) 2 = Some u /\
    fval u = radical p (2 ^ 1073).
Proof.
  intros Hp. pose proof (size_nat_bound p 31 Hp) as Hsize.
  unfold RandomGenerator.van_der_corput.
  change (1 / of_int 2) with (weight 0).
  destruct (loop_spec p 0 (Datatypes.S (Z.to_nat (Z.log2 (Z.pos p)))) 0 0 0
              (size_nat_log2 p) ltac:(lia) ltac:(now left) eq_refl ltac:(cbn; lia))
    as (u & Hu & Hval).
  exists u. split; [ exact Hu | ]. rewrite Hval. reflexivity.
Qed.

Lemma van_der_corput_unit (p : positive) (u : float) :
  (Z.pos p < 2 ^ 31)%Z -> fval u = radical p (2 ^ 1073) ->
  (0 <? u) = true /\ (u <? 1) = true.
Proof.
  intros Hp Hval. pose proof (size_nat_bound p 31 Hp) as Hsize.
  pose proof (radical_bounds p 1073 ltac:(lia)) as Hb.
  change (1073 + 1)%Z with 1074%Z in Hb.
  assert (u <> nan) as Hn by (intros ->; change (fval nan) with 0%Z in Hval; lia).
  rewrite !ltb_iff. change (fval 0) with 0%Z. change (fval 1) with (2 ^ 1074)%Z.
  repeat split; try done; lia.
Qed.

End Loop.
End RadicalInverse.

Section QuasiRandomProperties.
Import Binary64 Binary64Exact.
Local Open Scope float_scope.

(** X19. [van_der_corput(n, 2)] on positive [int]s: the loop ends, the value it
    returns lies strictly between 0 and 1, and two different integers never
    give the same value (no rounding occurs: the bits of [n] are mirrored
    around the binary point). *)
Theorem van_der_corput_distinct_in_unit_interval (n m : Z) :
  (0 < n < 2 ^ 31)%Z -> (0 < m < 2 ^ 31)%Z ->
  exists u v,
    RandomGenerator.van_der_corput n 2 = Some u /\
    RandomGenerator.van_der_corput m 2 = Some v /\
    (0 <? u) = true /\ (u <? 1) = true /\
    (n <> m -> u <> v).
Proof.
  intros Hn Hm. destruct n as [ | p | ]; try lia. destruct m as [ | p' | ]; try lia.
  destruct (RadicalInverse.van_der_corput_value p ltac:(lia)) as (u & Hu & Hval).
  destruct (RadicalInverse.van_der_corput_value p' ltac:(lia)) as (v & Hv & Hval').
  exists u, v. split; [ exact Hu | ]. split; [ exact Hv | ].
  destruct (RadicalInverse.van_der_corput_unit p u ltac:(lia) Hval) as [H0 H1].
  split; [ exact H0 | ]. split; [ exact H1 | ].
  intros Hne Heq. apply Hne. f_equal.
  pose proof (RadicalInverse.size_nat_bound p 31 ltac:(lia)).
  pose proof (RadicalInverse.size_nat_bound p' 31 ltac:(lia)).
  apply (RadicalInverse.radical_inj p p' 1073); try lia.
  now rewrite <- Hval, <- Hval', Heq.
Qed.

(** X19, run: the integers 5 and 6. *)
Lemma van_der_corput_distinct_in_unit_interval_witness :
  exists u v,
    RandomGenerator.van_der_corput 5 2 = Some u /\
    RandomGenerator.van_der_corput 6 2 = Some v /\
    (0 <? u) = true /\ (u <? 1) = true /\
    (5%Z <> 6%Z -> u <> v).
Proof.
  apply (van_der_corput_distinct_in_unit_interval 5 6); vm_compute; split; reflexivity.
Defined.

End QuasiRandomProperties.

Module QuasiRandomFacts.
Import Binary64 Binary64Exact.
Section QuasiRandomFacts.
Context (M : Libm).
Local Open Scope float_scope.

(** The point [van_der_corput(i + 1, 2)] of sample [i]. *)
Definition point (i : nat) : float :=
  default 0 (RandomGenerator.van_der_corput (Z.of_nat i + 1) 2).

Lemma point_spec (i : nat) :
  (Z.of_nat i + 1 < 2 ^ 31)%Z ->
  RandomGenerator.van_der_corput (Z.of_nat i + 1) 2 = Some (point i) /\
  fval (point i) = RadicalInverse.radical (Z.to_pos (Z.of_nat i + 1)) (2 ^ 1073).
Proof.
  intros Hi. unfold point.
  destruct (Z.of_nat i + 1)%Z as [ | p | p ] eqn:E; try lia.
  destruct (RadicalInverse.van_der_corput_value p Hi) as (u & -> & Hval). done.
Qed.

(** The loop of [generate_quasi_random] never runs out of points. *)
Lemma quasi_random_loop (n k : nat) :
  (Z.of_nat n < 2 ^ 31)%Z -> k <= n ->
  forall out : list float,
    fold_left
      (fun acc i =>
         samples ← acc;
         u ← RandomGenerator.van_der_corput (Z.of_nat i + 1) 2;
         Some (<[i := norm_inv M u]> samples))
      (seq 0 k) (Some out)
    = Some (fill out (fun i => norm_inv M (point i)) k).
Proof.
  intros Hn. induction k as [ | k IH ]; intros Hk out; [ done | ].
  unfold fill in *. rewrite seq_S, !fold_left_app, IH by lia. cbn [fold_left Nat.add].
  destruct (point_spec k ltac:(lia)) as [-> _]. done.
Qed.

End QuasiRandomFacts.
End QuasiRandomFacts.

Section QuasiRandomSequence.
Import Binary64 Binary64Exact.
Local Open Scope float_scope.

(** X20. [generate_quasi_random(n)] returns [n] samples, each the image by
    [norm_inv] of a point strictly between 0 and 1, and the points are
    pairwise distinct: no sample comes from the saturation branches of
    [norm_inv], and no point is used twice. *)
Theorem generate_quasi_random_points (M : Libm) (n : nat) :
  (Z.of_nat n < 2 ^ 31)%Z ->
  exists us : list float,
    RandomGenerator.generate_quasi_random M n = Some (map (norm_inv M) us) /\
    length us = n /\
    Forall (fun u => (0 <? u) = true /\ (u <? 1) = true) us /\
    NoDup us.
Proof.
  intros Hn. exists (map QuasiRandomFacts.point (seq 0 n)).
  split; [ | split; [ | split ] ].
  - unfold RandomGenerator.generate_quasi_random.
    rewrite (QuasiRandomFacts.quasi_random_loop M n n Hn ltac:(lia)).
    rewrite Vectors.fill_tabulate by apply length_replicate.
    now rewrite map_map.
  - now rewrite length_map, length_seq.
  - apply Forall_forall. intros u Hu.
    change (map ?f ?l) with (f <$> l) in Hu.
    apply list_elem_of_fmap in Hu as (i & -> & Hi). apply elem_of_seq in Hi.
    destruct (QuasiRandomFacts.point_spec i ltac:(lia)) as [_ Hval].
    apply (RadicalInverse.van_der_corput_unit (Z.to_pos (Z.of_nat i + 1))); [ lia | exact Hval ].
  - change (map ?f ?l) with (f <$> l).
    apply NoDup_fmap_2_strong; [ | apply NoDup_seq ].
    intros i j Hi Hj Heq. apply elem_of_seq in Hi, Hj.
    destruct (QuasiRandomFacts.point_spec i ltac:(lia)) as [_ Hvi].
    destruct (QuasiRandomFacts.point_spec j ltac:(lia)) as [_ Hvj].
    rewrite Heq, Hvj in Hvi.
    apply RadicalInverse.radical_inj in Hvi.
    + lia.
    + pose proof (RadicalInverse.size_nat_bound (Z.to_pos (Z.of_nat j + 1)) 31 ltac:(lia)). lia.
    + pose proof (RadicalInverse.size_nat_bound (Z.to_pos (Z.of_nat i + 1)) 31 ltac:(lia)). lia.
Qed.

(** X20, run: five samples. *)
Lemma generate_quasi_random_points_witness :
  exists us : list float,
    RandomGenerator.generate_quasi_random Ref.libm 5 = Some (map (norm_inv Ref.libm) us) /\
    length us = 5%nat /\
    Forall (fun u => (0 <? u) = true /\ (u <? 1) = true) us /\
    NoDup us.
Proof.
  apply (generate_quasi_random_points Ref.libm 5). reflexivity.
Defined.

End QuasiRandomSequence.

(** ** Finite-difference Greeks *)

Module DifferenceSign.
Import Binary64 Binary64Exact.

Section Spec.
Local Open Scope Z_scope.

(** A positive datum minus a larger one is negative, and not a zero. *)
Lemma SFadd_below (mx mc : positive) (ex ec : Z) :
  valid_binary (S754_finite false mx ex) = true ->
  valid_binary (S754_finite false mc ec) = true ->
  Z.pos mx * 2 ^ (ex + 1074) < Z.pos mc * 2 ^ (ec + 1074) ->
  ival (SF64add (S754_finite false mx ex) (S754_finite true mc ec)) < 0.
Proof.
  intros Vx Vc Hlt.
  pose proof Vx as [Hex _]%valid_finite. pose proof Vc as [Hec _]%valid_finite.
  unfold SF64add, SFadd. cbn [cond_Zopp].
  pose proof (shl_align_spec mx ex (Z.min ex ec)) as H1.
  pose proof (shl_align_spec mc ec (Z.min ex ec)) as H2.
  destruct (shl_align mx _ _) as [a ea], (shl_align mc _ _) as [b eb].
  destruct H1 as [Hea Ha], H2 as [Heb Hb]. cbn [fst].
  set (ez := Z.min ex ec) in *.
  pose proof (pow2_pos (ez + 1074) ltac:(lia)) as Hpz.
  assert (Z.pos a * 2 ^ (ez + 1074) = Z.pos mx * 2 ^ (ex + 1074)) as Hva.
  { rewrite Ha, <- Z.mul_assoc, <- Z.pow_add_r by lia. do 2 f_equal. lia. }
  assert (Z.pos b * 2 ^ (ez + 1074) = Z.pos mc * 2 ^ (ec + 1074)) as Hvb.
  { rewrite Hb, <- Z.mul_assoc, <- Z.pow_add_r by lia. do 2 f_equal. lia. }
  destruct (Z.pos a + - Z.pos b) as [ | n | n ] eqn:En; [ nia | nia | ].
  cbn [binary_normalize]. rewrite round_sign, ival_opp.
  assert (representable 1) as HL by (exists 1, 0; cbn; lia).
  pose proof (representable_finite false mc ec 0 Vc ltac:(lia) ltac:(lia)) as HU.
  rewrite Z.add_0_r in HU.
  pose proof (round_between n ez 1 (Z.pos mc * 2 ^ (ec + 1074)) ltac:(lia) HL HU) as Hb'.
  assert (Z.pos n * 2 ^ (ez + 1074) = Z.pos mc * 2 ^ (ec + 1074) - Z.pos mx * 2 ^ (ex + 1074))
    as Hn by (rewrite <- Hva, <- Hvb; nia).
  specialize (Hb' ltac:(nia)). lia.
Qed.

End Spec.

Section Floats.
Local Open Scope float_scope.

(** Subtracting a larger float from one that is not negative gives a float
    below zero: a difference never rounds to zero. *)
Lemma sub_below (x c : float) :
  (0 <=? x) = true -> (x <? c) = true -> (x + - c <? 0) = true.
Proof.
  intros (_ & Hx & H0)%leb_iff (_ & Hc & Hlt)%ltb_iff. change (fval 0) with 0%Z in H0.
  assert (fval (x + - c) < 0)%Z as Hneg.
  { assert (Prim2SF x <> S754_nan) as Nx by now rewrite Prim2SF_nan.
    assert (Prim2SF c <> S754_nan) as Nc by now rewrite Prim2SF_nan.
    unfold fval in *. rewrite FloatAxioms.add_spec, FloatAxioms.opp_spec.
    pose proof (Prim2SF_valid x) as Vx. pose proof (Prim2SF_valid c) as Vc.
    pose proof (pow2_pos 2100 ltac:(lia)) as Hbig. set (big := (2 ^ 2100)%Z) in *.
    destruct (Prim2SF x) as [ sx | sx | | sx mx ex ]; [ | | done | ];
      (destruct (Prim2SF c) as [ sc | sc | | sc mc ec ]; [ | | done | ]);
      cbn [ival] in H0, Hlt; fold big in H0, Hlt;
      try (pose proof (ival_finite_bounds _ _ _ Vx) as Bx; fold big in Bx);
      try (pose proof (ival_finite_bounds _ _ _ Vc) as Bc; fold big in Bc);
      try (destruct sx; cbn [cond_Zopp] in H0, Hlt);
      try (destruct sc; cbn [cond_Zopp] in H0, Hlt);
      try lia;
      cbn [SFopp negb SF64add SFadd ival cond_Zopp]; fold big; try lia.
    apply SFadd_below; assumption. }
  apply ltb_iff. change (fval 0) with 0%Z.
  split; [ | split; [ discriminate | exact Hneg ] ].
  intros E. rewrite E in Hneg. change (fval nan) with 0%Z in Hneg. lia.
Qed.

End Floats.
End DifferenceSign.

Section FiniteDifferenceProperties.
Import Binary64 NaNRewriting.
Local Open Scope float_scope.

(** X21. In the last day of a contract ([0 <= T < 1/365]) the finite-difference
    theta and charm are NaN under the default analytic pricer: the downward
    bump [T - 1/365] is negative, and the analytic price of a contract past
    its expiry is NaN. *)
Theorem finite_difference_theta_nan_last_day (M : Libm) (p : OptionParams.t) :
  (0 <=? OptionParams.T p) = true -> (OptionParams.T p <? 1 / 365) = true ->
  Greeks.theta (FiniteDifferenceGreeks.compute M p None) = nan /\
  Greeks.charm (FiniteDifferenceGreeks.compute M p None) = nan.
Proof.
  intros H0 H1. pose proof (DifferenceSign.sub_below _ _ H0 H1) as Hneg.
  unfold FiniteDifferenceGreeks.compute. cbn [Greeks.theta Greeks.charm].
  unfold FiniteDifferenceGreeks.central_diff, FiniteDifferenceGreeks.cross_diff. cbv zeta.
  split.
  - rewrite (SolverFacts.price_nan_negative_T M (FiniteDifferenceGreeks.bump_T p (- (1 / 365))))
      by exact Hneg.
    now autorewrite with nan_arith.
  - rewrite (SolverFacts.price_nan_negative_T M
               (FiniteDifferenceGreeks.bump_T
                  (FiniteDifferenceGreeks.bump_S p (OptionParams.S p * 0.01)) (- (1 / 365))))
      by exact Hneg.
    now autorewrite with nan_arith.
Qed.

(** X21, run: a call with half a day to go. *)
Lemma finite_difference_theta_nan_last_day_witness :
  let p := OptionParams.mk 100 100 0.00137 0.05 0.2 0 CALL EUROPEAN in
  Greeks.theta (FiniteDifferenceGreeks.compute Ref.libm p None) = nan /\
  Greeks.charm (FiniteDifferenceGreeks.compute Ref.libm p None) = nan.
Proof.
  apply (finite_difference_theta_nan_last_day Ref.libm
           (OptionParams.mk 100 100 0.00137 0.05 0.2 0 CALL EUROPEAN)); reflexivity.
Defined.

End FiniteDifferenceProperties.

(** * Put-call parity under rounding

    Every operation of [BlackScholes::price] after [d1] and [d2] is a sum, a
    difference or a product of doubles.  This part bounds the rounding error
    of each from the specification of the IEEE operations, and adds the
    errors up along the two prices. *)

(** ** Rounding to nearest, with its error *)

Module RoundingError.
Import Binary64 Binary64Exact.

Section Core.
Local Open Scope Z_scope.

(** The second normalisation of [binary_round_aux], for every rounded
    mantissa, zero and the carry at the smallest exponent included. *)
Lemma second_shift_any (q e1 : Z) :
  0 <= q -> -1074 <= e1 ->
  (q < 2 ^ 53 /\ (0 < q -> fexp prec emax (Zdigits2 q + e1) = e1)) \/ q = 2 ^ 53 ->
  exists (s2 : shr_record) (e2 : Z),
    shr_fexp prec emax q e1 loc_Exact = (s2, e2) /\
    0 <= shr_m s2 < 2 ^ 53 /\
    shr_m s2 * 2 ^ (e2 + 1074) = q * 2 ^ (e1 + 1074) /\
    -1074 <= e2 /\
    (0 < q -> -1074 < e2 -> 2 ^ 52 <= shr_m s2).
Proof.
  intros Hq He1 [[Hlt Hcanon] | ->].
  - destruct q as [ | m2 | ]; try lia.
    + exists (Build_shr_record 0 false false), e1.
      unfold shr_fexp. cbn [Zdigits2 shr_record_of_loc]. rewrite Z.add_0_l, fexp_eq.
      split.
      { destruct (Z.max (e1 - 53) (-1074) - e1) as [ | p | p ] eqn:E; try lia; reflexivity. }
      cbn [shr_m]. repeat split; lia.
    + specialize (Hcanon ltac:(lia)).
      exists (Build_shr_record (Z.pos m2) false false), e1.
      unfold shr_fexp. rewrite Hcanon, Z.sub_diag. cbn [shr shr_record_of_loc shr_m].
      repeat split; try lia.
      intros _ Hn. cbn [Zdigits2] in Hcanon. rewrite fexp_eq in Hcanon.
      pose proof (digits2_bounds m2) as Hd.
      replace (Z.pos (digits2_pos m2) - 1) with 52 in Hd by lia. lia.
  - exists (Build_shr_record (2 ^ 52) false false), (e1 + 1).
    unfold shr_fexp. change (Zdigits2 (2 ^ 53)) with 54. rewrite fexp_eq.
    replace (Z.max (54 + e1 - 53) (-1074) - e1) with 1 by lia.
    cbn [shr_m]. repeat split; try reflexivity; try lia.
    replace (e1 + 1 + 1074) with (1 + (e1 + 1074)) by lia.
    rewrite Z.pow_add_r, Z.mul_assoc by lia. reflexivity.
Qed.

Lemma Zdigits2_le (q : Z) : 0 < q < 2 ^ 53 -> Zdigits2 q <= 53.
Proof.
  intros [Hq Hlt]. destruct q as [ | p | p ]; try lia. cbn [Zdigits2].
  pose proof (digits2_bounds p) as [Hlo _].
  destruct (Z_le_gt_dec (Z.pos (digits2_pos p)) 53) as [ | Hgt ]; [ assumption | exfalso ].
  assert (2 ^ 53 <= 2 ^ (Z.pos (digits2_pos p) - 1)) by (apply Z.pow_le_mono_r; lia). lia.
Qed.

(** Rounding [m 2^e] to nearest: the result is the exact value up to one
    part in [2^52], or up to one unit of the last subnormal place, unless it
    overflows.  Values are scaled by [2^K], [K >= 1074], so that products fit. *)
Lemma round_aux_error (m : positive) (e K : Z) :
  0 <= fexp prec emax (Z.pos (digits2_pos m) + e) - e ->
  1074 <= K -> 0 <= e + K ->
  let r := binary_round_aux prec emax false (Z.pos m) e loc_Exact in
  let X := Z.pos m * 2 ^ (e + K) in
  let S := 2 ^ (K - 1074) in
  (r = S754_infinity false /\ 2 ^ 2097 * S <= X) \/
  (r <> S754_nan /\ 0 <= ival r < 2 ^ 2098 /\
   Z.abs (ival r * S - X) * 2 ^ 52 <= X + (S - 1) * 2 ^ 52).
Proof.
  intros Hn0 HK HeK r X S.
  pose proof (digits2_bounds m) as Hd.
  set (d := Z.pos (digits2_pos m)) in *.
  set (n := fexp prec emax (d + e) - e) in *.
  destruct (shr_fexp_inv (Z.pos m) e ltac:(lia) Hn0) as (s1 & E1 & Hinv1).
  change (fexp prec emax (Zdigits2 (Z.pos m) + e) - e) with n in E1, Hinv1.
  pose proof (round_nearest_even_inv _ _ _ Hinv1) as Hq. cbv zeta in Hq.
  set (q := round_nearest_even (shr_m s1) (loc_of_shr_record s1)) in *.
  destruct Hq as [Hq Hinex].
  assert (n = 0 \/ (0 < n /\ n = d - 53 /\ -1074 <= e + n)
          \/ (0 < n /\ e + n = -1074 /\ d - 53 < n)) as Hcase
    by (unfold n in *; rewrite fexp_eq in *; lia).
  assert (-1074 <= e + n) as He1 by (unfold n in *; rewrite fexp_eq in *; lia).
  pose proof (pow2_pos n Hn0) as HT.
  pose proof (Z.div_mod (Z.pos m) (2 ^ n) ltac:(lia)) as Hdm.
  pose proof (Z.mod_pos_bound (Z.pos m) (2 ^ n) HT) as Hrem.
  set (T := 2 ^ n) in *. set (m' := Z.pos m / T) in *. set (rem := Z.pos m mod T) in *.
  assert (0 <= m') as Hm'0 by (apply Z.div_pos; lia).
  assert (n = 0 -> T = 1 /\ rem = 0 /\ q = m' /\ d <= 53) as Hexact.
  { intros E0. assert (T = 1) as HT1 by (unfold T; rewrite E0; reflexivity).
    assert (rem = 0) as Hr0 by (unfold rem; rewrite HT1; apply Z.mod_1_r).
    repeat split; try assumption.
    - destruct (Z.eq_dec q m'); [ assumption | exfalso; now apply Hinex ].
    - unfold n in E0. rewrite fexp_eq in E0. lia. }
  assert (0 < n -> n = d - 53 -> 2 ^ 52 <= m' < 2 ^ 53) as Hnormal.
  { intros Hpos Hnd. split.
    - apply Z.div_le_lower_bound; [ lia | ].
      unfold T. rewrite Z.mul_comm, <- Z.pow_add_r by lia.
      replace (52 + n) with (d - 1) by lia. lia.
    - apply Z.div_lt_upper_bound; [ lia | ].
      unfold T. rewrite <- Z.pow_add_r by lia.
      replace (n + 53) with d by lia. lia. }
  assert (0 < n -> d - 53 < n -> m' < 2 ^ 52) as Hsub.
  { intros Hpos Hnd. apply Z.div_lt_upper_bound; [ lia | ].
    unfold T. rewrite <- Z.pow_add_r by lia.
    assert (2 ^ d <= 2 ^ (n + 52)) by (apply Z.pow_le_mono_r; lia). lia. }
  destruct (second_shift_any q (e + n) ltac:(lia) He1) as (s2 & e2 & E2 & Hm2 & Hval & He2 & Hcan).
  { destruct Hcase as [ E0 | [ (Hpos & Hnd & _) | (Hpos & He & Hnd) ] ].
    - destruct (Hexact E0) as (HT1 & Hr0 & Hqm & Hd53). left.
      assert (m' = Z.pos m) as Hm'm by lia.
      assert (2 ^ d <= 2 ^ 53) by (apply Z.pow_le_mono_r; lia).
      split; [ lia | ]. intros _. rewrite Hqm, Hm'm. cbn [Zdigits2]. fold d.
      rewrite E0, Z.add_0_r. unfold n in E0. lia.
    - specialize (Hnormal Hpos Hnd).
      destruct (Z.eq_dec q (2 ^ 53)) as [ Heq | Hne ]; [ now right | left ].
      split; [ lia | ]. intros _.
      rewrite (Zdigits2_pos q 53) by (change (53 - 1) with 52; lia).
      rewrite fexp_eq. lia.
    - specialize (Hsub Hpos Hnd). left. split; [ lia | ]. intros Hq0.
      pose proof (Zdigits2_le q ltac:(lia)) as Hdq.
      assert (0 < Zdigits2 q) as Hdq0.
      { destruct q as [ | p | p ]; try lia. cbn [Zdigits2]. lia. }
      rewrite fexp_eq. lia. }
  (* the scaled quantities *)
  pose proof (pow2_pos (e + K) HeK) as HP.
  pose proof (pow2_pos (K - 1074) ltac:(lia)) as HS. fold S in HS.
  pose proof (pow2_pos (e + n + 1074) ltac:(lia)) as HG.
  assert (T * 2 ^ (e + K) = 2 ^ (e + n + 1074) * S) as Hscale.
  { unfold T, S. rewrite <- !Z.pow_add_r by lia. f_equal. lia. }
  set (P := 2 ^ (e + K)) in *. set (G := 2 ^ (e + n + 1074)) in *.
  assert (Z.abs (q * G * S - X) <= (T - 1) * P) as Herr.
  { unfold X. rewrite <- Z.mul_assoc, <- Hscale.
    assert (q * (T * P) - Z.pos m * P = ((q - m') * T - rem) * P) as -> by (rewrite Hdm at 1; ring).
    rewrite Z.abs_mul, (Z.abs_eq P) by lia.
    apply Z.mul_le_mono_nonneg_r; [ lia | ].
    destruct (Z.eq_dec q m') as [ -> | Hne ].
    - rewrite Z.sub_diag, Z.mul_0_l. lia.
    - assert (q = m' + 1) as -> by lia. specialize (Hinex Hne). fold T rem in Hinex.
      replace ((m' + 1 - m') * T) with T by ring. lia. }
  assert (Z.abs (q * G * S - X) * 2 ^ 52 <= X + (S - 1) * 2 ^ 52) as Hbound.
  { destruct Hcase as [ E0 | [ (Hpos & Hnd & _) | (Hpos & He & Hnd) ] ].
    - destruct (Hexact E0) as (HT1 & _). rewrite HT1 in Herr.
      assert (0 < X) by (unfold X; lia). lia.
    - specialize (Hnormal Hpos Hnd).
      assert (2 ^ 52 * (T * P) <= X).
      { unfold X. rewrite Hdm at 1.
        apply Z.le_trans with (m' * T * P); [ | nia ].
        rewrite Z.mul_assoc. apply Z.mul_le_mono_nonneg_r; [ lia | ].
        apply Z.mul_le_mono_nonneg_r; lia. }
      assert (0 <= (S - 1) * 2 ^ 52) by lia. nia.
    - assert (G = 1) as HG1 by (unfold G; replace (e + n + 1074) with 0 by lia; reflexivity).
      rewrite HG1, Z.mul_1_l in Hscale.
      assert (0 < X) by (unfold X; lia). nia. }
  unfold r, binary_round_aux. rewrite E1. fold q. rewrite E2.
  change (emax - prec) with 971.
  destruct (shr_m s2) as [ | m2 | m2 ] eqn:Em2; [ | | lia ].
  - right. cbn [ival]. split; [ discriminate | ]. split; [ lia | ].
    assert (q = 0) as Hq0 by nia. rewrite Hq0 in Hbound.
    now rewrite !Z.mul_0_l in *.
  - assert (0 < q) as Hq0 by nia.
    assert (Z.pos m2 * 2 ^ (e2 + 1074) = q * G) as Hval' by exact Hval.
    destruct (Z.leb_spec e2 971) as [ Hle | Hgt ].
    + right. cbn [ival cond_Zopp]. rewrite Hval'.
      split; [ discriminate | ]. split; [ | exact Hbound ].
      rewrite <- Hval'. split; [ lia | ].
      pose proof (pow2_pos (e2 + 1074) ltac:(lia)).
      assert (2 ^ (e2 + 1074) <= 2 ^ 2045) by (apply Z.pow_le_mono_r; lia).
      change (2 ^ 2098) with (2 ^ 53 * 2 ^ 2045). nia.
    + left. split; [ reflexivity | ].
      specialize (Hcan Hq0 ltac:(lia)).
      assert (2 ^ 2098 <= q * G) as Hbig.
      { rewrite <- Hval'. change (2 ^ 2098) with (2 ^ 52 * 2 ^ 2046).
        assert (2 ^ 2046 <= 2 ^ (e2 + 1074)) by (apply Z.pow_le_mono_r; lia).
        apply Z.mul_le_mono_nonneg; lia. }
      destruct Hcase as [ E0 | [ (Hpos & Hnd & _) | (Hpos & He & Hnd) ] ].
      * destruct (Hexact E0) as (HT1 & _). rewrite HT1 in Herr.
        assert (q * G * S = X) by lia.
        change (2 ^ 2097) with (2 ^ 2097 * 1). nia.
      * specialize (Hnormal Hpos Hnd).
        assert (2 ^ 52 * (T * P) <= X).
        { unfold X. rewrite Hdm at 1.
          apply Z.le_trans with (m' * T * P); [ | nia ].
          rewrite Z.mul_assoc. apply Z.mul_le_mono_nonneg_r; [ lia | ].
          apply Z.mul_le_mono_nonneg_r; lia. }
        assert (2 ^ 2098 * S <= q * G * S) by (apply Z.mul_le_mono_nonneg_r; lia).
        assert (q * G * S - X <= (T - 1) * P) by lia.
        assert ((T - 1) * P <= T * P) by (apply Z.mul_le_mono_nonneg_r; lia).
        assert (T * P <= 2 ^ 52 * (T * P)) by lia.
        lia.
      * exfalso. specialize (Hsub Hpos Hnd).
        assert (G = 1) as HG1 by (unfold G; replace (e + n + 1074) with 0 by lia; reflexivity).
        rewrite HG1 in Hbig. assert (2 ^ 52 < 2 ^ 2098) by (apply Z.pow_lt_mono_r; lia). lia.
Qed.

Lemma round_error (m : positive) (e : Z) :
  -1074 <= e ->
  let r := binary_round prec emax false m e in
  let X := Z.pos m * 2 ^ (e + 1074) in
  (r = S754_infinity false /\ 2 ^ 2097 <= X) \/
  (r <> S754_nan /\ 0 <= ival r < 2 ^ 2098 /\ Z.abs (ival r - X) * 2 ^ 52 <= X).
Proof.
  intros He r X. unfold r, binary_round.
  pose proof (shl_align_spec m e (fexp prec emax (Z.pos (digits2_pos m) + e))) as Hs.
  destruct (shl_align _ _ _) as [mz ez]. destruct Hs as [Hez Hmz].
  pose proof (digits2_bounds m) as Hd.
  assert (-1074 <= ez) as Hez0 by (rewrite fexp_eq in Hez; lia).
  assert (Z.pos mz * 2 ^ (ez + 1074) = X) as Hval.
  { unfold X. rewrite Hmz, <- Z.mul_assoc, <- Z.pow_add_r by lia. do 2 f_equal. lia. }
  assert (Z.pos (digits2_pos mz) = Z.pos (digits2_pos m) + (e - ez)) as Hdz.
  { apply digits2_unique. rewrite Hmz.
    replace (Z.pos (digits2_pos m) + (e - ez) - 1) with (Z.pos (digits2_pos m) - 1 + (e - ez)) by lia.
    rewrite !Z.pow_add_r by lia. pose proof (pow2_pos (e - ez) ltac:(lia)).
    split; [ apply Z.mul_le_mono_nonneg_r | apply Z.mul_lt_mono_pos_r ]; lia. }
  pose proof (round_aux_error mz ez 1074) as H. cbv zeta in H.
  rewrite Hdz, Hval in H.
  replace (Z.pos (digits2_pos m) + (e - ez) + ez) with (Z.pos (digits2_pos m) + e) in H by lia.
  change (2 ^ (1074 - 1074)) with 1 in H.
  rewrite Z.mul_1_r, Z.sub_diag, Z.mul_0_l, Z.add_0_r in H.
  destruct (H ltac:(lia) ltac:(lia) ltac:(lia)) as [ [Hr HX] | (Hr & Hi & Hb) ].
  - left. split; assumption.
  - right. rewrite Z.mul_1_r in Hb. repeat split; try assumption; lia.
Qed.

(** Data that are numbers: neither NaN nor an infinity. *)
Definition finite_sf (x : spec_float) : Prop :=
  x <> S754_nan /\ Z.abs (ival x) < 2 ^ 2098.

Lemma valid_lt (s : bool) (m : positive) (e : Z) :
  valid_binary (S754_finite s m e) = true -> 0 < Z.pos m * 2 ^ (e + 1074) < 2 ^ 2098.
Proof.
  intros [He [Hm _]]%valid_finite. pose proof (pow2_pos (e + 1074) ltac:(lia)).
  split; [ lia | ].
  assert (2 ^ (e + 1074) <= 2 ^ 2045) by (apply Z.pow_le_mono_r; lia).
  change (2 ^ 2098) with (2 ^ 53 * 2 ^ 2045). nia.
Qed.

Lemma finite_sf_cases (x : spec_float) :
  valid_binary x = true -> finite_sf x ->
  (exists s, x = S754_zero s) \/
  (exists s m e, x = S754_finite s m e /\ valid_binary (S754_finite s m e) = true).
Proof.
  intros Hv [Hn Hb]. destruct x as [ s | s | | s m e ]; try done.
  - left. eauto.
  - exfalso. destruct s; cbn [ival cond_Zopp] in Hb;
      assert (2 ^ 2098 < 2 ^ 2100) by (apply Z.pow_lt_mono_r; lia); lia.
  - right. eauto.
Qed.

Lemma ival_finite (s : bool) (m : positive) (e : Z) :
  ival (S754_finite s m e) = cond_Zopp s (Z.pos m * 2 ^ (e + 1074)).
Proof. reflexivity. Qed.

(** The sign of a rounded sum or product is the sign of the exact one. *)
Lemma signed_round_error (s : bool) (r0 : spec_float) (X S : Z) :
  0 < X -> 0 < S ->
  ((r0 = S754_infinity false /\ 2 ^ 2097 * S <= X) \/
   (r0 <> S754_nan /\ 0 <= ival r0 < 2 ^ 2098 /\
    Z.abs (ival r0 * S - X) * 2 ^ 52 <= X + (S - 1) * 2 ^ 52)) ->
  let F := cond_Zopp s X in
  let r := if s then SFopp r0 else r0 in
  (r = S754_infinity (F <? 0) /\ 2 ^ 2097 * S <= Z.abs F) \/
  (finite_sf r /\ Z.abs (ival r * S - F) * 2 ^ 52 <= Z.abs F + (S - 1) * 2 ^ 52).
Proof.
  intros HX HS H F r. unfold F, r.
  destruct s; cbn [cond_Zopp].
  - assert ((- X <? 0) = true) as -> by (apply Z.ltb_lt; lia).
    rewrite Z.abs_opp, (Z.abs_eq X) by lia.
    destruct H as [ [-> Hb] | (Hn & Hi & Hb) ]; [ left; split; [ reflexivity | assumption ] | right ].
    unfold finite_sf. rewrite ival_opp. split; [ split | ].
    + intros E. apply Hn. rewrite <- (SFopp_involutive r0), E. reflexivity.
    + rewrite Z.abs_opp. lia.
    + replace (- ival r0 * S - - X) with (- (ival r0 * S - X)) by ring.
      now rewrite Z.abs_opp.
  - assert ((X <? 0) = false) as -> by (apply Z.ltb_ge; lia).
    rewrite (Z.abs_eq X) by lia.
    destruct H as [ [-> Hb] | (Hn & Hi & Hb) ]; [ left; split; [ reflexivity | assumption ] | right ].
    unfold finite_sf. split; [ split; [ assumption | lia ] | assumption ].
Qed.

Lemma SFadd_error (x y : spec_float) :
  valid_binary x = true -> valid_binary y = true -> finite_sf x -> finite_sf y ->
  let F := ival x + ival y in
  let r := SF64add x y in
  (r = S754_infinity (F <? 0) /\ 2 ^ 2097 <= Z.abs F) \/
  (finite_sf r /\ Z.abs (ival r - F) * 2 ^ 52 <= Z.abs F).
Proof.
  intros Hvx Hvy Hfx Hfy F r.
  assert (forall z, finite_sf z -> ival z = F -> z = r ->
          finite_sf r /\ Z.abs (ival r - F) * 2 ^ 52 <= Z.abs F) as Hkeep.
  { intros z Hz HF <-. split; [ assumption | ]. rewrite HF, Z.sub_diag. cbn. lia. }
  destruct (finite_sf_cases x Hvx Hfx) as [ [sx ->] | (sx & mx & ex & -> & Hx) ],
      (finite_sf_cases y Hvy Hfy) as [ [sy ->] | (sy & my & ey & -> & Hy) ].
  - right. apply (Hkeep (S754_zero (if Bool.eqb sx sy then sx else false))).
    + split; [ discriminate | cbn; lia ].
    + reflexivity.
    + unfold r. now destruct sx, sy.
  - right. apply (Hkeep (S754_finite sy my ey)); [ assumption | | reflexivity ].
    unfold F. cbn [ival]. lia.
  - right. apply (Hkeep (S754_finite sx mx ex)); [ assumption | | reflexivity ].
    unfold F. cbn [ival]. lia.
  - pose proof Hx as [Hex _]%valid_finite. pose proof Hy as [Hey _]%valid_finite.
    unfold r, SF64add, SFadd.
    pose proof (shl_align_spec mx ex (Z.min ex ey)) as H1.
    pose proof (shl_align_spec my ey (Z.min ex ey)) as H2.
    destruct (shl_align mx _ _) as [a ea], (shl_align my _ _) as [b eb].
    destruct H1 as [Hea Ha], H2 as [Heb Hb]. cbn [fst].
    set (ez := Z.min ex ey) in *.
    assert (-1074 <= ez /\ ea = ez /\ eb = ez) as (Hez & -> & ->) by (unfold ez in *; lia).
    set (N := cond_Zopp sx (Z.pos a) + cond_Zopp sy (Z.pos b)).
    assert (F = N * 2 ^ (ez + 1074)) as HF.
    { unfold F, N. rewrite !ival_finite, Ha, Hb.
      replace (ex + 1074) with (ex - ez + (ez + 1074)) by lia.
      replace (ey + 1074) with (ey - ez + (ez + 1074)) by lia.
      rewrite (Z.pow_add_r 2 (ex - ez)), (Z.pow_add_r 2 (ey - ez)) by (unfold ez; lia).
      generalize (2 ^ (ex - ez)), (2 ^ (ey - ez)), (2 ^ (ez + 1074)). intros.
      destruct sx, sy; cbn [cond_Zopp]; ring. }
    pose proof (pow2_pos (ez + 1074) ltac:(lia)) as Hp.
    destruct N as [ | p | p ] eqn:EN; cbn [binary_normalize].
    + right. split; [ split; [ discriminate | cbn; lia ] | ].
      rewrite HF. cbn. lia.
    + pose proof (round_error p ez ltac:(lia)) as H. cbv zeta in H.
      pose proof (signed_round_error false (binary_round prec emax false p ez)
                    (Z.pos p * 2 ^ (ez + 1074)) 1 ltac:(lia) ltac:(lia)) as Hs.
      cbv zeta in Hs. cbn [cond_Zopp] in Hs.
      rewrite !Z.mul_1_r, Z.sub_diag, Z.mul_0_l, !Z.add_0_r in Hs.
      rewrite <- HF in Hs. apply Hs. rewrite HF. exact H.
    + pose proof (round_error p ez ltac:(lia)) as H. cbv zeta in H.
      pose proof (signed_round_error true (binary_round prec emax false p ez)
                    (Z.pos p * 2 ^ (ez + 1074)) 1 ltac:(lia) ltac:(lia)) as Hs.
      cbv zeta in Hs. cbn [cond_Zopp] in Hs.
      rewrite !Z.mul_1_r, Z.sub_diag, Z.mul_0_l, !Z.add_0_r in Hs.
      assert (- (Z.pos p * 2 ^ (ez + 1074)) = F) as HF'
        by (rewrite HF; change (Z.neg p) with (- Z.pos p); now rewrite Z.mul_opp_l).
      rewrite HF' in Hs. rewrite round_sign. apply Hs. exact H.
Qed.

Lemma SFsub_add (x y : spec_float) : SF64sub x y = SF64add x (SFopp y).
Proof.
  destruct x as [ sx | sx | | sx mx ex ], y as [ sy | sy | | sy my ey ];
    cbn [SF64sub SFsub SF64add SFadd SFopp]; try reflexivity;
    try (now destruct sx, sy).
Qed.

Lemma valid_opp (x : spec_float) : valid_binary (SFopp x) = valid_binary x.
Proof. now destruct x. Qed.

Lemma finite_sf_opp (x : spec_float) : finite_sf x -> finite_sf (SFopp x).
Proof.
  intros [Hn Hb]. split.
  - intros E. apply Hn. rewrite <- (SFopp_involutive x), E. reflexivity.
  - now rewrite ival_opp, Z.abs_opp.
Qed.

Lemma SFsub_error (x y : spec_float) :
  valid_binary x = true -> valid_binary y = true -> finite_sf x -> finite_sf y ->
  let F := ival x - ival y in
  let r := SF64sub x y in
  (r = S754_infinity (F <? 0) /\ 2 ^ 2097 <= Z.abs F) \/
  (finite_sf r /\ Z.abs (ival r - F) * 2 ^ 52 <= Z.abs F).
Proof.
  intros Hvx Hvy Hfx Hfy F r. unfold r. rewrite SFsub_add.
  pose proof (SFadd_error x (SFopp y) Hvx ltac:(now rewrite valid_opp)
                Hfx (finite_sf_opp y Hfy)) as H.
  cbv zeta in H. rewrite ival_opp in H.
  replace (ival x + - ival y) with F in H by (unfold F; lia). exact H.
Qed.

Lemma digits2_mul (mx my : positive) :
  Z.pos (digits2_pos mx) + Z.pos (digits2_pos my) - 1 <= Z.pos (digits2_pos (mx * my)).
Proof.
  pose proof (digits2_bounds mx) as [Hx _]. pose proof (digits2_bounds my) as [Hy _].
  pose proof (digits2_bounds (mx * my)) as [_ Hxy].
  set (dx := Z.pos (digits2_pos mx)) in *. set (dy := Z.pos (digits2_pos my)) in *.
  set (d := Z.pos (digits2_pos (mx * my))) in *.
  assert (0 < dx /\ 0 < dy /\ 0 < d) as (Hdx & Hdy & Hd) by (unfold dx, dy, d; lia).
  assert (2 ^ (dx - 1 + (dy - 1)) <= Z.pos mx * Z.pos my) as Hlo.
  { rewrite Z.pow_add_r by lia.
    pose proof (pow2_pos (dx - 1) ltac:(lia)). pose proof (pow2_pos (dy - 1) ltac:(lia)).
    apply Z.mul_le_mono_nonneg; lia. }
  rewrite Pos2Z.inj_mul in Hxy.
  destruct (Z_le_gt_dec (dx + dy - 1) d) as [ | Hgt ]; [ assumption | exfalso ].
  assert (2 ^ d <= 2 ^ (dx - 1 + (dy - 1))) by (apply Z.pow_le_mono_r; lia). lia.
Qed.

Lemma digits2_normal (m : positive) : 2 ^ 52 <= Z.pos m -> 53 <= Z.pos (digits2_pos m).
Proof.
  intros H. pose proof (digits2_bounds m) as [_ Hhi].
  destruct (Z_le_gt_dec 53 (Z.pos (digits2_pos m))) as [ | Hgt ]; [ assumption | exfalso ].
  assert (2 ^ Z.pos (digits2_pos m) <= 2 ^ 52) by (apply Z.pow_le_mono_r; lia). lia.
Qed.

Lemma SFmul_error (x y : spec_float) :
  valid_binary x = true -> valid_binary y = true -> finite_sf x -> finite_sf y ->
  let F := ival x * ival y in
  let r := SF64mul x y in
  (r = S754_infinity (F <? 0) /\ 2 ^ 2097 * 2 ^ 1074 <= Z.abs F) \/
  (finite_sf r /\
   Z.abs (ival r * 2 ^ 1074 - F) * 2 ^ 52 <= Z.abs F + (2 ^ 1074 - 1) * 2 ^ 52).
Proof.
  intros Hvx Hvy Hfx Hfy F r.
  assert (0 < 2 ^ 1074) as HE by (apply pow2_pos; lia).
  assert (forall s, r = S754_zero s -> F = 0 ->
          finite_sf r /\
          Z.abs (ival r * 2 ^ 1074 - F) * 2 ^ 52 <= Z.abs F + (2 ^ 1074 - 1) * 2 ^ 52) as Hzero.
  { intros s -> ->. split; [ split; [ discriminate | cbn; lia ] | ].
    cbn [ival]. rewrite Z.mul_0_l. lia. }
  destruct (finite_sf_cases x Hvx Hfx) as [ [sx ->] | (sx & mx & ex & -> & Hx) ],
      (finite_sf_cases y Hvy Hfy) as [ [sy ->] | (sy & my & ey & -> & Hy) ].
  - right. apply (Hzero (xorb sx sy)); reflexivity.
  - right. apply (Hzero (xorb sx sy)); reflexivity.
  - right. apply (Hzero (xorb sx sy)); [ reflexivity | ]. unfold F. cbn [ival]. lia.
  - pose proof Hx as (Hex & Hmx & Hnx)%valid_finite.
    pose proof Hy as (Hey & Hmy & Hny)%valid_finite.
    pose proof (digits2_mul mx my) as Hd.
    assert (0 < Z.pos (digits2_pos mx) /\ 0 < Z.pos (digits2_pos my)) as [Hdx Hdy] by lia.
    assert (0 <= fexp prec emax (Z.pos (digits2_pos (mx * my)) + (ex + ey)) - (ex + ey)) as Hn.
    { rewrite fexp_eq.
      destruct (Z.eq_dec ex (-1074)) as [ E | E ], (Z.eq_dec ey (-1074)) as [ E' | E' ].
      - lia.
      - pose proof (digits2_normal my (Hny ltac:(lia))). lia.
      - pose proof (digits2_normal mx (Hnx ltac:(lia))). lia.
      - pose proof (digits2_normal mx (Hnx ltac:(lia))).
        pose proof (digits2_normal my (Hny ltac:(lia))). lia. }
    pose proof (round_aux_error (mx * my) (ex + ey) 2148 Hn ltac:(lia) ltac:(lia)) as H.
    cbv zeta in H. change (2 ^ (2148 - 1074)) with (2 ^ 1074) in H.
    set (a := Z.pos mx * 2 ^ (ex + 1074)). set (b := Z.pos my * 2 ^ (ey + 1074)).
    assert (0 < a /\ 0 < b) as [Ha Hb].
    { pose proof (pow2_pos (ex + 1074) ltac:(lia)). pose proof (pow2_pos (ey + 1074) ltac:(lia)).
      unfold a, b. lia. }
    assert (Z.pos (mx * my) * 2 ^ (ex + ey + 2148) = a * b) as HX.
    { unfold a, b. replace (ex + ey + 2148) with ((ex + 1074) + (ey + 1074)) by lia.
      rewrite Z.pow_add_r, Pos2Z.inj_mul by lia. ring. }
    rewrite HX in H.
    assert (F = cond_Zopp (xorb sx sy) (a * b)) as HF.
    { unfold F. rewrite !ival_finite. fold a b. destruct sx, sy; cbn [cond_Zopp xorb]; ring. }
    pose proof (signed_round_error (xorb sx sy) _ (a * b) (2 ^ 1074) ltac:(lia) HE H) as Hs.
    cbv zeta in Hs. rewrite <- HF in Hs.
    unfold r, SF64mul, SFmul.
    replace (binary_round_aux prec emax (xorb sx sy) (Z.pos (mx * my)) (ex + ey) loc_Exact)
      with (if xorb sx sy
            then SFopp (binary_round_aux prec emax false (Z.pos (mx * my)) (ex + ey) loc_Exact)
            else binary_round_aux prec emax false (Z.pos (mx * my)) (ex + ey) loc_Exact)
      by (destruct (xorb sx sy); [ now rewrite round_aux_sign | reflexivity ]).
    exact Hs.
Qed.

End Core.
End RoundingError.

(** ** Sums, differences and products of doubles as real numbers *)

Module FloatError.
Import Binary64 Binary64Exact RoundingError.
Import Reals Lra.

(** The real number a double stands for.  (A NaN reads as 0 and an infinity
    as [2^1026]; the statements below are about doubles that are numbers.) *)
Definition scale : R := IZR (2 ^ 1074).
Definition value (x : float) : R := (IZR (fval x) / scale)%R.

(** Doubles that are numbers: neither NaN nor an infinity. *)
Definition finite (x : float) : Prop := x <> nan /\ (Z.abs (fval x) < 2 ^ 2098)%Z.

Section Cases.
Local Open Scope Z_scope.

Lemma finite_sf_iff (x : float) : finite x <-> finite_sf (Prim2SF x).
Proof.
  unfold finite, finite_sf, fval. now rewrite Prim2SF_nan.
Qed.

(** A sum of two numbers: rounded within one part in [2^52], or an overflow. *)
Lemma add_cases (x y : float) :
  finite x -> finite y ->
  let F := fval x + fval y in
  (Prim2SF (x + y) = S754_infinity (F <? 0) /\ 2 ^ 2097 <= Z.abs F) \/
  (finite (x + y) /\ Z.abs (fval (x + y) - F) * 2 ^ 52 <= Z.abs F).
Proof.
  intros Hx%finite_sf_iff Hy%finite_sf_iff F.
  pose proof (SFadd_error _ _ (Prim2SF_valid x) (Prim2SF_valid y) Hx Hy) as H.
  cbv zeta in H. rewrite <- FloatAxioms.add_spec in H.
  destruct H as [ H | [Hf Hb] ]; [ left; exact H | right ].
  split; [ now apply finite_sf_iff | exact Hb ].
Qed.

Lemma sub_cases (x y : float) :
  finite x -> finite y ->
  let F := fval x - fval y in
  (Prim2SF (x - y) = S754_infinity (F <? 0) /\ 2 ^ 2097 <= Z.abs F) \/
  (finite (x - y) /\ Z.abs (fval (x - y) - F) * 2 ^ 52 <= Z.abs F).
Proof.
  intros Hx%finite_sf_iff Hy%finite_sf_iff F.
  pose proof (SFsub_error _ _ (Prim2SF_valid x) (Prim2SF_valid y) Hx Hy) as H.
  cbv zeta in H. rewrite <- FloatAxioms.sub_spec in H.
  destruct H as [ H | [Hf Hb] ]; [ left; exact H | right ].
  split; [ now apply finite_sf_iff | exact Hb ].
Qed.

(** A product of two numbers: rounded within one part in [2^52] and one
    unit of the last subnormal place, or an overflow. *)
Lemma mul_cases (x y : float) :
  finite x -> finite y ->
  let F := fval x * fval y in
  (Prim2SF (x * y) = S754_infinity (F <? 0) /\ 2 ^ 2097 * 2 ^ 1074 <= Z.abs F) \/
  (finite (x * y) /\
   Z.abs (fval (x * y) * 2 ^ 1074 - F) * 2 ^ 52 <= Z.abs F + (2 ^ 1074 - 1) * 2 ^ 52).
Proof.
  intros Hx%finite_sf_iff Hy%finite_sf_iff F.
  pose proof (SFmul_error _ _ (Prim2SF_valid x) (Prim2SF_valid y) Hx Hy) as H.
  cbv zeta in H. rewrite <- FloatAxioms.mul_spec in H.
  destruct H as [ H | [Hf Hb] ]; [ left; exact H | right ].
  split; [ now apply finite_sf_iff | exact Hb ].
Qed.

End Cases.

Section Reals.
Local Open Scope R_scope.

Lemma scale_pos : 0 < scale.
Proof. unfold scale. lra. Qed.

Lemma value_scale (x : float) : IZR (fval x) = value x * scale.
Proof. unfold value. pose proof scale_pos. field. lra. Qed.

Lemma value_opp (x : float) : value (- x) = - value x.
Proof.
  unfold value, fval. rewrite FloatAxioms.opp_spec, ival_opp, opp_IZR.
  pose proof scale_pos. field. lra.
Qed.

Lemma finite_opp (x : float) : finite x -> finite (- x).
Proof.
  intros H%finite_sf_iff. apply finite_sf_iff. rewrite FloatAxioms.opp_spec.
  now apply finite_sf_opp.
Qed.

(** A sum, a difference and a product of two numbers, in real terms: the
    result overflows, or it is the exact result up to one part in [2^52]
    (and, for a product, one unit of the last subnormal place). *)
Lemma add_rounded (x y : float) :
  finite x -> finite y ->
  (Prim2SF (x + y) = S754_infinity (fval x + fval y <? 0)%Z /\
   2 ^ 1023 <= Rabs (value x + value y)) \/
  (finite (x + y) /\
   Rabs (value (x + y) - (value x + value y)) <= Rabs (value x + value y) / 2 ^ 52).
Proof.
  intros Hx Hy. pose proof scale_pos as Hs.
  assert (IZR (fval x + fval y) = (value x + value y) * scale) as HF
    by (rewrite plus_IZR, !value_scale; ring).
  destruct (add_cases x y Hx Hy) as [ [Hi Hb] | [Hf Hb] ]; [ left | right ].
  - split; [ exact Hi | ].
    apply IZR_le in Hb. rewrite abs_IZR, HF, Rabs_mult, (Rabs_pos_eq scale) in Hb by lra.
    apply Rmult_le_reg_r with scale; [ lra | ].
    apply Rle_trans with (IZR (2 ^ 2097)); [ unfold scale; lra | exact Hb ].
  - split; [ exact Hf | ].
    apply IZR_le in Hb. rewrite mult_IZR, !abs_IZR, minus_IZR, HF, value_scale in Hb.
    replace (value (x + y) * scale - (value x + value y) * scale)
      with ((value (x + y) - (value x + value y)) * scale) in Hb by ring.
    rewrite (Rabs_mult (value (x + y) - (value x + value y))),
      (Rabs_mult (value x + value y)), (Rabs_pos_eq scale) in Hb by lra.
    set (a := Rabs (value (x + y) - (value x + value y))) in *.
    set (b := Rabs (value x + value y)) in *.
    assert (a * IZR (2 ^ 52) <= b) by nra. lra.
Qed.

Lemma sub_rounded (x y : float) :
  finite x -> finite y ->
  (Prim2SF (x - y) = S754_infinity (fval x - fval y <? 0)%Z /\
   2 ^ 1023 <= Rabs (value x - value y)) \/
  (finite (x - y) /\
   Rabs (value (x - y) - (value x - value y)) <= Rabs (value x - value y) / 2 ^ 52).
Proof.
  intros Hx Hy. pose proof scale_pos as Hs.
  assert (IZR (fval x - fval y) = (value x - value y) * scale) as HF
    by (rewrite minus_IZR, !value_scale; ring).
  destruct (sub_cases x y Hx Hy) as [ [Hi Hb] | [Hf Hb] ]; [ left | right ].
  - split; [ exact Hi | ].
    apply IZR_le in Hb. rewrite abs_IZR, HF, Rabs_mult, (Rabs_pos_eq scale) in Hb by lra.
    apply Rmult_le_reg_r with scale; [ lra | ].
    apply Rle_trans with (IZR (2 ^ 2097)); [ unfold scale; lra | exact Hb ].
  - split; [ exact Hf | ].
    apply IZR_le in Hb. rewrite mult_IZR, !abs_IZR, minus_IZR, HF, value_scale in Hb.
    replace (value (x - y) * scale - (value x - value y) * scale)
      with ((value (x - y) - (value x - value y)) * scale) in Hb by ring.
    rewrite (Rabs_mult (value (x - y) - (value x - value y))),
      (Rabs_mult (value x - value y)), (Rabs_pos_eq scale) in Hb by lra.
    set (a := Rabs (value (x - y) - (value x - value y))) in *.
    set (b := Rabs (value x - value y)) in *.
    assert (a * IZR (2 ^ 52) <= b) by nra. lra.
Qed.

Lemma mul_rounded (x y : float) :
  finite x -> finite y ->
  (Prim2SF (x * y) = S754_infinity (fval x * fval y <? 0)%Z /\
   2 ^ 1023 <= Rabs (value x * value y)) \/
  (finite (x * y) /\
   Rabs (value (x * y) - value x * value y) <= Rabs (value x * value y) / 2 ^ 52 + / scale).
Proof.
  intros Hx Hy. pose proof scale_pos as Hs.
  assert (IZR (fval x * fval y) = (value x * value y) * (scale * scale)) as HF
    by (rewrite mult_IZR, !value_scale; ring).
  assert (0 < scale * scale) as Hss by nra.
  destruct (mul_cases x y Hx Hy) as [ [Hi Hb] | [Hf Hb] ]; [ left | right ].
  - split; [ exact Hi | ].
    apply IZR_le in Hb.
    rewrite abs_IZR, HF, Rabs_mult, (Rabs_pos_eq (scale * scale)), mult_IZR in Hb by lra.
    fold scale in Hb.
    assert (2 ^ 1023 * scale <= IZR (2 ^ 2097)) by (unfold scale; lra).
    assert (0 <= Rabs (value x * value y)) by apply Rabs_pos.
    nra.
  - split; [ exact Hf | ].
    apply IZR_le in Hb.
    rewrite plus_IZR, !mult_IZR, !abs_IZR, !minus_IZR, mult_IZR, HF, value_scale in Hb.
    fold scale in Hb.
    replace (value (x * y) * scale * scale - value x * value y * (scale * scale))
      with ((value (x * y) - value x * value y) * (scale * scale)) in Hb by ring.
    rewrite (Rabs_mult (value (x * y) - value x * value y)),
      (Rabs_mult (value x * value y) (scale * scale)),
      (Rabs_pos_eq (scale * scale)) in Hb by lra.
    set (a := Rabs (value (x * y) - value x * value y)) in *.
    set (b := Rabs (value x * value y)) in *.
    assert (0 <= a) by apply Rabs_pos.
    assert (IZR (2 ^ 52) = 2 ^ 52) as Hc by lra. rewrite Hc in Hb.
    assert (0 < 2 ^ 52) as Hc0 by lra.
    generalize dependent (2 ^ 52). intros c Hb Hc Hc0.
    apply Rmult_le_reg_r with (scale * scale * c); [ nra | ].
    replace ((b / c + / scale) * (scale * scale * c))
      with (b * (scale * scale) + scale * c) by (field; lra).
    nra.
Qed.

(** The same when the exact result is far from overflowing. *)
Lemma add_error (x y : float) :
  finite x -> finite y -> Rabs (value x + value y) <= 2 ^ 1004 ->
  finite (x + y) /\
  Rabs (value (x + y) - (value x + value y)) <= Rabs (value x + value y) / 2 ^ 52.
Proof.
  intros Hx Hy Hb. destruct (add_rounded x y Hx Hy) as [ [_ H] | H ]; [ lra | exact H ].
Qed.

Lemma sub_error (x y : float) :
  finite x -> finite y -> Rabs (value x - value y) <= 2 ^ 1004 ->
  finite (x - y) /\
  Rabs (value (x - y) - (value x - value y)) <= Rabs (value x - value y) / 2 ^ 52.
Proof.
  intros Hx Hy Hb. destruct (sub_rounded x y Hx Hy) as [ [_ H] | H ]; [ lra | exact H ].
Qed.

Lemma mul_error (x y : float) :
  finite x -> finite y -> Rabs (value x * value y) <= 2 ^ 1004 ->
  finite (x * y) /\
  Rabs (value (x * y) - value x * value y) <= Rabs (value x * value y) / 2 ^ 52 + / scale.
Proof.
  intros Hx Hy Hb. destruct (mul_rounded x y Hx Hy) as [ [_ H] | H ]; [ lra | exact H ].
Qed.

(** The same as intervals, given a bound [c] on the exact result. *)
Lemma Rabs_interval (x b : R) : Rabs x <= b -> - b <= x <= b.
Proof. intros H. split_Rabs; lra. Qed.

Lemma add_bound (x y : float) (c : R) :
  finite x -> finite y -> Rabs (value x + value y) <= c -> c <= 2 ^ 1004 ->
  finite (x + y) /\
  value x + value y - c / 2 ^ 52 <= value (x + y) <= value x + value y + c / 2 ^ 52.
Proof.
  intros Hx Hy Hc Hb. destruct (add_error x y Hx Hy ltac:(lra)) as [Hf He].
  split; [ exact Hf | ].
  assert (Rabs (value (x + y) - (value x + value y)) <= c / 2 ^ 52) as H by lra.
  apply Rabs_interval in H. lra.
Qed.

Lemma sub_bound (x y : float) (c : R) :
  finite x -> finite y -> Rabs (value x - value y) <= c -> c <= 2 ^ 1004 ->
  finite (x - y) /\
  value x - value y - c / 2 ^ 52 <= value (x - y) <= value x - value y + c / 2 ^ 52.
Proof.
  intros Hx Hy Hc Hb. destruct (sub_error x y Hx Hy ltac:(lra)) as [Hf He].
  split; [ exact Hf | ].
  assert (Rabs (value (x - y) - (value x - value y)) <= c / 2 ^ 52) as H by lra.
  apply Rabs_interval in H. lra.
Qed.

Lemma mul_bound (x y : float) (c : R) :
  finite x -> finite y -> Rabs (value x * value y) <= c -> c <= 2 ^ 1004 ->
  finite (x * y) /\
  value x * value y - (c / 2 ^ 52 + / scale) <= value (x * y)
    <= value x * value y + (c / 2 ^ 52 + / scale).
Proof.
  intros Hx Hy Hc Hb. destruct (mul_error x y Hx Hy ltac:(lra)) as [Hf He].
  split; [ exact Hf | ].
  assert (Rabs (value (x * y) - value x * value y) <= c / 2 ^ 52 + / scale) as H by lra.
  apply Rabs_interval in H. lra.
Qed.

End Reals.

End FloatError.

(** ** The two prices *)

Module ParityError.
Import Binary64 Binary64Exact RoundingError FloatError.
Import Reals Lra.

Section Constants.
Local Open Scope R_scope.

Lemma fval_one : fval 1 = (2 ^ 1074)%Z.
Proof. vm_compute. reflexivity. Qed.

Lemma fval_half : fval 0.5 = (2 ^ 1073)%Z.
Proof. vm_compute. reflexivity. Qed.

Lemma finite_one : finite 1.
Proof. split; [ discriminate | ]. rewrite fval_one. vm_compute. reflexivity. Qed.

Lemma finite_half : finite 0.5.
Proof. split; [ discriminate | ]. rewrite fval_half. vm_compute. reflexivity. Qed.

Lemma value_one : value 1 = 1.
Proof. unfold value, scale. rewrite fval_one. field. lra. Qed.

Lemma value_half : value 0.5 = / 2.
Proof. unfold value, scale. rewrite fval_half. lra. Qed.

Lemma leb_value (x y : float) :
  (x <=? y)%float = true -> x <> nan /\ y <> nan /\ value x <= value y.
Proof.
  intros (Hx & Hy & H)%leb_iff. repeat split; try assumption.
  unfold value. pose proof scale_pos.
  apply Rmult_le_compat_r; [ left; now apply Rinv_0_lt_compat | now apply IZR_le ].
Qed.

Lemma value_sign (x : float) : 0 < value x -> (0 < fval x)%Z.
Proof.
  unfold value. pose proof scale_pos as Hs. intros H.
  apply lt_IZR. apply Rmult_lt_reg_r with (/ scale); [ now apply Rinv_0_lt_compat | ].
  unfold Rdiv in H. lra.
Qed.

(** A positive infinity compares above one. *)
Lemma infinity_above_one (x : float) :
  Prim2SF x = S754_infinity false -> (x <=? 1)%float = false.
Proof.
  intros H. destruct (x <=? 1)%float eqn:E; [ exfalso | reflexivity ].
  apply leb_iff in E as (_ & _ & E). unfold fval at 1 in E. rewrite H, fval_one in E.
  cbn [ival cond_Zopp] in E.
  assert (2 ^ 1074 < 2 ^ 2100)%Z by (apply Z.pow_lt_mono_r; lia). lia.
Qed.

End Constants.

Section Mirror.
Local Open Scope R_scope.

(** If [0.5 * (1 + z)] does not exceed one, [z] is a number below 3 or
    [-infinity]. *)
Lemma half_upper (z : float) :
  (0.5 * (1 + z) <=? 1)%float = true -> z <> nan /\ (fval z <= 3 * 2 ^ 1074)%Z.
Proof.
  intros H.
  assert (z <> nan) as Hz.
  { intros ->. rewrite add_nan_r, mul_nan_r in H. discriminate. }
  split; [ exact Hz | ].
  destruct (Z_le_gt_dec (fval z) (3 * 2 ^ 1074)) as [ Hle | Hgt ]; [ exact Hle | exfalso ].
  assert (0 < 2 ^ 1074)%Z as HE by (apply pow2_pos; lia).
  assert (forall a : float, Prim2SF a = S754_infinity false ->
                            (0.5 * a <=? 1)%float = true -> False) as Hinf.
  { intros a Ha Hle. rewrite infinity_above_one in Hle; [ discriminate | ].
    rewrite FloatAxioms.mul_spec, Ha. reflexivity. }
  destruct (Z_lt_le_dec (fval z) (2 ^ 2098)) as [ Hfin | Hbig ].
  - assert (finite z) as Hf by (split; [ exact Hz | lia ]).
    assert (3 < value z) as Hv.
    { unfold value, scale. apply Rmult_lt_reg_r with (IZR (2 ^ 1074)); [ lra | ].
      replace (IZR (fval z) / IZR (2 ^ 1074) * IZR (2 ^ 1074)) with (IZR (fval z)) by (field; lra).
      rewrite <- mult_IZR. apply IZR_lt. lia. }
    destruct (add_rounded 1 z finite_one Hf) as [ [Ha _] | [Ha Hb] ].
    + apply (Hinf (1 + z)%float); [ | exact H ].
      rewrite Ha, fval_one. f_equal. apply Z.ltb_ge. lia.
    + rewrite value_one in Hb.
      assert (39 / 10 < value (1 + z)) as Hva.
      { rewrite (Rabs_pos_eq (1 + value z)) in Hb by lra. apply Rabs_interval in Hb. lra. }
      destruct (mul_rounded 0.5 (1 + z) finite_half Ha) as [ [Hn _] | [Hn Hc] ].
      * pose proof (value_sign (1 + z) ltac:(lra)) as Hpos.
        rewrite infinity_above_one in H; [ discriminate | ].
        rewrite Hn, fval_half. f_equal. apply Z.ltb_ge.
        apply Z.mul_nonneg_nonneg; lia.
      * apply leb_value in H as (_ & _ & H). rewrite value_one in H.
        rewrite value_half in Hc. pose proof scale_pos.
        assert (/ scale <= 1 / 10) as Heta by (unfold scale; lra).
        rewrite (Rabs_pos_eq (/ 2 * value (1 + z))) in Hc by lra.
        apply Rabs_interval in Hc. lra.
  - assert (Prim2SF z = S754_infinity false) as Hi.
    { pose proof (Prim2SF_valid z) as Hv. unfold fval in Hbig, Hgt.
      destruct (Prim2SF z) as [ s | s | | s m e ]; cbn [ival] in Hbig, Hgt.
      - lia.
      - destruct s; [ cbn [cond_Zopp] in Hgt; lia | reflexivity ].
      - lia.
      - pose proof (valid_lt _ _ _ Hv). destruct s; cbn [cond_Zopp] in Hbig, Hgt; lia. }
    apply (Hinf (1 + z)%float); [ | exact H ].
    rewrite FloatAxioms.add_spec, Hi. reflexivity.
Qed.

(** Two values [0.5 * (1 + w)] and [0.5 * (1 - w)] that do not exceed one
    come from a number [w] of moderate size. *)
Lemma mirror_bounds (w : float) :
  (0.5 * (1 + w) <=? 1)%float = true -> (0.5 * (1 + - w) <=? 1)%float = true ->
  finite w /\ Rabs (value w) <= 3.
Proof.
  intros [Hn Hup]%half_upper [_ Hlo]%half_upper. rewrite fval_opp in Hlo.
  assert (3 * 2 ^ 1074 < 2 ^ 2098)%Z by (vm_compute; reflexivity).
  split; [ split; [ exact Hn | lia ] | ].
  unfold value, scale. apply Rabs_le.
  assert (IZR (- (3 * 2 ^ 1074)) <= IZR (fval w) <= IZR (3 * 2 ^ 1074)) as [H1 H2]
    by (split; apply IZR_le; lia).
  rewrite opp_IZR, mult_IZR in H1. rewrite mult_IZR in H2.
  split.
  - apply Rmult_le_reg_r with (IZR (2 ^ 1074)); [ lra | ].
    replace (IZR (fval w) / IZR (2 ^ 1074) * IZR (2 ^ 1074)) with (IZR (fval w)) by (field; lra).
    lra.
  - apply Rmult_le_reg_r with (IZR (2 ^ 1074)); [ lra | ].
    replace (IZR (fval w) / IZR (2 ^ 1074) * IZR (2 ^ 1074)) with (IZR (fval w)) by (field; lra).
    lra.
Qed.

(** Such a pair sums to one up to rounding. *)
Lemma pair_sum (w : float) :
  finite w -> Rabs (value w) <= 3 ->
  let n := (0.5 * (1 + w))%float in
  let n' := (0.5 * (1 + - w))%float in
  finite n /\ finite n' /\
  Rabs (value n) <= 21 / 10 /\ Rabs (value n') <= 21 / 10 /\
  Rabs (value n + value n' - 1) <= 9 / 2 ^ 52.
Proof.
  intros Hw Hb%Rabs_interval n n'. pose proof scale_pos as Hs.
  assert (/ scale <= / 2 ^ 60) as Heta by (unfold scale; lra).
  assert (0 < / scale) as Heta0 by (now apply Rinv_0_lt_compat).
  pose proof (finite_opp w Hw) as Hw'.
  destruct (add_bound 1 w 4 finite_one Hw) as [Ha Hea];
    [ rewrite value_one; apply Rabs_le; lra | lra | ].
  destruct (add_bound 1 (- w) 4 finite_one Hw') as [Ha' Hea'];
    [ rewrite value_one, value_opp; apply Rabs_le; lra | lra | ].
  rewrite value_one in Hea, Hea'. rewrite value_opp in Hea'.
  set (a := value (1 + w)) in *. set (a' := value (1 + - w)) in *.
  destruct (mul_bound 0.5 (1 + w) (21 / 10) finite_half Ha) as [Hn Hen];
    [ rewrite value_half; fold a; apply Rabs_le; lra | lra | ].
  destruct (mul_bound 0.5 (1 + - w) (21 / 10) finite_half Ha') as [Hn' Hen'];
    [ rewrite value_half; fold a'; apply Rabs_le; lra | lra | ].
  rewrite value_half in Hen, Hen'. fold a in Hen. fold a' in Hen'.
  fold n in Hn, Hen. fold n' in Hn', Hen'.
  split; [ exact Hn | ]. split; [ exact Hn' | ].
  repeat split; apply Rabs_le; lra.
Qed.

End Mirror.

Section Legs.
Local Open Scope R_scope.

Lemma scaled_interval (a s b : R) : 0 <= a -> Rabs s <= b -> - (a * b) <= a * s <= a * b.
Proof.
  intros Ha Hs. apply Rabs_interval.
  rewrite Rabs_mult, (Rabs_pos_eq a) by assumption.
  apply Rmult_le_compat_l; assumption.
Qed.

(** One leg of the parity: [A * n + A * n'] against [A], for a pair
    [n], [n'] that sums to one up to rounding. *)
Lemma leg (A n n' : float) :
  finite A -> 0 <= value A <= 2 ^ 1000 ->
  finite n -> finite n' ->
  Rabs (value n) <= 21 / 10 -> Rabs (value n') <= 21 / 10 ->
  Rabs (value n + value n' - 1) <= 9 / 2 ^ 52 ->
  finite (A * n) /\ finite (A * n') /\
  Rabs (value (A * n)) <= 22 / 10 * value A + / scale /\
  Rabs (value (A * n')) <= 22 / 10 * value A + / scale /\
  Rabs (value (A * n) + value (A * n') - value A) <= 14 / 2 ^ 52 * value A + 2 * / scale.
Proof.
  intros HA [HA0 HA1] Hn Hn' Hbn Hbn' Hsum. pose proof scale_pos as Hs.
  assert (0 < / scale) as Heta0 by (now apply Rinv_0_lt_compat).
  pose proof (scaled_interval (value A) _ _ HA0 Hbn) as Hp.
  pose proof (scaled_interval (value A) _ _ HA0 Hbn') as Hp'.
  pose proof (scaled_interval (value A) _ _ HA0 Hsum) as Hps.
  replace (value A * (value n + value n' - 1))
    with (value A * value n + value A * value n' - value A) in Hps by ring.
  destruct (mul_bound A n (value A * (21 / 10)) HA Hn) as [Hf He];
    [ apply Rabs_le; lra | lra | ].
  destruct (mul_bound A n' (value A * (21 / 10)) HA Hn') as [Hf' He'];
    [ apply Rabs_le; lra | lra | ].
  split; [ exact Hf | ]. split; [ exact Hf' | ].
  revert Hp Hp' Hps He He'.
  generalize (value A * value n) (value A * value n') (value (A * n)) (value (A * n')).
  intros p p' v v' Hp Hp' Hps He He'.
  repeat split; apply Rabs_le; lra.
Qed.

(** Call minus put against [A - B], from the two legs. *)
Lemma parity_gap (A B n1 n1' n2 n2' : float) :
  finite A -> 0 <= value A <= 2 ^ 1000 ->
  finite B -> 0 <= value B <= 2 ^ 1000 ->
  finite n1 -> finite n1' -> finite n2 -> finite n2' ->
  Rabs (value n1) <= 21 / 10 -> Rabs (value n1') <= 21 / 10 ->
  Rabs (value n2) <= 21 / 10 -> Rabs (value n2') <= 21 / 10 ->
  Rabs (value n1 + value n1' - 1) <= 9 / 2 ^ 52 ->
  Rabs (value n2 + value n2' - 1) <= 9 / 2 ^ 52 ->
  let C := (A * n1 - B * n2)%float in
  let P := (B * n2' - A * n1')%float in
  finite C /\ finite P /\
  Rabs (value C - value P - (value A - value B))
  <= (value A + value B) / 2 ^ 47 + / 2 ^ 1070.
Proof.
  intros HA HAb HB HBb H1 H1' H2 H2' Hb1 Hb1' Hb2 Hb2' Hs1 Hs2 C P.
  pose proof scale_pos as Hs.
  assert (0 < / scale) as Heta0 by (now apply Rinv_0_lt_compat).
  assert (/ scale = / 2 ^ 1074) as Heta by (unfold scale; lra).
  destruct (leg A n1 n1' HA HAb H1 H1' Hb1 Hb1' Hs1) as (Hf1 & Hf1' & Hv1 & Hv1' & Hl1).
  destruct (leg B n2 n2' HB HBb H2 H2' Hb2 Hb2' Hs2) as (Hf2 & Hf2' & Hv2 & Hv2' & Hl2).
  apply Rabs_interval in Hv1, Hv1', Hv2, Hv2', Hl1, Hl2.
  set (c := 22 / 10 * (value A + value B) + 2 * / scale).
  destruct (sub_bound (A * n1) (B * n2) c Hf1 Hf2) as [HC HeC];
    [ apply Rabs_le; unfold c; lra | unfold c; lra | ].
  destruct (sub_bound (B * n2') (A * n1') c Hf2' Hf1') as [HP HeP];
    [ apply Rabs_le; unfold c; lra | unfold c; lra | ].
  fold C in HC, HeC. fold P in HP, HeP.
  split; [ exact HC | ]. split; [ exact HP | ].
  unfold c in *. destruct HAb as [HA0 HA1], HBb as [HB0 HB1].
  revert Hv1 Hv1' Hv2 Hv2' Hl1 Hl2 HeC HeP.
  generalize (value (A * n1)) (value (A * n1')) (value (B * n2)) (value (B * n2'))
             (value C) (value P) (value A) (value B) HA0 HA1 HB0 HB1.
  rewrite Heta. clear. intros. apply Rabs_le. lra.
Qed.

End Legs.

End ParityError.

Section ParityClaim.
Import Binary64 Binary64Exact FloatError ParityError.
Import Rdefinitions Raxioms RIneq Rbasic_fun Rfunctions Lra.
Local Open Scope float_scope.

Lemma bounded_finite (x : float) :
  (0 <=? x) = true -> (x <=? 0x1p1000) = true ->
  finite x /\ (0 <= value x <= 2 ^ 1000)%R.
Proof.
  intros (_ & Hn & H0)%leb_iff (_ & _ & H1)%leb_iff.
  change (fval 0) with 0%Z in H0.
  assert (fval 0x1p1000 = 2 ^ 2074)%Z as E by (vm_compute; reflexivity).
  rewrite E in H1.
  assert (2 ^ 2074 < 2 ^ 2098)%Z by (apply Z.pow_lt_mono_r; lia).
  split; [ split; [ exact Hn | lia ] | ].
  apply IZR_le in H0, H1. unfold value, scale. split.
  - apply Rmult_le_pos; [ exact H0 | ]. left. apply Rinv_0_lt_compat. lra.
  - apply Rmult_le_reg_r with (IZR (2 ^ 1074)); [ lra | ].
    replace (IZR (fval x) / IZR (2 ^ 1074) * IZR (2 ^ 1074))%R with (IZR (fval x))
      by (field; lra).
    lra.
Qed.

(** C4, amended.  On doubles, for every C library: take a contract whose
    discounted spot [A = S * exp(-q T)] and discounted strike
    [B = K * exp(-r T)], as the code computes them, lie in [0, 2^1000],
    whose [d1] and [d2] are non-zero numbers and whose four values of
    [norm_cdf] do not exceed 1.  Then the call price and the put price are
    numbers, and call minus put differs from [A - B] by at most
    [(A + B) / 2^47 + 2^-1070]; in particular by at most [1e-8] as long as
    [A + B <= 10^6].  (The differences are taken exactly, on the values the
    doubles stand for.) *)
Theorem put_call_parity_rounding (M : Libm) (S K T r sigma q : float)
    (style : ExerciseStyle) :
  let call := OptionParams.mk S K T r sigma q CALL style in
  let put := OptionParams.mk S K T r sigma q PUT style in
  let d1 := BlackScholes.calc_d1 M call in
  let d2 := d1 - sigma * PrimFloat.sqrt T in
  let A := S * exp M (- q * T) in
  let B := K * exp M (- r * T) in
  let C := PricingResult.price (BlackScholes.price M call) in
  let P := PricingResult.price (BlackScholes.price M put) in
  (0 <=? A) = true -> (A <=? 0x1p1000) = true ->
  (0 <=? B) = true -> (B <=? 0x1p1000) = true ->
  (d1 <? 0) = true \/ (0 <? d1) = true ->
  (d2 <? 0) = true \/ (0 <? d2) = true ->
  (norm_cdf M d1 <=? 1) = true -> (norm_cdf M (- d1) <=? 1) = true ->
  (norm_cdf M d2 <=? 1) = true -> (norm_cdf M (- d2) <=? 1) = true ->
  finite C /\ finite P /\
  (Rabs (value C - value P - (value A - value B))
   <= (value A + value B) / 2 ^ 47 + / 2 ^ 1070)%R /\
  (value A + value B <= 1000000 ->
   Rabs (value C - value P - (value A - value B)) <= 1 / 10 ^ 8)%R.
Proof.
  intros call put d1 d2 A B C P HA0 HA1 HB0 HB1 Hd1 Hd2 H1 H1' H2 H2'.
  destruct (bounded_finite A HA0 HA1) as [HA HAv].
  destruct (bounded_finite B HB0 HB1) as [HB HBv].
  destruct (norm_cdf_mirror M d1 Hd1) as (w1 & E1 & E1').
  destruct (norm_cdf_mirror M d2 Hd2) as (w2 & E2 & E2').
  rewrite E1 in H1. rewrite E1' in H1'. rewrite E2 in H2. rewrite E2' in H2'.
  destruct (mirror_bounds w1 H1 H1') as [Hw1 Hb1].
  destruct (mirror_bounds w2 H2 H2') as [Hw2 Hb2].
  destruct (pair_sum w1 Hw1 Hb1) as (Hn1 & Hn1' & Hv1 & Hv1' & Hs1).
  destruct (pair_sum w2 Hw2 Hb2) as (Hn2 & Hn2' & Hv2 & Hv2' & Hs2).
  pose proof (parity_gap A B _ _ _ _ HA HAv HB HBv Hn1 Hn1' Hn2 Hn2'
                Hv1 Hv1' Hv2 Hv2' Hs1 Hs2) as Hgap.
  cbv zeta in Hgap. rewrite <- E1, <- E1', <- E2, <- E2' in Hgap.
  assert (C = A * norm_cdf M d1 - B * norm_cdf M d2) as HC by reflexivity.
  assert (P = B * norm_cdf M (- d2) - A * norm_cdf M (- d1)) as HP by reflexivity.
  rewrite <- HC, <- HP in Hgap.
  destruct Hgap as (HfC & HfP & Hgap).
  split; [ exact HfC | ]. split; [ exact HfP | ]. split; [ exact Hgap | ].
  intros Hsmall. lra.
Qed.

(** C4, run: the contract of the repository's parity test. *)
Lemma put_call_parity_rounding_witness :
  let call := OptionParams.mk 100 105 0.5 0.05 0.25 0.02 CALL EUROPEAN in
  let put := OptionParams.mk 100 105 0.5 0.05 0.25 0.02 PUT EUROPEAN in
  let A := 100 * exp Ref.libm (- 0.02 * 0.5) in
  let B := 105 * exp Ref.libm (- 0.05 * 0.5) in
  let C := PricingResult.price (BlackScholes.price Ref.libm call) in
  let P := PricingResult.price (BlackScholes.price Ref.libm put) in
  finite C /\ finite P /\
  (Rabs (value C - value P - (value A - value B))
   <= (value A + value B) / 2 ^ 47 + / 2 ^ 1070)%R /\
  (value A + value B <= 1000000 ->
   Rabs (value C - value P - (value A - value B)) <= 1 / 10 ^ 8)%R.
Proof.
  apply (put_call_parity_rounding Ref.libm 100 105 0.5 0.05 0.25 0.02 EUROPEAN);
    try (vm_compute; reflexivity); left; vm_compute; reflexivity.
Defined.

End ParityClaim.

(** ** The deltas of a call and of a put *)

Section DeltaParity.
Import Binary64 FloatError ParityError.
Import Rdefinitions Raxioms RIneq Rbasic_fun Rfunctions Lra.
Local Open Scope float_scope.

Lemma unit_finite (x : float) :
  (0 <=? x) = true -> (x <=? 1) = true -> finite x /\ (0 <= value x <= 1)%R.
Proof.
  intros H0 H1. pose proof H0 as (_ & Hn & H0')%leb_iff.
  pose proof H1 as (_ & _ & H1')%leb_iff.
  change (fval 0) with 0%Z in H0'. rewrite fval_one in H1'.
  assert (2 ^ 1074 < 2 ^ 2098)%Z by (apply Z.pow_lt_mono_r; lia).
  split; [ split; [ exact Hn | lia ] | ].
  apply leb_value in H0 as (_ & _ & H0). apply leb_value in H1 as (_ & _ & H1).
  rewrite value_one in H1. unfold value at 1 in H0. change (fval 0) with 0%Z in H0.
  pose proof scale_pos. unfold Rdiv in H0. rewrite Rmult_0_l in H0. split; assumption.
Qed.

(** X25. On doubles, for every C library: the delta of a call minus the delta
    of the put with the same parameters is the dividend discount factor
    [exp(-q T)] up to rounding, whenever that factor lies in [0, 2^1000] and
    [norm_cdf(d1)] lies in [0, 1]: the two deltas are numbers and their
    difference misses the factor by at most [factor / 2^50 + 2^-1072]. *)
Theorem delta_parity_rounding (M : Libm) (S K T r sigma q : float)
    (style : ExerciseStyle) :
  let call := OptionParams.mk S K T r sigma q CALL style in
  let put := OptionParams.mk S K T r sigma q PUT style in
  let fwd := exp M (- q * T) in
  let n := norm_cdf M (BlackScholes.calc_d1 M call) in
  (0 <=? fwd) = true -> (fwd <=? 0x1p1000) = true ->
  (0 <=? n) = true -> (n <=? 1) = true ->
  finite (BlackScholes.delta M call) /\ finite (BlackScholes.delta M put) /\
  (Rabs (value (BlackScholes.delta M call) - value (BlackScholes.delta M put) - value fwd)
   <= value fwd / 2 ^ 50 + / 2 ^ 1072)%R.
Proof.
  intros call put fwd n Hf0 Hf1 Hn0 Hn1.
  destruct (bounded_finite fwd Hf0 Hf1) as [Hf [Hfv0 Hfv1]].
  destruct (unit_finite n Hn0 Hn1) as [Hn [Hnv0 Hnv1]].
  assert (BlackScholes.delta M call = fwd * n) as -> by reflexivity.
  assert (BlackScholes.delta M put = fwd * (n - 1)) as -> by reflexivity.
  pose proof scale_pos as Hs.
  assert (/ scale = / 2 ^ 1074)%R as Heta by (unfold scale; lra).
  destruct (sub_bound n 1 1 Hn finite_one) as [Hm Hem];
    [ rewrite value_one; apply Rabs_le; lra | lra | ].
  rewrite value_one in Hem.
  assert (Rabs (value n) <= 1)%R as Hbn by (apply Rabs_le; lra).
  assert (Rabs (value (n - 1)) <= 11 / 10)%R as Hbm by (apply Rabs_le; lra).
  assert (Rabs (value n - value (n - 1) - 1) <= 1 / 2 ^ 52)%R as Hbd by (apply Rabs_le; lra).
  pose proof (scaled_interval (value fwd) _ _ Hfv0 Hbn) as Hp.
  pose proof (scaled_interval (value fwd) _ _ Hfv0 Hbm) as Hp'.
  pose proof (scaled_interval (value fwd) _ _ Hfv0 Hbd) as Hpd.
  replace (value fwd * (value n - value (n - 1) - 1))%R
    with (value fwd * value n - value fwd * value (n - 1) - value fwd)%R in Hpd by ring.
  destruct (mul_bound fwd n (value fwd * 1) Hf Hn) as [Hc Hec];
    [ apply Rabs_le; lra | lra | ].
  destruct (mul_bound fwd (n - 1) (value fwd * (11 / 10)) Hf Hm) as [Hp2 Hep];
    [ apply Rabs_le; lra | lra | ].
  split; [ exact Hc | ]. split; [ exact Hp2 | ].
  revert Hp Hp' Hpd Hec Hep.
  generalize (value fwd * value n)%R (value fwd * value (n - 1))%R
             (value (fwd * n)) (value (fwd * (n - 1))) (value fwd) Hfv0 Hfv1.
  rewrite Heta. clear. intros. apply Rabs_le. lra.
Qed.

(** X25, run: the contract of the repository's parity test. *)
Lemma delta_parity_rounding_witness :
  let call := OptionParams.mk 100 105 0.5 0.05 0.25 0.02 CALL EUROPEAN in
  let put := OptionParams.mk 100 105 0.5 0.05 0.25 0.02 PUT EUROPEAN in
  let fwd := exp Ref.libm (- 0.02 * 0.5) in
  finite (BlackScholes.delta Ref.libm call) /\ finite (BlackScholes.delta Ref.libm put) /\
  (Rabs (value (BlackScholes.delta Ref.libm call) - value (BlackScholes.delta Ref.libm put)
         - value fwd)
   <= value fwd / 2 ^ 50 + / 2 ^ 1072)%R.
Proof.
  apply (delta_parity_rounding Ref.libm 100 105 0.5 0.05 0.25 0.02 EUROPEAN);
    vm_compute; reflexivity.
Defined.

End DeltaParity.
